(** * ReadFast: the presentation engine of the speed reader

    A shallow embedding of the word/sentence engine of the application
    script (classes [SentenceDetector], [WordMetrics], [WordMarqueeEngine]
    and the state persistence functions), followed by the properties of the
    specification that concern it, and by properties of the code around
    it: the text of a book and its loading, the smooth variant of the
    engine, the pages, the timers, the window of the renderer and the
    colours.

    Conventions.
    - A JavaScript string is a [string]: a sequence of 8-bit code units.
      The whitespace class [\s] is the ECMAScript one restricted to that
      range (code units 9 to 13, 32 and 160).
    - Indices and counters are [Z]; pixel quantities and delays are [Q].
      The measured widths are integers ([offsetWidth]), every pixel
      quantity is an integer or a half integer, and the double arithmetic
      of the script is exact on them. The delay of a sentence is a
      product of a quotient, which the script rounds twice: it is
      computed on the doubles of the kernel ([PrimFloat]), and the delay
      is the rational value of the double.
    - The DOM, the timers of the window and the session storage are state
      that is passed explicitly. *)

From Stdlib Require Import ZArith QArith Qabs Lqa String Ascii List Lia Bool.
From Stdlib Require PrimFloat SpecFloat FloatOps.
From stdpp Require Import gmap strings list.

Open Scope Z_scope.

(* ===================================================================== *)
(** * Part I: definitions                                                *)
(* ===================================================================== *)

(** ** JavaScript string primitives used by the script *)

Module JS.

(** The double quote character. *)
Definition dquote : ascii := "034"%char.

(** [/\s/.test(c)] *)
Definition is_space (c : ascii) : bool :=
  let n := N_of_ascii c in
  ((9 <=? n)%N && (n <=? 13)%N) || (n =? 32)%N || (n =? 160)%N.

(** [/[A-Z]/.test(c)] *)
Definition is_upper (c : ascii) : bool :=
  let n := N_of_ascii c in (65 <=? n)%N && (n <=? 90)%N.

Definition chars (s : string) : list ascii := list_ascii_of_string s.
Definition of_chars (cs : list ascii) : string := string_of_list_ascii cs.

Fixpoint drop_spaces (cs : list ascii) : list ascii :=
  match cs with
  | c :: cs' => if is_space c then drop_spaces cs' else cs
  | [] => []
  end.

(** [s.trim()] *)
Definition trim (s : string) : string :=
  of_chars (rev (drop_spaces (rev (drop_spaces (chars s))))).

(** [s.split(/\s+/)]: the pieces between the maximal runs of whitespace;
    a leading or trailing run gives an empty first or last piece, and the
    empty string gives one empty piece. [cur] is the piece being read and
    [in_run] tells that the previous code unit was whitespace. *)
Fixpoint split_go (cs : list ascii) (cur : list ascii) (in_run : bool)
  : list string :=
  match cs with
  | [] => [of_chars cur]
  | c :: cs' =>
      if is_space c then
        if in_run then split_go cs' cur true
        else of_chars cur :: split_go cs' [] true
      else split_go cs' (cur ++ [c]) false
  end.

Definition split_ws (s : string) : list string := split_go (chars s) [] false.

(** [s.split(/\s+/).filter(w => w.length > 0)] *)
Definition nonempty (w : string) : bool := (0 <? String.length w)%nat.
Definition split_words (s : string) : list string :=
  List.filter nonempty (split_ws s).

(** [s.replace(/\.$/, '')]: one full stop at the very end is removed. *)
Definition strip_final_dot (s : string) : string :=
  match rev (chars s) with
  | c :: r => if Ascii.eqb c "."%char then of_chars (rev r) else s
  | [] => s
  end.

(** [a.join(' ')] *)
Definition join_space (ws : list string) : string := String.concat " " ws.

(** [s[i]] for a natural number [i]; [None] is [undefined]. *)
Definition at_ (s : string) (i : nat) : option ascii := String.get i s.

(** [s.slice(a)] and [s.slice(0, b)] for natural numbers [a] and [b]. *)
Definition slice_from (s : string) (a : nat) : string :=
  substring a (String.length s - a) s.
Definition slice_to (s : string) (b : nat) : string := substring 0 b s.

End JS.

(** ** SentenceDetector *)

Module SentenceDetector.

(** [this.abbreviations], a [Set] of strings. *)
Definition abbreviations : gset string :=
  list_to_set
    [ "Dr"; "Mr"; "Mrs"; "Ms"; "Prof"; "Sr"; "Jr";
      "etc"; "vs"; "e.g"; "i.e"; "cf"; "approx";
      "U.S"; "U.K"; "U.N"; "E.U";
      "St"; "Ave"; "Blvd"; "Rd";
      "Jan"; "Feb"; "Mar"; "Apr"; "Jun"; "Jul"; "Aug"; "Sep"; "Sept";
      "Oct"; "Nov"; "Dec";
      "Mon"; "Tue"; "Wed"; "Thu"; "Fri"; "Sat"; "Sun";
      "Inc"; "Ltd"; "Corp"; "Co" ].

Definition is_stop (c : ascii) : bool :=
  Ascii.eqb c "."%char || Ascii.eqb c "!"%char || Ascii.eqb c "?"%char.

(** [!nextChar] for an indexed character: it is falsy only when it is
    [undefined]. *)
Definition is_undefined (o : option ascii) : bool :=
  match o with None => true | Some _ => false end.

Definition is_quote (c : ascii) : bool :=
  Ascii.eqb c JS.dquote || Ascii.eqb c "'"%char.

(** The decision taken at a stop character at index [i], once the
    character has been appended to [currentSentence]: [true] when the
    sentence is closed there. *)
Definition boundary (text : string) (i : nat) (currentSentence : string)
  : bool :=
  let nextChar := JS.at_ text (i + 1) in
  let afterSpace := JS.at_ text (i + 2) in
  let words := JS.split_ws (JS.trim currentSentence) in
  let lastWord := List.last words ""%string in
  let isAbbreviation :=
    bool_decide (JS.strip_final_dot lastWord ∈ abbreviations) in
  if negb isAbbreviation then
    let nextIsWhitespace :=
      match nextChar with None => true | Some c => JS.is_space c end in
    let nextIsQuote :=
      match nextChar with None => false | Some c => is_quote c end in
    let afterSpaceIsUpper :=
      match afterSpace with None => false | Some c => JS.is_upper c end in
    let isEndOfText := Nat.eqb i (String.length text - 1) in
    (nextIsWhitespace || nextIsQuote)
    && (afterSpaceIsUpper || isEndOfText || is_undefined nextChar)
  else false.

(** The [while (i < text.length)] loop; [fuel] bounds the number of
    iterations and is [text.length] at the call. The result is the pair
    of [sentences] and [currentSentence] at the exit of the loop. *)
Fixpoint detect_loop (fuel : nat) (text : string) (i : nat)
    (currentSentence : string) (sentences : list string)
  : list string * string :=
  match fuel with
  | O => (sentences, currentSentence)
  | S fuel' =>
      match JS.at_ text i with
      | None => (sentences, currentSentence)
      | Some char =>
          let currentSentence := (currentSentence +:+ String char "")%string in
          if is_stop char && boundary text i currentSentence then
            detect_loop fuel' text (i + 1) ""
              (sentences ++ [JS.trim currentSentence])
          else
            detect_loop fuel' text (i + 1) currentSentence sentences
      end
  end.

(** [detectSentences(text)] *)
Definition detectSentences (text : string) : list string :=
  if String.eqb text "" || Nat.eqb (String.length (JS.trim text)) 0 then []
  else
    let '(sentences, currentSentence) :=
      detect_loop (String.length text) text 0 "" [] in
    if (0 <? String.length (JS.trim currentSentence))%nat
    then sentences ++ [JS.trim currentSentence]
    else sentences.

End SentenceDetector.

(** ** The sentence map of the engine *)

Record SentenceSpan := mkSpan {
  sentenceIndex_of : Z;
  startWordIndex : Z;
  endWordIndex : Z;
  text_of : string
}.

(** The [forEach] of [_initializeSentences]: [sentenceIdx] is the index of
    the callback and [wordIndex] the running counter. *)
Fixpoint map_sentences (sentences : list string) (sentenceIdx wordIndex : Z)
  : list SentenceSpan :=
  match sentences with
  | [] => []
  | sentence :: rest =>
      let sentenceWords := JS.split_words sentence in
      let startWordIndex := wordIndex in
      let endWordIndex := wordIndex + Z.of_nat (length sentenceWords) - 1 in
      mkSpan sentenceIdx startWordIndex endWordIndex sentence
      :: map_sentences rest (sentenceIdx + 1)
           (wordIndex + Z.of_nat (length sentenceWords))
  end.

(** [_initializeSentences()]: the pair of [this.sentences] and
    [this.sentenceWordMap]. *)
Definition _initializeSentences (words : list string)
  : list string * list SentenceSpan :=
  let text := JS.join_space words in
  let sentences := SentenceDetector.detectSentences text in
  (sentences, map_sentences sentences 0 0).

(** ** Values, exceptions and configuration *)

(** A thrown exception: [Error msg] is [new Error(msg)], [TypeError] the
    exception of a property access on [undefined]. *)
Inductive exn :=
| Error (message : string)
| TypeError
| InitializationFailed (cause : exn).
    (* [new Error(`WordMarqueeEngine: Initialization failed - ${cause.message}`)] *)

(** The [words] argument of the constructors: an array of strings, or any
    value for which [Array.isArray] is false. *)
Inductive js_words :=
| NotArray
| JSArray (elems : list string).

(** The fields of [CONFIG] that the engine reads. *)
Record Config := mkConfig {
  wpm : Z;
  wordSpacing : Z;
  wordsPerPage : Z          (* [paging.wordsPerPage] *)
}.

Definition CONFIG : Config :=
  {| wpm := 250; wordSpacing := 8; wordsPerPage := 300 |}.

(** The part of the document that the constructors look up. The measure
    element is given by what reading its [offsetWidth] returns once its
    [textContent] and its weight have been set: [Some w], or [None] when
    the access throws. *)
Record Dom := mkDom {
  measure_el : option (string -> bool -> option Z);
  display_area : bool;
  main_container : bool
}.

(** ** WordMetrics *)

Record WordPosition := mkPos {
  word : string;
  index : Z;
  startPosition : Z;
  width : Z;
  middleLetterOffset : Q;
  centerPosition : Q
}.

Module WordMetrics.

(** The methods run on [this.measurementCache], a [Map] from strings to
    widths, and may throw. *)
Definition M (A : Type) : Type :=
  gmap string Z -> (exn + A) * gmap string Z.

Definition ret {A} (a : A) : M A := fun cache => (inr a, cache).
Definition throw {A} (e : exn) : M A := fun cache => (inl e, cache).
Definition bind {A B} (c : M A) (k : A -> M B) : M B :=
  fun cache =>
    match c cache with
    | (inr a, cache') => k a cache'
    | (inl e, cache') => (inl e, cache')
    end.

#[local] Notation "x <- c ;; k" := (bind c (fun x => k))
  (at level 100, c at next level, right associativity).

(** The text of a template literal or of [textContent] for a string or
    [undefined]. *)
Definition template (text : option string) : string :=
  match text with Some t => t | None => "undefined" end.
Definition textContent (text : option string) : string :=
  match text with Some t => t | None => "" end.
Definition bold_name (bold : bool) : string :=
  if bold then "true" else "false".

Definition cacheKey (text : option string) (bold : bool) : string :=
  (template text +:+ "_" +:+ bold_name bold)%string.

(** [word[i]] as the argument of a measurement. *)
Definition char_at (w : string) (i : nat) : option string :=
  match JS.at_ w i with Some c => Some (String c "") | None => None end.

Section Methods.

Variable measureElement : string -> bool -> option Z.
Variable config : Config.

(** [_measureText(text, bold)] *)
Definition _measureText (text : option string) (bold : bool) : M Z :=
  fun cache =>
    match cache !! cacheKey text bold with
    | Some w => (inr w, cache)
    | None =>
        match measureElement (textContent text) bold with
        | Some width => (inr width, <[cacheKey text bold := width]> cache)
        | None =>
            (* the [catch] branch: [text.length * 10] *)
            match text with
            | Some t => (inr (Z.of_nat (String.length t) * 10), cache)
            | None => (inl TypeError, cache)
            end
        end
    end.

(** [getWordWidth(word, isFocus)] *)
Definition getWordWidth (word : string) (isFocus : bool) : M Z :=
  if negb isFocus then _measureText (Some word) false
  else
    let len := String.length word in
    let middleIndex := if (len <=? 2)%nat then 0%nat else (len / 2)%nat in
    let before := JS.slice_to word middleIndex in
    let middle := char_at word middleIndex in
    let after := JS.slice_from word (middleIndex + 1) in
    b <- _measureText (Some before) false ;;
    m <- _measureText middle true ;;
    a <- _measureText (Some after) false ;;
    ret (b + m + a).

(** The [for (let i = 0; i < middleIndex; i++)] loop; [n] counts the
    iterations that remain. *)
Fixpoint offset_loop (word : string) (n i : nat) (offset : Z) : M Z :=
  match n with
  | O => ret offset
  | S n' =>
      w <- _measureText (char_at word i) false ;;
      offset_loop word n' (i + 1) (offset + w)
  end.

(** [getMiddleLetterOffset(word)] *)
Definition getMiddleLetterOffset (word : string) : M Q :=
  let len := String.length word in
  let middleIndex := if (len <=? 2)%nat then 0%nat else (len / 2)%nat in
  offset <- offset_loop word middleIndex 0 0 ;;
  middleWidth <- _measureText (char_at word middleIndex) true ;;
  ret (inject_Z offset + inject_Z middleWidth / 2)%Q.

(** The [forEach] of [_calculateWordPositions()]. *)
Fixpoint positions_loop (words : list string) (index : Z)
    (cumulativePosition : Z) (positions : list WordPosition)
  : M (list WordPosition) :=
  match words with
  | [] => ret positions
  | word :: rest =>
      width <- getWordWidth word true ;;
      middleLetterOffset <- getMiddleLetterOffset word ;;
      positions_loop rest (index + 1)
        (cumulativePosition + (width + wordSpacing config))
        (positions ++
           [ {| word := word;
                index := index;
                startPosition := cumulativePosition;
                width := width;
                middleLetterOffset := middleLetterOffset;
                centerPosition :=
                  (inject_Z cumulativePosition + middleLetterOffset)%Q |} ])
  end.

Definition _calculateWordPositions (words : list string)
  : M (list WordPosition) :=
  positions_loop words 0 0 [].

End Methods.

Record t := mk {
  words : list string;
  config : Config;
  measurementCache : gmap string Z;
  measureElement : string -> bool -> option Z;
  wordPositions : list WordPosition
}.

(** [new WordMetrics(words, config)] in the document [dom]. *)
Definition constructor (dom : Dom) (words : js_words) (config : Config)
  : exn + t :=
  match words with
  | NotArray | JSArray [] =>
      inl (Error "WordMetrics: words must be a non-empty array")
  | JSArray ws =>
      match measure_el dom with
      | None => inl (Error "WordMetrics: measure element not found")
      | Some el =>
          match _calculateWordPositions el config ws ∅ with
          | (inr positions, cache) =>
              inr {| words := ws; config := config;
                     measurementCache := cache;
                     measureElement := el;
                     wordPositions := positions |}
          | (inl e, _) => inl e
          end
      end
  end.

(** [getWordPositionData(index)]; [None] is [null]. *)
Definition getWordPositionData (m : t) (index : Z) : option WordPosition :=
  if (index <? 0) || (Z.of_nat (length (wordPositions m)) <=? index)
  then None
  else wordPositions m !! Z.to_nat index.

Definition getWordCount (m : t) : Z := Z.of_nat (length (words m)).

End WordMetrics.

(** ** RenderEngine *)

(** The content given to the element of a word by [_createWordElement]:
    its [textContent], or the three parts that make its [innerHTML]. *)
Inductive WordElement :=
| PlainWord (textContent : string)
| FocusWord (before : string) (middle : option string) (after : string).

(** What the display area shows after a successful [render]. *)
Inductive Display :=
| ShowWord (focusIndex : Z)
| ShowSentence (sentenceIndex : Z).

Module RenderEngine.

(** The renderer keeps the array that was [this.sentenceWordMap] of the
    engine when the renderer was built. *)
Record t := mk {
  metrics : WordMetrics.t;
  sentenceWordMap : list SentenceSpan
}.

(** [new RenderEngine(config, metrics, sentenceWordMap)] *)
Definition constructor (dom : Dom) (metrics : WordMetrics.t)
    (sentenceWordMap : list SentenceSpan) : exn + t :=
  if negb (display_area dom) then
    inl (Error "RenderEngine: display-area element not found")
  else if negb (main_container dom) then
    inl (Error "RenderEngine: main-container element not found")
  else inr {| metrics := metrics; sentenceWordMap := sentenceWordMap |}.

(** [_createWordElement(word, isFocus)] *)
Definition _createWordElement (word : string) (isFocus : bool)
  : WordElement :=
  if isFocus then
    let len := String.length word in
    let middleIndex := if (len <=? 2)%nat then 0%nat else (len / 2)%nat in
    let before := JS.slice_to word middleIndex in
    let middle := WordMetrics.char_at word middleIndex in
    let after := JS.slice_from word (middleIndex + 1) in
    FocusWord before middle after
  else PlainWord word.

(** The markup that [_createWordElement] assigns to [innerHTML]. *)
Definition innerHTML (e : WordElement) : string :=
  match e with
  | PlainWord w => w
  | FocusWord before middle after =>
      (before +:+ "<span class=" +:+ String JS.dquote "middle-letter"
         +:+ String JS.dquote ">"
         +:+ WordMetrics.template middle +:+ "</span>" +:+ after)%string
  end.

(** [_prepareRenderData(state)], reduced to the focus word it returns. *)
Definition _prepareRenderData (r : t) (focusIndex : Z)
  : exn + WordPosition :=
  match WordMetrics.getWordPositionData (metrics r) focusIndex with
  | None => inl (Error "Invalid focus word data")
  | Some focusWordData => inr focusWordData
  end.

End RenderEngine.

(** ** WordMarqueeEngine *)

(** [this.state]; [mode] is the string ['word'] or ['sentence'], and
    [lastTimestamp] is never set by this engine. *)
Record State := mkState {
  mode : string;
  isPlaying : bool;
  focusIndex : Z;
  sentenceIndex : Z
}.

(** The fields of a [WordMarqueeEngine] object. *)
Record Engine := mkEngine {
  words : list string;
  metrics : WordMetrics.t;
  sentences : list string;
  sentenceWordMap : list SentenceSpan;
  renderer : RenderEngine.t;
  state : State;
  intervalId : option positive
}.

(** ** The window: timers, globals and the session storage *)

(** The functions that the script hands to [setInterval] and [setTimeout]:
    [_boundAdvanceWord], [_boundAdvanceSentence] and the closure of
    [saveStateDebounced]. *)
Inductive Callback := AdvanceWordCb | AdvanceSentenceCb | SaveStateCb.

Inductive TimerKind := SetInterval | SetTimeout.

(** A delay in milliseconds; [NotFinite] is the result of a division by
    zero ([Infinity] or [NaN]). *)
Inductive Delay := Ms (q : Q) | NotFinite.

(** The number that the script holds for an integer: the double nearest
    to it (the integer itself below [2^53]). *)
Definition double_of_Z (z : Z) : PrimFloat.float :=
  FloatOps.SF2Prim
    (SpecFloat.binary_normalize FloatOps.prec FloatOps.emax z 0 false).

(** The delay that a double stands for: its value [m * 2^e] when it is
    finite. *)
Definition delay_of_double (x : PrimFloat.float) : Delay :=
  match FloatOps.Prim2SF x with
  | SpecFloat.S754_zero _ => Ms 0
  | SpecFloat.S754_finite s m e =>
      Ms (inject_Z (if s then Z.neg m else Z.pos m) * 2 ^ e)%Q
  | SpecFloat.S754_infinity _ | SpecFloat.S754_nan => NotFinite
  end.

(** [(wordCount / wordsPerMinute) * 60000] on doubles: the quotient is
    rounded, and then the product. *)
Definition sentence_delay (wordCount wordsPerMinute : Z) : Delay :=
  delay_of_double
    (PrimFloat.mul
       (PrimFloat.div (double_of_Z wordCount) (double_of_Z wordsPerMinute))
       (double_of_Z 60000)).

Record Timer := mkTimer {
  timer_id : positive;
  timer_kind : TimerKind;
  timer_callback : Callback;
  timer_delay : Delay
}.

Record Book := mkBook {
  filename : string;
  title : string;
  type_ : string
}.

(** The values that [JSON.stringify] writes for the snapshot and
    [JSON.parse] reads back. The item of the session storage is kept as
    this value: on objects of strings, integers, booleans and [null] the
    parse of the text that [JSON.stringify] writes is the value itself. *)
#[warnings="-register-all"]
Inductive json :=
| JNull
| JBool (b : bool)
| JNum (z : Z)
| JStr (s : string)
| JObj (fields : list (string * json)).

Record World := mkWorld {
  config : Config;                       (* the object [CONFIG], which is
                                            also [engine.config] *)
  engine : Engine;                       (* the global [engine] *)
  timers : list Timer;                   (* the live timers of the window *)
  next_timer : positive;                 (* the next timer id *)
  saveStateTimeout : option positive;
  currentBook : option Book;
  currentView : string;
  sessionStorage : option json;          (* the item ['readfast_state'] *)
  display : option Display               (* the content of the display area *)
}.

Module W.

Definition set_config (f : Config -> Config) (w : World) : World :=
  mkWorld (f (config w)) (engine w) (timers w) (next_timer w)
    (saveStateTimeout w) (currentBook w) (currentView w)
    (sessionStorage w) (display w).
Definition set_engine (f : Engine -> Engine) (w : World) : World :=
  mkWorld (config w) (f (engine w)) (timers w) (next_timer w)
    (saveStateTimeout w) (currentBook w) (currentView w)
    (sessionStorage w) (display w).
Definition set_timers (ts : list Timer) (n : positive) (w : World) : World :=
  mkWorld (config w) (engine w) ts n
    (saveStateTimeout w) (currentBook w) (currentView w)
    (sessionStorage w) (display w).
Definition set_saveStateTimeout (o : option positive) (w : World) : World :=
  mkWorld (config w) (engine w) (timers w) (next_timer w)
    o (currentBook w) (currentView w) (sessionStorage w) (display w).
Definition set_sessionStorage (o : option json) (w : World) : World :=
  mkWorld (config w) (engine w) (timers w) (next_timer w)
    (saveStateTimeout w) (currentBook w) (currentView w) o (display w).
Definition set_currentBook (b : option Book) (w : World) : World :=
  mkWorld (config w) (engine w) (timers w) (next_timer w)
    (saveStateTimeout w) b (currentView w) (sessionStorage w) (display w).
Definition set_display (d : option Display) (w : World) : World :=
  mkWorld (config w) (engine w) (timers w) (next_timer w)
    (saveStateTimeout w) (currentBook w) (currentView w)
    (sessionStorage w) d.

Definition set_state (f : State -> State) (w : World) : World :=
  set_engine (fun e =>
    mkEngine (words e) (metrics e) (sentences e) (sentenceWordMap e)
      (renderer e) (f (state e)) (intervalId e)) w.
Definition set_intervalId (o : option positive) (w : World) : World :=
  set_engine (fun e =>
    mkEngine (words e) (metrics e) (sentences e) (sentenceWordMap e)
      (renderer e) (state e) o) w.

Definition set_mode (m : string) : State -> State :=
  fun s => mkState m (isPlaying s) (focusIndex s) (sentenceIndex s).
Definition set_isPlaying (b : bool) : State -> State :=
  fun s => mkState (mode s) b (focusIndex s) (sentenceIndex s).
Definition set_focusIndex (i : Z) : State -> State :=
  fun s => mkState (mode s) (isPlaying s) i (sentenceIndex s).
Definition set_sentenceIndex (i : Z) : State -> State :=
  fun s => mkState (mode s) (isPlaying s) (focusIndex s) i.
Definition set_wpm (v : Z) : Config -> Config :=
  fun c => mkConfig v (wordSpacing c) (wordsPerPage c).

(** [engine.state] *)
Definition st (w : World) : State := state (engine w).

(** [array[i]] for an integer [i]; [None] is [undefined]. *)
Definition nth_Z {A} (l : list A) (i : Z) : option A :=
  if i <? 0 then None else l !! Z.to_nat i.

(** [setInterval(cb, ms)] and [setTimeout(cb, ms)]: the timer joins the
    live timers under a fresh id, which is returned. *)
Definition install (k : TimerKind) (cb : Callback) (ms : Delay) (w : World)
  : positive * World :=
  let id := next_timer w in
  (id, set_timers (timers w ++ [mkTimer id k cb ms]) (Pos.succ id) w).

(** [clearInterval(id)] and [clearTimeout(id)], which share the ids. *)
Definition clear (id : positive) (w : World) : World :=
  set_timers
    (List.filter (fun t => negb (Pos.eqb (timer_id t) id)) (timers w))
    (next_timer w) w.

End W.

(** ** State persistence *)

(** [saveState()]: the [readfast] part of the snapshot and the identity of
    the book; the parts of the snapshot that belong to the PDF viewer and
    to the panels are not modelled. *)
Definition snapshot (w : World) (book : Book) : json :=
  JObj
    [ ("book",
        JObj [ ("filename", JStr (filename book));
               ("title", JStr (title book));
               ("type", JStr (type_ book)) ]);
      ("view", JStr (currentView w));
      ("readfast",
        JObj [ ("mode", JStr (mode (W.st w)));
               ("focusIndex", JNum (focusIndex (W.st w)));
               ("sentenceIndex", JNum (sentenceIndex (W.st w)));
               ("wpm", JNum (wpm (config w))) ]) ]%string.

Definition saveState (w : World) : World :=
  match currentBook w with
  | None => w
  | Some book => W.set_sessionStorage (Some (snapshot w book)) w
  end.

(** [loadState()]: [None] is [null]. *)
Definition loadState (w : World) : option json := sessionStorage w.

(** [saveStateDebounced(delay)] *)
Definition saveStateDebounced (delay : Q) (w : World) : World :=
  let w :=
    match saveStateTimeout w with
    | Some id => W.clear id w
    | None => w
    end in
  let '(id, w) := W.install SetTimeout SaveStateCb (Ms delay) w in
  W.set_saveStateTimeout (Some id) w.

(** ** WordMarqueeEngine: constructor and methods *)

Module WordMarqueeEngine.

Definition initial_state (mode : string) : State :=
  {| mode := mode; isPlaying := false; focusIndex := 0; sentenceIndex := 0 |}.

(** [new WordMarqueeEngine(config, words)]; a missing [config] is
    [None]. The renderer is built before [_initializeSentences] runs and
    receives the array that is empty at that time. *)
Definition constructor (dom : Dom) (config : option Config)
    (words : js_words) : exn + Engine :=
  match config with
  | None => inl (Error "WordMarqueeEngine: config is required")
  | Some config =>
      match words with
      | NotArray | JSArray [] =>
          inl (Error "WordMarqueeEngine: words must be a non-empty array")
      | JSArray ws =>
          match WordMetrics.constructor dom words config with
          | inl error => inl (InitializationFailed error)
          | inr metrics =>
              match RenderEngine.constructor dom metrics [] with
              | inl error => inl (InitializationFailed error)
              | inr renderer =>
                  let '(sentences, sentenceWordMap) :=
                    _initializeSentences ws in
                  inr {| words := ws; metrics := metrics;
                         sentences := sentences;
                         sentenceWordMap := sentenceWordMap;
                         renderer := renderer;
                         state := initial_state "word";
                         intervalId := None |}
              end
          end
      end
  end.

(** [this.renderer.render(this.state)]: the exception of
    [_prepareRenderData] is caught inside [render], and the early
    [return] of [_renderSentenceMode] leaves the display as it is. *)
Definition render (w : World) : World :=
  let r := renderer (engine w) in
  let s := W.st w in
  if String.eqb (mode s) "sentence" then
    let sentenceIndex := sentenceIndex s in
    let map := RenderEngine.sentenceWordMap r in
    if (sentenceIndex <? 0) || (Z.of_nat (length map) <=? sentenceIndex)
    then w
    else W.set_display (Some (ShowSentence sentenceIndex)) w
  else
    match RenderEngine._prepareRenderData r (focusIndex s) with
    | inl _ => w
    | inr _ => W.set_display (Some (ShowWord (focusIndex s))) w
    end.

(** [60000 / this.config.wpm] *)
Definition wordInterval (w : World) : Delay :=
  if wpm (config w) =? 0 then NotFinite
  else Ms (60000 / inject_Z (wpm (config w)))%Q.

(** [stop()] *)
Definition stop (w : World) : World :=
  let w := W.set_state (W.set_isPlaying false) w in
  match intervalId (engine w) with
  | Some id => W.set_intervalId None (W.clear id (W.clear id w))
  | None => w
  end.

(** [_advanceSentence()] *)
Definition _advanceSentence (w : World) : World :=
  if sentenceIndex (W.st w)
     <? Z.of_nat (length (sentenceWordMap (engine w))) - 1 then
    let w := W.set_state (W.set_sentenceIndex (sentenceIndex (W.st w) + 1)) w in
    let sentenceMap :=
      W.nth_Z (sentenceWordMap (engine w)) (sentenceIndex (W.st w)) in
    let w :=
      match sentenceMap with
      | Some sm => W.set_state (W.set_focusIndex (startWordIndex sm)) w
      | None => w
      end in
    let w := render w in
    let w := saveStateDebounced 2000 w in
    match sentenceMap with
    | None => stop w           (* [sentenceMap.text] throws; [catch] *)
    | Some sm =>
        let wordCount := Z.of_nat (length (JS.split_words (text_of sm))) in
        let wordsPerMinute := wpm (config w) in
        let delayMs := sentence_delay wordCount wordsPerMinute in
        if isPlaying (W.st w) && String.eqb (mode (W.st w)) "sentence" then
          let '(id, w) := W.install SetTimeout AdvanceSentenceCb delayMs w in
          W.set_intervalId (Some id) w
        else w
    end
  else saveState (stop w).

(** [_advanceWord()] *)
Definition _advanceWord (w : World) : World :=
  if focusIndex (W.st w) <? WordMetrics.getWordCount (metrics (engine w)) - 1
  then
    let w := W.set_state (W.set_focusIndex (focusIndex (W.st w) + 1)) w in
    let w := render w in
    saveStateDebounced 2000 w
  else saveState (stop w).

(** [start()] *)
Definition start (w : World) : World :=
  if isPlaying (W.st w) then w
  else
    let w := W.set_state (W.set_isPlaying true) w in
    if String.eqb (mode (W.st w)) "sentence" then _advanceSentence w
    else
      let '(id, w) := W.install SetInterval AdvanceWordCb (wordInterval w) w in
      W.set_intervalId (Some id) w.

(** [setSpeed(value)] *)
Definition setSpeed (value : Z) (w : World) : World :=
  let w := W.set_config (W.set_wpm value) w in
  let w :=
    if isPlaying (W.st w) then
      if String.eqb (mode (W.st w)) "word" then
        let w :=
          match intervalId (engine w) with
          | Some id => W.clear id w
          | None => w
          end in
        let '(id, w) := W.install SetInterval AdvanceWordCb (wordInterval w) w in
        W.set_intervalId (Some id) w
      else w
    else w in
  saveState w.

(** The [for] loop of [toggleMode()], which stops at the first span that
    contains [currentFocusIndex]. *)
Fixpoint toggle_loop (map : list SentenceSpan) (i : Z)
    (currentFocusIndex : Z) (s : State) : State :=
  match map with
  | [] => s
  | sentenceMap :: rest =>
      if (startWordIndex sentenceMap <=? currentFocusIndex)
         && (currentFocusIndex <=? endWordIndex sentenceMap)
      then W.set_focusIndex (startWordIndex sentenceMap)
             (W.set_sentenceIndex i s)
      else toggle_loop rest (i + 1) currentFocusIndex s
  end.

(** [toggleMode()] *)
Definition toggleMode (w : World) : World :=
  let wasPlaying := isPlaying (W.st w) in
  let w := stop w in
  let currentFocusIndex := focusIndex (W.st w) in
  let w :=
    if String.eqb (mode (W.st w)) "word" then
      let w := W.set_state (W.set_mode "sentence") w in
      let w := W.set_state (W.set_sentenceIndex 0) w in
      W.set_state
        (toggle_loop (sentenceWordMap (engine w)) 0 currentFocusIndex) w
    else W.set_state (W.set_mode "word") w in
  let w := render w in
  let w := if wasPlaying then start w else w in
  saveState w.

(** [togglePlayPause()] *)
Definition togglePlayPause (w : World) : World :=
  if isPlaying (W.st w) then stop w else start w.

(** The assignment of [sentenceIndex] and of the start of its span, which
    the sentence branches of the page and wheel handlers share:
    [if (sentenceMap) this.state.focusIndex = sentenceMap.startWordIndex]. *)
Definition goto_sentence (newIndex : Z) (w : World) : World :=
  let w := W.set_state (W.set_sentenceIndex newIndex) w in
  match W.nth_Z (sentenceWordMap (engine w)) newIndex with
  | Some sentenceMap =>
      W.set_state (W.set_focusIndex (startWordIndex sentenceMap)) w
  | None => w
  end.

(** [_nextPage()] *)
Definition _nextPage (w : World) : World :=
  if String.eqb (mode (W.st w)) "sentence" then
    let jumpSize := 10 in
    let newIndex :=
      Z.min (sentenceIndex (W.st w) + jumpSize)
            (Z.of_nat (length (sentenceWordMap (engine w))) - 1) in
    saveState (render (goto_sentence newIndex w))
  else
    let wordsPerPage := wordsPerPage (config w) in
    let totalWords := WordMetrics.getWordCount (metrics (engine w)) in
    let currentWordIndex := focusIndex (W.st w) in
    let currentPage := currentWordIndex / wordsPerPage in
    let nextPageStart :=
      Z.min ((currentPage + 1) * wordsPerPage) (totalWords - 1) in
    saveState (render (W.set_state (W.set_focusIndex nextPageStart) w)).

(** [_prevPage()] *)
Definition _prevPage (w : World) : World :=
  if String.eqb (mode (W.st w)) "sentence" then
    let jumpSize := 10 in
    let newIndex := Z.max (sentenceIndex (W.st w) - jumpSize) 0 in
    saveState (render (goto_sentence newIndex w))
  else
    let wordsPerPage := wordsPerPage (config w) in
    let currentWordIndex := focusIndex (W.st w) in
    let currentPage := currentWordIndex / wordsPerPage in
    let prevPageStart := Z.max ((currentPage - 1) * wordsPerPage) 0 in
    saveState (render (W.set_state (W.set_focusIndex prevPageStart) w)).

(** [_handleWheel(event)] for [event.deltaY = deltaY] *)
Definition _handleWheel (deltaY : Z) (w : World) : World :=
  if String.eqb (mode (W.st w)) "sentence" then
    if 0 <? deltaY then
      if 0 <? sentenceIndex (W.st w) then
        saveStateDebounced 500
          (render (goto_sentence (sentenceIndex (W.st w) - 1) w))
      else w
    else if deltaY <? 0 then
      if sentenceIndex (W.st w)
         <? Z.of_nat (length (sentenceWordMap (engine w))) - 1 then
        saveStateDebounced 500
          (render (goto_sentence (sentenceIndex (W.st w) + 1) w))
      else w
    else w
  else
    if 0 <? deltaY then
      if 0 <? focusIndex (W.st w) then
        saveStateDebounced 500
          (render (W.set_state (W.set_focusIndex (focusIndex (W.st w) - 1)) w))
      else w
    else if deltaY <? 0 then
      if focusIndex (W.st w)
         <? WordMetrics.getWordCount (metrics (engine w)) - 1 then
        saveStateDebounced 500
          (render (W.set_state (W.set_focusIndex (focusIndex (W.st w) + 1)) w))
      else w
    else w.

(** [loadNewText(words)] for an array of strings, in the document [dom]:
    the world after the call, with the exception that left it when there
    is one; the assignments made before the exception stay. *)
Definition loadNewText (dom : Dom) (ws : list string) (w : World)
  : option exn * World :=
  let w := stop w in
  let w :=
    W.set_engine (fun e =>
      mkEngine ws (metrics e) (sentences e) (sentenceWordMap e)
        (renderer e) (state e) (intervalId e)) w in
  match WordMetrics.constructor dom (JSArray ws) (config w) with
  | inl error => (Some error, w)
  | inr metrics =>
      let '(sentences, sentenceWordMap) := _initializeSentences ws in
      let w :=
        W.set_engine (fun e =>
          mkEngine ws metrics sentences sentenceWordMap
            (renderer e) (state e) (intervalId e)) w in
      match RenderEngine.constructor dom metrics sentenceWordMap with
      | inl error => (Some error, w)
      | inr renderer =>
          let w :=
            W.set_engine (fun e =>
              mkEngine ws metrics sentences sentenceWordMap renderer
                (initial_state (mode (state e))) (intervalId e)) w in
          (None, render w)
      end
  end.

(** The page after [init] has built the engine [e] on [config] and
    rendered its state: no timer, no book and the view ['real']. *)
Definition boot (config : Config) (e : Engine) : World :=
  render
    {| config := config; engine := e; timers := [];
       next_timer := 1%positive;
       saveStateTimeout := None; currentBook := None;
       currentView := "real";
       sessionStorage := None; display := None |}.

End WordMarqueeEngine.

(** ** The events that drive the engine *)

Inductive Op :=
| Start | Stop | ToggleMode | TogglePlayPause
| SetSpeed (value : Z)
| NextPage | PrevPage
| Wheel (deltaY : Z)
| Fire (id : positive).      (* the timer [id] of the window fires *)

(** The timer [id] fires when it is live: a timeout leaves the live
    timers, and its callback runs. *)
Definition fire (id : positive) (w : World) : World :=
  match List.find (fun t => Pos.eqb (timer_id t) id) (timers w) with
  | None => w
  | Some t =>
      let w :=
        match timer_kind t with
        | SetTimeout => W.clear id w
        | SetInterval => w
        end in
      match timer_callback t with
      | AdvanceWordCb => WordMarqueeEngine._advanceWord w
      | AdvanceSentenceCb => WordMarqueeEngine._advanceSentence w
      | SaveStateCb => W.set_saveStateTimeout None (saveState w)
      end
  end.

Definition step (o : Op) (w : World) : World :=
  match o with
  | Start => WordMarqueeEngine.start w
  | Stop => WordMarqueeEngine.stop w
  | ToggleMode => WordMarqueeEngine.toggleMode w
  | TogglePlayPause => WordMarqueeEngine.togglePlayPause w
  | SetSpeed v => WordMarqueeEngine.setSpeed v w
  | NextPage => WordMarqueeEngine._nextPage w
  | PrevPage => WordMarqueeEngine._prevPage w
  | Wheel d => WordMarqueeEngine._handleWheel d w
  | Fire id => fire id w
  end.

Definition run (ops : list Op) (w : World) : World :=
  fold_left (fun w o => step o w) ops w.

(** The timers that advance the reading position. *)
Definition is_advance (t : Timer) : bool :=
  match timer_callback t with
  | AdvanceWordCb | AdvanceSentenceCb => true
  | SaveStateCb => false
  end.

Definition advances (w : World) : list Timer :=
  List.filter is_advance (timers w).

(** [o.k] for an object [o]; [None] is [undefined]. *)
Fixpoint field (k : string) (fields : list (string * json)) : option json :=
  match fields with
  | [] => None
  | (k', v) :: rest => if String.eqb k k' then Some v else field k rest
  end.

Definition get (k : string) (o : json) : option json :=
  match o with JObj fields => field k fields | _ => None end.

(** ** Restoration of a snapshot *)

(** [StateRestoration._restoreReadFastState()], on a snapshot whose
    [readfast] fields have the types that [saveState] writes; on any other
    snapshot with a [readfast] part the result is [None]. *)
Definition _restoreReadFastState (savedState : json) (w : World)
  : option World :=
  match get "readfast" savedState with
  | None | Some JNull => Some w                  (* [if (!readfastState) return] *)
  | Some readfastState =>
      match get "mode" readfastState, get "focusIndex" readfastState,
            get "sentenceIndex" readfastState, get "wpm" readfastState with
      | Some (JStr m), Some (JNum f), Some (JNum s), Some (JNum v) =>
          let w := W.set_state (W.set_mode m) w in
          let w := W.set_state (W.set_focusIndex f) w in
          (* [readfastState.sentenceIndex || 0] *)
          let w := W.set_state (W.set_sentenceIndex (if s =? 0 then 0 else s)) w in
          (* [if (readfastState.wpm) CONFIG.wpm = readfastState.wpm] *)
          let w := if v =? 0 then w else W.set_config (W.set_wpm v) w in
          Some (WordMarqueeEngine.render w)
      | _, _, _, _ => None
      end
  end.

(** ** Loading a book *)

(** [selectBook(book, ...)] is an [async] function, and it is modelled by
    its stages. An EPUB book is refused at once. The extraction of the
    text is awaited before anything of the reader is changed, so the
    world [w] is the one that the function finds when the extraction is
    fulfilled with the array [ws] of the words (a rejected extraction
    changes nothing of the reader). The engine then loads the words; an
    exception of [loadNewText] is caught and ends the function. After
    that the function is suspended at [await pdfViewer.loadPDF(...)],
    and the window handles other events until the PDF viewer settles.
    The PDF viewer itself, the book card, the loading overlay and the
    alerts are not modelled: the card and the overlay are taken to exist,
    and the engine and the viewer are those that [init] has made. *)
Inductive Selecting :=
| Returned (w : World)       (* [selectBook] has returned *)
| LoadingPDF (w : World).    (* suspended at [await pdfViewer.loadPDF] *)

(** [selectBook] up to [await pdfViewer.loadPDF(...)]. *)
Definition selectBook_begin (dom : Dom) (book : Book) (ws : list string)
    (w : World) : Selecting :=
  if String.eqb (type_ book) "epub" then Returned w
  else
    match WordMarqueeEngine.loadNewText dom ws w with
    | (Some _, w') => Returned w'
    | (None, w') => LoadingPDF w'
    end.

(** The rest of [selectBook]: when the promise of [loadPDF] is fulfilled
    ([loaded]) the book becomes the current one and the state is saved.
    [loadPDF] catches its own exceptions; as long as its promise is
    pending, and in the [catch] block if it were rejected, nothing of the
    reader is changed. *)
Definition selectBook_end (book : Book) (loaded : bool) (w : World)
  : World :=
  if loaded then saveState (W.set_currentBook (Some book) w) else w.

(** A run of [selectBook] in which the window handles the events [during]
    while the PDF viewer loads. *)
Definition selectBook_run (dom : Dom) (book : Book) (ws : list string)
    (during : list Op) (loaded : bool) (w : World) : World :=
  match selectBook_begin dom book ws w with
  | Returned w' => w'
  | LoadingPDF w' => selectBook_end book loaded (run during w')
  end.

(** The run in which the PDF viewer loads the book and no other event is
    handled meanwhile. *)
Definition selectBook (dom : Dom) (book : Book) (ws : list string)
    (w : World) : World :=
  selectBook_run dom book ws [] true w.

(** ** Documents used in the examples *)

(** A measure element whose accesses all throw: every width is the
    fallback of ten pixels a character. *)
Definition fallback_dom : Dom :=
  {| measure_el := Some (fun _ _ => None);
     display_area := true; main_container := true |}.

(** A measure element of a fixed width of ten pixels, whatever its text. *)
Definition fixed_width_dom : Dom :=
  {| measure_el := Some (fun _ _ => Some 10);
     display_area := true; main_container := true |}.

(** A measure element of a font of 5.6 pixels a character, whose widths
    are rounded to whole pixels as [offsetWidth] is. *)
Definition rounded_el (s : string) (bold : bool) : option Z :=
  Some ((56 * Z.of_nat (String.length s) + 5) / 10).

Definition rounded_dom : Dom :=
  {| measure_el := Some rounded_el;
     display_area := true; main_container := true |}.

(** A document without the measure element. *)
Definition no_measure_dom : Dom :=
  {| measure_el := None; display_area := true; main_container := true |}.

Definition engine_of (dom : Dom) (ws : list string) : option World :=
  match WordMarqueeEngine.constructor dom (Some CONFIG) (JSArray ws) with
  | inr e => Some (WordMarqueeEngine.boot CONFIG e)
  | inl _ => None
  end.

Definition no_engine : Engine :=
  let m := WordMetrics.mk [] CONFIG ∅ (fun _ _ => None) [] in
  mkEngine [] m [] [] (RenderEngine.mk m [])
    (WordMarqueeEngine.initial_state "word") None.

(** The page after [init] on the words [ws]. *)
Definition page_of (dom : Dom) (ws : list string) : World :=
  match engine_of dom ws with
  | Some w => w
  | None => WordMarqueeEngine.boot CONFIG no_engine
  end.

Definition two_sentences : list string := ["Hi."; "Yo."]%string.

Definition three_sentences : list string :=
  ["One"; "two."; "Three"; "four"; "five."; "Six"; "seven."]%string.

Definition a_book : Book :=
  {| filename := "book.pdf"; title := "Book"; type_ := "pdf" |}.

(** ** The rule of the specification for the centre character *)

(** The index of the centre character of a word of length [L], in the
    words of the specification: [0] if [L <= 2], else [floor(L/2)]. *)
Definition center_index_spec (L : nat) : nat :=
  if (L <=? 2)%nat then 0%nat else Nat.div L 2.

(** ** The measurements as a function of the measure element *)

(** The width that [_measureText] returns for a string: the width that
    the measure element reports, or the fallback of the [catch] branch. *)
Definition measured (el : string -> bool -> option Z) (s : string)
    (bold : bool) : Z :=
  match el s bold with
  | Some w => w
  | None => Z.of_nat (String.length s) * 10
  end.

(** The same for the argument [word[i]], where [undefined] has no
    fallback: [None] is the [TypeError]. *)
Definition measured_char (el : string -> bool -> option Z)
    (text : option string) (bold : bool) : option Z :=
  match el (WordMetrics.textContent text) bold with
  | Some w => Some w
  | None =>
      match text with
      | Some t => Some (Z.of_nat (String.length t) * 10)
      | None => None
      end
  end.

(** The sum that the loop of [getMiddleLetterOffset] computes: the widths
    of the [n] characters of [word] from index [i] on, each measured on
    its own. *)
Fixpoint chars_width (el : string -> bool -> option Z) (word : string)
    (n i : nat) : Z :=
  match n with
  | O => 0
  | S n' =>
      match WordMetrics.char_at word i with
      | Some c => measured el c false
      | None => 0
      end + chars_width el word n' (i + 1)
  end.

(** The measure element never reports a negative width. *)
Definition nonnegative (el : string -> bool -> option Z) : Prop :=
  forall s bold w, el s bold = Some w -> 0 <= w.

(** The widths that the layout pass gets for a word from the measure
    element: the bold centre character, the focus width (the part before
    the centre, the centre and the part after it, measured apart), and
    the offset of the centre (the characters before it measured one by
    one, and half of the centre). *)
Definition middle_width (el : string -> bool -> option Z) (word : string)
  : Z :=
  let c := center_index_spec (String.length word) in
  match measured_char el (WordMetrics.char_at word c) true with
  | Some m => m
  | None => 0
  end.

Definition focus_width (el : string -> bool -> option Z) (word : string)
  : Z :=
  let c := center_index_spec (String.length word) in
  measured el (JS.slice_to word c) false + middle_width el word
  + measured el (JS.slice_from word (c + 1)) false.

Definition middle_offset (el : string -> bool -> option Z) (word : string)
  : Q :=
  let c := center_index_spec (String.length word) in
  (inject_Z (chars_width el word c 0) + inject_Z (middle_width el word) / 2)%Q.

(** The distance from the centre of a word to the centre of the word
    that follows it in the layout. *)
Definition centre_gap (el : string -> bool -> option Z) (sp : Z)
    (word next : string) : Q :=
  (inject_Z (focus_width el word + sp) + middle_offset el next
   - middle_offset el word)%Q.

(** The centre of the word lies in the word: its offset is not larger
    than the focus width. *)
Definition centre_within (el : string -> bool -> option Z) (word : string)
  : Prop :=
  (middle_offset el word <= inject_Z (focus_width el word))%Q.

(** The requests that the layout pass makes: a bold measurement is the
    measurement of one character, or of [undefined]. *)
Definition valid_request (text : option string) (bold : bool) : Prop :=
  match text with
  | None => bold = true
  | Some s => bold = true -> String.length s = 1%nat
  end.

(** Every entry of the cache is the width that the element reports for
    the request of its key. *)
Definition cache_ok (el : string -> bool -> option Z)
    (cache : gmap string Z) : Prop :=
  forall text bold w,
    valid_request text bold ->
    cache !! WordMetrics.cacheKey text bold = Some w ->
    el (WordMetrics.textContent text) bold = Some w.

(** The positions [ps] are those of the words [ws] laid out from the
    offset [cum] on with the spacing [sp], by the widths of the measure
    element. *)
Fixpoint measured_out (el : string -> bool -> option Z) (sp cum : Z)
    (ws : list string) (ps : list WordPosition) : Prop :=
  match ws, ps with
  | [], [] => True
  | w :: ws', p :: ps' =>
      startPosition p = cum
      /\ width p = focus_width el w
      /\ centerPosition p = (inject_Z cum + middle_offset el w)%Q
      /\ measured_out el sp (cum + (focus_width el w + sp)) ws' ps'
  | _, _ => False
  end.

(** ** Counting the words of a text *)

(** The number of maximal runs of characters that are not whitespace;
    [in_word] tells that the previous character belongs to a run. It is
    the length of [s.split(/\s+/).filter(w => w.length > 0)]. *)
Fixpoint count_words (cs : list ascii) (in_word : bool) : nat :=
  match cs with
  | [] => 0
  | c :: cs' =>
      if JS.is_space c then count_words cs' false
      else ((if in_word then 0 else 1) + count_words cs' true)%nat
  end.

(** The words that the sentences count for themselves. *)
Definition total_words (sentences : list string) : Z :=
  fold_right (fun s n => Z.of_nat (length (JS.split_words s)) + n) 0 sentences.

(** A token of the reader: not empty and without whitespace, as
    [text.split(' ').filter(word => word.length > 0)] gives them on a
    cleaned text. *)
Definition is_token (w : string) : bool :=
  JS.nonempty w && forallb (fun c => negb (JS.is_space c)) (JS.chars w).

(** Some stop character of the text stands right before a quote that an
    upper-case letter follows: the one place where [detectSentences]
    closes a sentence in front of a character that is not whitespace. *)
Fixpoint stop_quote_upper (cs : list ascii) : bool :=
  match cs with
  | c :: (c' :: c'' :: _) as rest =>
      (SentenceDetector.is_stop c && SentenceDetector.is_quote c'
       && JS.is_upper c'')
      || stop_quote_upper rest
  | _ => false
  end.

(** ** Predicates of the proofs *)

(** The discipline of the advance timers: a live advance timer is the one
    that [intervalId] names, playback is on while it is live, a sentence
    advance is a timeout, and there is at most one. *)
Definition advance_ok (w : World) : Prop :=
  (forall t, In t (advances w) ->
     intervalId (engine w) = Some (timer_id t)
     /\ isPlaying (W.st w) = true
     /\ (timer_callback t = AdvanceSentenceCb -> timer_kind t = SetTimeout))
  /\ (length (advances w) <= 1)%nat.

(** The focus is an index of the document, every span of the sentence
    map starts at an index of the document, and the page size is
    positive. *)
Definition focus_ok (w : World) : Prop :=
  0 <= focusIndex (W.st w) < WordMetrics.getWordCount (metrics (engine w)).

Definition document_ok (w : World) : Prop :=
  focus_ok w
  /\ (forall sp, In sp (sentenceWordMap (engine w)) ->
        0 <= startWordIndex sp
           < WordMetrics.getWordCount (metrics (engine w)))
  /\ 0 < wordsPerPage (config w).



Ltac break_match :=
  repeat match goal with
         | |- context [match ?x with _ => _ end] => destruct x eqn:?
         | |- context [if ?x then _ else _] => destruct x eqn:?
         end.

(** Linear arithmetic over [Q] with halves. *)
Ltac half_lra :=
  unfold Qdiv in *; change (/ 2)%Q with (1 # 2)%Q in *; lra.

Ltac frame :=
  intros;
  unfold WordMarqueeEngine.render, saveState, saveStateDebounced,
    W.install, W.clear, W.st;
  break_match; reflexivity.

(** ** The text of a book *)

(** [s.replace(re, ' ')] for a global pattern [re] that matches the
    maximal runs of the characters of the class [p]; [in_run] tells that
    the previous character belongs to the run being replaced. *)
Fixpoint replace_runs (p : ascii -> bool) (cs : list ascii) (in_run : bool)
  : list ascii :=
  match cs with
  | [] => []
  | c :: cs' =>
      if p c then
        if in_run then replace_runs p cs' true
        else " "%char :: replace_runs p cs' true
      else c :: replace_runs p cs' false
  end.

Definition is_newline (c : ascii) : bool := Ascii.eqb c "010"%char.

(** [cleanText(text)] *)
Definition cleanText (text : string) : string :=
  JS.trim
    (JS.of_chars
       (replace_runs is_newline
          (replace_runs JS.is_space (JS.chars text) false) false)).

(** [s.split(' ')]: the pieces between the space characters; [cur] is the
    piece being read. *)
Fixpoint split_space_go (cs : list ascii) (cur : list ascii) : list string :=
  match cs with
  | [] => [JS.of_chars cur]
  | c :: cs' =>
      if Ascii.eqb c " "%char then JS.of_chars cur :: split_space_go cs' []
      else split_space_go cs' (cur ++ [c])
  end.

(** [text.split(' ').filter(word => word.length > 0)], the words that
    [selectBook] hands to the engine. *)
Definition book_words (text : string) : list string :=
  List.filter JS.nonempty (split_space_go (JS.chars text) []).

(** The characters of [words.join(' ')] read off a text: the words of
    the text, one space between two of them. [started] tells that a word
    has been read, [gap] that whitespace has been read since. *)
Fixpoint spaced (cs : list ascii) (started gap : bool) : list ascii :=
  match cs with
  | [] => []
  | c :: cs' =>
      if JS.is_space c then spaced cs' started true
      else if started && gap then " "%char :: c :: spaced cs' true false
      else c :: spaced cs' true false
  end.

(** The words of a text as lists of characters; [cur] is the word being
    read. *)
Fixpoint words_of (cs : list ascii) (cur : list ascii) : list (list ascii) :=
  match cs with
  | [] => match cur with [] => [] | _ => [cur] end
  | c :: cs' =>
      if JS.is_space c then
        match cur with
        | [] => words_of cs' []
        | _ => cur :: words_of cs' []
        end
      else words_of cs' (cur ++ [c])
  end.

Fixpoint join_chars (ws : list (list ascii)) : list ascii :=
  match ws with
  | [] => []
  | [w] => w
  | w :: rest => w ++ " "%char :: join_chars rest
  end.

(** A list of characters without its trailing whitespace. *)
Fixpoint strip_end (cs : list ascii) : list ascii :=
  match cs with
  | [] => []
  | c :: cs' =>
      match strip_end cs' with
      | [] => if JS.is_space c then [] else [c]
      | r => c :: r
      end
  end.

(** ** The shape of the sentences *)

(** The characters of a text that are not whitespace. *)
Definition nonspace (cs : list ascii) : list ascii :=
  List.filter (fun c => negb (JS.is_space c)) cs.

(** The last character of [s] is one of the stop characters. *)
Definition ends_with_stop (s : string) : bool :=
  match rev (JS.chars s) with
  | c :: _ => SentenceDetector.is_stop c
  | [] => false
  end.

(** The test [isAbbreviation] of [detectSentences] on the last word of
    [s]. *)
Definition last_word_is_abbreviation (s : string) : bool :=
  bool_decide
    (JS.strip_final_dot (List.last (JS.split_ws s) ""%string)
       ∈ SentenceDetector.abbreviations).

Definition sentence_chars (ss : list string) : list ascii :=
  nonspace (List.concat (List.map JS.chars ss)).

(** ** The smooth variant of the engine *)

(** The variant of the script with a smooth scrolling mode keeps a
    [scrollOffset] in pixels beside the focus index, and finds the word
    under the marker from the centres of the words. The offset is a
    rational, as every double is; the centres are integers or half
    integers, and on pixel quantities below 2^52 the script compares two
    distances as their exact values compare. *)
Module Smooth.

(** [Math.abs(scrollOffset - p.centerPosition)] *)
Definition distance (scrollOffset : Q) (p : WordPosition) : Q :=
  Qabs (scrollOffset - centerPosition p).

(** The [for] loop of [findClosestWordIndex], from the index [i] on: it
    stops at the first word that is not closer than the closest so far. *)
Fixpoint closest_loop (scrollOffset : Q) (ps : list WordPosition) (i : Z)
    (minDistance : Q) (closestIndex : Z) : Z :=
  match ps with
  | [] => closestIndex
  | p :: rest =>
      let distance := distance scrollOffset p in
      if Qlt_le_dec distance minDistance
      then closest_loop scrollOffset rest (i + 1) distance i
      else closestIndex
  end.

(** [findClosestWordIndex(scrollOffset, metrics)], which is also the
    method [_findClosestWordIndex(scrollOffset)] of the engine; reading
    [wordPositions[0].centerPosition] of an empty array throws. *)
Definition findClosestWordIndex (scrollOffset : Q) (m : WordMetrics.t)
  : exn + Z :=
  match WordMetrics.wordPositions m with
  | [] => inl TypeError
  | p0 :: rest => inr (closest_loop scrollOffset rest 1
                         (distance scrollOffset p0) 0)
  end.

(** [getLastWordCenter()] *)
Definition getLastWordCenter (m : WordMetrics.t) : Q :=
  let wordPositions := WordMetrics.wordPositions m in
  if (length wordPositions =? 0)%nat then 0
  else
    match wordPositions !! (length wordPositions - 1)%nat with
    | Some p => centerPosition p
    | None => 0
    end.

(** The fields of [this.state] that tell the reading position. *)
Record Position := mkPosition {
  mode : string;
  scrollOffset : Q;
  focusIndex : Z
}.

(** The [for] loop of [toggleMode()] from smooth to word mode: the focus
    moves on while the centre of the word is not past the offset. *)
Fixpoint toggle_loop (scrollOffset : Q) (ps : list WordPosition) (i : Z)
    (focusIndex : Z) : Z :=
  match ps with
  | [] => focusIndex
  | wordData :: rest =>
      if Qle_bool (centerPosition wordData) scrollOffset
      then toggle_loop scrollOffset rest (i + 1) i
      else focusIndex
  end.

(** The reading position after [toggleMode()]; stopping and restarting
    the playback, rendering and saving do not change these fields. *)
Definition toggleMode (m : WordMetrics.t) (s : Position) : Position :=
  if String.eqb (mode s) "smooth" then
    {| mode := "word";
       scrollOffset := scrollOffset s;
       focusIndex :=
         toggle_loop (scrollOffset s) (WordMetrics.wordPositions m) 0
           (focusIndex s) |}
  else
    {| mode := "smooth";
       scrollOffset :=
         match WordMetrics.getWordPositionData m (focusIndex s) with
         | Some wordData => centerPosition wordData
         | None => scrollOffset s
         end;
       focusIndex := focusIndex s |}.

End Smooth.

(** The centres of the words increase strictly along the text. *)
Fixpoint increasing_centers (ps : list WordPosition) : Prop :=
  match ps with
  | p :: (q :: _) as rest =>
      (centerPosition p < centerPosition q)%Q /\ increasing_centers rest
  | _ => True
  end.

(** The metrics of three words measured with the fallback widths. *)
Definition three_words : WordMetrics.t :=
  match WordMetrics.constructor fallback_dom
          (JSArray ["cat"; "it"; "reading"]%string) CONFIG with
  | inr m => m
  | inl _ => WordMetrics.mk [] CONFIG ∅ (fun _ _ => None) []
  end.

Ltac qabs :=
  repeat match goal with
         | |- context [Qabs ?x] =>
             let H := fresh in
             let a := fresh "a" in
             destruct (Qlt_le_dec x 0) as [H|H];
             [ pose proof (Qabs_neg x (Qlt_le_weak _ _ H))
             | pose proof (Qabs_pos x H) ];
             set (a := Qabs x) in *; clearbody a
         | H0 : context [Qabs ?x] |- _ =>
             let H := fresh in
             let a := fresh "a" in
             destruct (Qlt_le_dec x 0) as [H|H];
             [ pose proof (Qabs_neg x (Qlt_le_weak _ _ H))
             | pose proof (Qabs_pos x H) ];
             set (a := Qabs x) in *; clearbody a
         end;
  lra.

(** ** The pages of the reader *)

(** [updatePageInfo(currentWordIndex)] of the renderer: the numbers [X]
    and [Y] of the text [Page X of Y], for a page size that is not zero.
    [Math.ceil(a / b)] is the opposite of the floor of [-a / b]. *)
Definition updatePageInfo (r : RenderEngine.t) (config : Config)
    (currentWordIndex : Z) : Z * Z :=
  let totalWords := WordMetrics.getWordCount (RenderEngine.metrics r) in
  let wordsPerPage := wordsPerPage config in
  let currentPage := currentWordIndex / wordsPerPage + 1 in
  let totalPages := - (- totalWords / wordsPerPage) in
  (currentPage, totalPages).

(** The page numbers that the renderer writes for the state of [w]. *)
Definition page_info (w : World) : Z * Z :=
  updatePageInfo (renderer (engine w)) (config w) (focusIndex (W.st w)).

(** The page on three words with a page size of one word. *)
Definition one_word_pages : World :=
  let cfg := {| wpm := 250; wordSpacing := 8; wordsPerPage := 1 |} in
  match WordMarqueeEngine.constructor fallback_dom (Some cfg)
          (JSArray ["cat"; "it"; "reading"]%string) with
  | inr e => WordMarqueeEngine.boot cfg e
  | inl _ => WordMarqueeEngine.boot cfg no_engine
  end.

(** ** Invariants of the window *)

(** A property of the page that the primitive updates of the script
    preserve: the assignments to the state, to the configuration and to
    [intervalId], a render, a save, clearing a timer, scheduling an
    advance, and a debounced save. *)
Record Preserved (P : World -> Prop) : Prop := {
  pres_state : forall f w, P w -> P (W.set_state f w);
  pres_config : forall f w, P w -> P (W.set_config f w);
  pres_intervalId : forall o w, P w -> P (W.set_intervalId o w);
  pres_render : forall w, P w -> P (WordMarqueeEngine.render w);
  pres_saveState : forall w, P w -> P (saveState w);
  pres_clear : forall id w, P w -> P (W.clear id w);
  pres_install : forall k cb d w,
    cb <> SaveStateCb -> P w -> P (snd (W.install k cb d w));
  pres_debounced : forall d w, P w -> P (saveStateDebounced d w)
}.

(** The renderer holds an empty sentence map, and the display area does
    not show a sentence. *)
Definition renderer_blind (w : World) : Prop :=
  RenderEngine.sentenceWordMap (renderer (engine w)) = []
  /\ forall k, display w <> Some (ShowSentence k).

(** The timers that save the state. *)
Definition is_save (t : Timer) : bool :=
  match timer_callback t with
  | SaveStateCb => true
  | AdvanceWordCb | AdvanceSentenceCb => false
  end.

Definition saves (w : World) : list Timer := List.filter is_save (timers w).

(** The discipline of the timers of the window: the ids of the live
    timers are distinct and older than the next id; a live save timer is
    the timeout that [saveStateTimeout] names; and [saveStateTimeout]
    names an id that is older than the next one and is not the id of an
    advance timer. *)
Definition timers_ok (w : World) : Prop :=
  NoDup (List.map timer_id (timers w))
  /\ (forall t, In t (timers w) -> (timer_id t < next_timer w)%positive)
  /\ (forall t, In t (saves w) ->
        saveStateTimeout w = Some (timer_id t) /\ timer_kind t = SetTimeout)
  /\ (forall id, saveStateTimeout w = Some id ->
        (id < next_timer w)%positive
        /\ forall t, In t (advances w) -> timer_id t <> id).

(** The timer that [intervalId] names fires. *)
Definition tick (w : World) : World :=
  match intervalId (engine w) with
  | Some id => fire id w
  | None => w
  end.

(** Word playback is running on the interval [id] over the metrics
    [m]. *)
Definition playing_words (m : WordMetrics.t) (id : positive) (w : World)
  : Prop :=
  timers_ok w /\ advance_ok w
  /\ isPlaying (W.st w) = true
  /\ String.eqb (mode (W.st w)) "sentence" = false
  /\ intervalId (engine w) = Some id
  /\ metrics (engine w) = m
  /\ exists t, In t (timers w) /\ timer_id t = id
               /\ timer_callback t = AdvanceWordCb
               /\ timer_kind t = SetInterval.

(** ** Opening a book *)

(** A run of [selectBook(book, ...)] from the text that the server or
    the PDF gives: the extraction cleans the text, [selectBook] splits it
    at the spaces, and the words are loaded. *)
Definition selectBook_text (dom : Dom) (book : Book) (text : string)
    (during : list Op) (loaded : bool) (w : World) : World :=
  selectBook_run dom book (book_words (cleanText text)) during loaded w.

(** The world [y] holds the document of the world [x]: the words, the
    metrics, the sentence map and the renderer. *)
Definition same_document (x y : World) : Prop :=
  words (engine y) = words (engine x)
  /\ metrics (engine y) = metrics (engine x)
  /\ sentenceWordMap (engine y) = sentenceWordMap (engine x)
  /\ renderer (engine y) = renderer (engine x).

(** ** The cache and the layout *)

(** The outcome of a computation on the cache does not depend on the
    cache, as long as the cache agrees with the measure element, and the
    computation keeps the cache so. *)
Definition cache_independent {A} (el : string -> bool -> option Z)
    (c : WordMetrics.M A) : Prop :=
  forall c1 c2, cache_ok el c1 -> cache_ok el c2 ->
    fst (c c1) = fst (c c2) /\ cache_ok el (snd (c c1)).

(** The records [ps] describe the words [ws] from the index [idx] and the
    offset [cum] on, with the spacing [sp]. *)
Fixpoint described (sp idx cum : Z) (ws : list string)
    (ps : list WordPosition) : Prop :=
  match ws, ps with
  | [], [] => True
  | w :: ws', p :: ps' =>
      word p = w /\ index p = idx /\ startPosition p = cum
      /\ centerPosition p = (inject_Z cum + middleLetterOffset p)%Q
      /\ described sp (idx + 1) (cum + (width p + sp)) ws' ps'
  | _, _ => False
  end.

(** A measure element that gives seven pixels to a character. *)
Definition seven_pixels : string -> bool -> option Z :=
  fun s _ => Some (Z.of_nat (String.length s) * 7).

(** ** The colours *)

(** The value of a character of the class [[a-f\d]] under the flag [i]:
    a decimal digit or one of the letters a to f in either case. *)
Definition hex_digit (c : ascii) : option Z :=
  let n := N_of_ascii c in
  if ((48 <=? n) && (n <=? 57))%N then Some (Z.of_N n - 48)
  else if ((97 <=? n) && (n <=? 102))%N then Some (Z.of_N n - 87)
  else if ((65 <=? n) && (n <=? 70))%N then Some (Z.of_N n - 55)
  else None.

(** [parseInt(group, 16)] for a group of two such characters. *)
Definition hex_pair (hi lo : ascii) : option Z :=
  match hex_digit hi, hex_digit lo with
  | Some h, Some l => Some (16 * h + l)
  | _, _ => None
  end.

Record Rgb := mkRgb { red : Q; green : Q; blue : Q }.

(** The regular expression
    [/^#?([a-f\d]{2})([a-f\d]{2})([a-f\d]{2})$/i] of [hexToRgb]: the
    optional [#] is dropped, and the rest has to be three groups. *)
Definition strip_hash (cs : list ascii) : list ascii :=
  match cs with
  | c :: rest => if Ascii.eqb c "#"%char then rest else cs
  | [] => []
  end.

(** The three channels divided by 255, or black when there is no
    match. A channel is the exact quotient, of which the script holds the
    nearest double. *)
Definition channels (digits : list ascii) : Rgb :=
  match digits with
  | [r1; r2; g1; g2; b1; b2] =>
      match hex_pair r1 r2, hex_pair g1 g2, hex_pair b1 b2 with
      | Some r, Some g, Some b =>
          mkRgb (inject_Z r / 255) (inject_Z g / 255) (inject_Z b / 255)
      | _, _, _ => mkRgb 0 0 0
      end
  | _ => mkRgb 0 0 0
  end.

(** [hexToRgb(hex)] *)
Definition hexToRgb (hex : string) : Rgb :=
  channels (strip_hash (JS.chars hex)).

(** The characters of [s] with the letters a to z in upper case. *)
Definition upper_char (c : ascii) : ascii :=
  let n := N_of_ascii c in
  if ((97 <=? n) && (n <=? 122))%N then ascii_of_N (n - 32) else c.

(** ** The words that the renderer shows *)

(** An entry [{word, index, x}] of the focus line, and an entry
    [{word, index}] of another line. *)
Record LineWord := mkLineWord {
  lw_word : string;
  lw_index : Z;
  lw_x : Q
}.

Record RowWord := mkRowWord {
  rw_word : string;
  rw_index : Z
}.

(** [{pastOnLine, futureOnLine, pastLines, futureLines}] *)
Record VisibleWords := mkVisible {
  pastOnLine : list LineWord;
  futureOnLine : list LineWord;
  pastLines : list (list RowWord);
  futureLines : list (list RowWord)
}.

Module Window.

Section Methods.

(** The fields of the renderer that the methods read: its metrics, the
    width of the container less its padding, and the numbers of lines of
    the configuration, which is the configuration of the metrics. *)
Variable metrics : WordMetrics.t.
Variable containerWidth : Z.
Variable linesAbove linesBelow : Z.

#[local] Notation "x <- c ;; k" := (WordMetrics.bind c (fun x => k))
  (at level 100, c at next level, right associativity).

Definition getWordWidth (word : string) : WordMetrics.M Z :=
  WordMetrics.getWordWidth (WordMetrics.measureElement metrics) word false.

Definition spacing : Z := wordSpacing (WordMetrics.config metrics).

(** The loop of [_getPastWordsOnFocusLine], from the index [i] down;
    [fuel] bounds the iterations and is [focusIndex] at the call. *)
Fixpoint past_on_line (fuel : nat) (i : Z) (globalOffset : Q)
    (words : list LineWord) : list LineWord :=
  match fuel with
  | O => words
  | S fuel' =>
      if i <? 0 then words
      else
        match WordMetrics.getWordPositionData metrics i with
        | None => words
        | Some wordData =>
            let x := (globalOffset + inject_Z (startPosition wordData))%Q in
            let width := width wordData in
            if Qlt_le_dec (x + inject_Z width) 0 then words
            else
              past_on_line fuel' (i - 1) globalOffset
                (mkLineWord (word wordData) i x :: words)
        end
  end.

Definition _getPastWordsOnFocusLine (focusIndex : Z) (globalOffset : Q)
  : list LineWord :=
  past_on_line (Z.to_nat focusIndex) (focusIndex - 1) globalOffset [].

(** The loop of [_getFutureWordsOnFocusLine], from the index [i] up. *)
Fixpoint future_on_line (fuel : nat) (i : Z) (globalOffset : Q)
    (words : list LineWord) : list LineWord :=
  match fuel with
  | O => words
  | S fuel' =>
      if WordMetrics.getWordCount metrics <=? i then words
      else
        match WordMetrics.getWordPositionData metrics i with
        | None => words
        | Some wordData =>
            let x := (globalOffset + inject_Z (startPosition wordData))%Q in
            if Qlt_le_dec (inject_Z containerWidth) x then words
            else
              future_on_line fuel' (i + 1) globalOffset
                (words ++ [mkLineWord (word wordData) i x])
        end
  end.

Definition _getFutureWordsOnFocusLine (focusIndex : Z) (globalOffset : Q)
  : list LineWord :=
  future_on_line
    (Z.to_nat (WordMetrics.getWordCount metrics - (focusIndex + 1)))
    (focusIndex + 1) globalOffset [].

(** The loop of [_calculatePastLines]: the lines closed so far, the line
    being filled and its width. *)
Fixpoint past_lines_loop (fuel : nat) (i : Z) (pastLines : list (list RowWord))
    (currentLineWords : list RowWord) (lineWidth : Z)
  : WordMetrics.M (list (list RowWord) * list RowWord) :=
  match fuel with
  | O => WordMetrics.ret (pastLines, currentLineWords)
  | S fuel' =>
      if i <? 0 then WordMetrics.ret (pastLines, currentLineWords)
      else
        match WordMetrics.getWordPositionData metrics i with
        | None => WordMetrics.ret (pastLines, currentLineWords)
        | Some wordData =>
            let word := word wordData in
            w <- getWordWidth word ;;
            let width := w + spacing in
            if (containerWidth - spacing <? lineWidth + width)
               && (0 <? length currentLineWords)%nat
            then
              let pastLines := currentLineWords :: pastLines in
              if linesAbove <=? Z.of_nat (length pastLines)
              then WordMetrics.ret (pastLines, [])
              else
                past_lines_loop fuel' (i - 1) pastLines
                  [mkRowWord word i] (0 + width)
            else
              past_lines_loop fuel' (i - 1) pastLines
                (mkRowWord word i :: currentLineWords) (lineWidth + width)
        end
  end.

(** [_calculatePastLines(startIndex)] *)
Definition _calculatePastLines (startIndex : Z)
  : WordMetrics.M (list (list RowWord)) :=
  r <- past_lines_loop (Z.to_nat (startIndex + 1)) startIndex [] [] 0 ;;
  let '(pastLines, currentLineWords) := r in
  WordMetrics.ret
    (if (0 <? length currentLineWords)%nat
        && (Z.of_nat (length pastLines) <? linesAbove)
     then currentLineWords :: pastLines
     else pastLines).

(** The loop of [_calculateFutureLines]. *)
Fixpoint future_lines_loop (fuel : nat) (i : Z)
    (futureLines : list (list RowWord))
    (currentLineWords : list RowWord) (lineWidth : Z)
  : WordMetrics.M (list (list RowWord) * list RowWord) :=
  match fuel with
  | O => WordMetrics.ret (futureLines, currentLineWords)
  | S fuel' =>
      if WordMetrics.getWordCount metrics <=? i
      then WordMetrics.ret (futureLines, currentLineWords)
      else
        match WordMetrics.getWordPositionData metrics i with
        | None => WordMetrics.ret (futureLines, currentLineWords)
        | Some wordData =>
            let word := word wordData in
            w <- getWordWidth word ;;
            let width := w + spacing in
            if (containerWidth - spacing <? lineWidth + width)
               && (0 <? length currentLineWords)%nat
            then
              let futureLines := futureLines ++ [currentLineWords] in
              if linesBelow <=? Z.of_nat (length futureLines)
              then WordMetrics.ret (futureLines, [])
              else
                future_lines_loop fuel' (i + 1) futureLines
                  [mkRowWord word i] (0 + width)
            else
              future_lines_loop fuel' (i + 1) futureLines
                (currentLineWords ++ [mkRowWord word i]) (lineWidth + width)
        end
  end.

(** [_calculateFutureLines(startIndex)] *)
Definition _calculateFutureLines (startIndex : Z)
  : WordMetrics.M (list (list RowWord)) :=
  r <- future_lines_loop
         (Z.to_nat (WordMetrics.getWordCount metrics - startIndex))
         startIndex [] [] 0 ;;
  let '(futureLines, currentLineWords) := r in
  WordMetrics.ret
    (if (0 <? length currentLineWords)%nat
        && (Z.of_nat (length futureLines) <? linesBelow)
     then futureLines ++ [currentLineWords]
     else futureLines).

(** [_getVisibleWords(focusIndex, globalOffset)] *)
Definition _getVisibleWords (focusIndex : Z) (globalOffset : Q)
  : WordMetrics.M VisibleWords :=
  let pastOnLine := _getPastWordsOnFocusLine focusIndex globalOffset in
  let futureOnLine := _getFutureWordsOnFocusLine focusIndex globalOffset in
  pastLines <- _calculatePastLines
                 (focusIndex - Z.of_nat (length pastOnLine) - 1) ;;
  futureLines <- _calculateFutureLines
                   (focusIndex + Z.of_nat (length futureOnLine) + 1) ;;
  WordMetrics.ret (mkVisible pastOnLine futureOnLine pastLines futureLines).

End Methods.

End Window.

(** The integers of [l] follow one another from [a] on. *)
Fixpoint consecutive (a : Z) (l : list Z) : Prop :=
  match l with
  | [] => True
  | x :: l' => x = a /\ consecutive (a + 1) l'
  end.

(** The indices of the words of a window, from the first past line to the
    last future line, with the focus between the two parts of its line. *)
Definition window_indices (focusIndex : Z) (v : VisibleWords) : list Z :=
  List.map rw_index (List.concat (pastLines v))
  ++ List.map lw_index (pastOnLine v)
  ++ [focusIndex]
  ++ List.map lw_index (futureOnLine v)
  ++ List.map rw_index (List.concat (futureLines v)).

(** The entry of a line other than the focus line names a word of the
    document by its index. *)
Definition row_ok (m : WordMetrics.t) (rw : RowWord) : Prop :=
  exists wordData,
    WordMetrics.getWordPositionData m (rw_index rw) = Some wordData
    /\ rw_word rw = word wordData.

(** The entry of the focus line names a word of the document by its
    index and places it at its start position moved by the offset. *)
Definition line_ok (m : WordMetrics.t) (globalOffset : Q) (lw : LineWord)
  : Prop :=
  exists wordData,
    WordMetrics.getWordPositionData m (lw_index lw) = Some wordData
    /\ lw_word lw = word wordData
    /\ lw_x lw = (globalOffset + inject_Z (startPosition wordData))%Q.

(** Nine words of five characters. *)
Definition nine_words : WordMetrics.t :=
  match WordMetrics.constructor fallback_dom
          (JSArray ["alpha"; "bravo"; "delta"; "gamma"; "kappa"; "sigma";
                    "theta"; "omega"; "zetas"]%string) CONFIG with
  | inr m => m
  | inl _ => WordMetrics.mk [] CONFIG ∅ (fun _ _ => None) []
  end.

(* ===================================================================== *)
(** * Part II: properties                                                *)
(* ===================================================================== *)

(** ** Strings and their characters *)

Lemma chars_app s1 s2 :
  list_ascii_of_string (s1 +:+ s2)
  = list_ascii_of_string s1 ++ list_ascii_of_string s2.
Proof.
  induction s1 as [|c s1 IH]; [reflexivity|].
  change (c :: list_ascii_of_string (s1 +:+ s2)
          = c :: (list_ascii_of_string s1 ++ list_ascii_of_string s2)).
  now rewrite IH.
Qed.

Lemma chars_inj s1 s2 :
  list_ascii_of_string s1 = list_ascii_of_string s2 -> s1 = s2.
Proof.
  intros H. rewrite <- (string_of_list_ascii_of_string s1),
    <- (string_of_list_ascii_of_string s2). now rewrite H.
Qed.

Lemma chars_length s : length (list_ascii_of_string s) = String.length s.
Proof. induction s; cbn; [reflexivity | now f_equal]. Qed.

Lemma chars_of_chars cs : JS.chars (JS.of_chars cs) = cs.
Proof. apply list_ascii_of_string_of_list_ascii. Qed.

Lemma chars_snoc cur c :
  JS.chars (cur +:+ String c "") = JS.chars cur ++ [c].
Proof. unfold JS.chars. now rewrite chars_app. Qed.

Lemma get_chars s : forall i : nat, String.get i s = JS.chars s !! i.
Proof.
  induction s as [|c s IH]; intros i; [now destruct i|].
  destruct i; cbn; [reflexivity | apply IH].
Qed.

Lemma of_chars_nonempty cs :
  JS.nonempty (JS.of_chars cs) = match cs with [] => false | _ => true end.
Proof. destruct cs; reflexivity. Qed.

Lemma split_at_center (w : string) (c : nat) :
  (c < String.length w)%nat ->
  exists ch, JS.at_ w c = Some ch
    /\ w = (JS.slice_to w c +:+ String ch (JS.slice_from w (c + 1)))%string.
Proof.
  unfold JS.at_, JS.slice_to, JS.slice_from.
  revert c. induction w as [|a w IH]; intros c Hc; simpl in Hc; [lia|].
  destruct c as [|c].
  - exists a. split; [reflexivity|]. simpl.
    rewrite Nat.sub_0_r.
    assert (Hfull : forall s, substring 0 (String.length s) s = s).
    { induction s as [|x s IHs]; simpl; [reflexivity | now rewrite IHs]. }
    now rewrite Hfull.
  - destruct (IH c) as (ch & Hget & Heq); [lia|].
    exists ch. split; [exact Hget|].
    simpl. rewrite Heq at 1. reflexivity.
Qed.

(** ** The centre character *)

Section CenterCharacter.

Variable el : string -> bool -> option Z.

#[local] Notation "x <- c ;; k" := (WordMetrics.bind c (fun x => k))
  (at level 100, c at next level, right associativity).

(** C2: for a word of length [L] the three places that split a word
    (the focus width, the centre offset and the focus element) use the
    index [0] if [L <= 2] and [floor(L/2)] otherwise; it is [1] for "cat"
    and [0] for "it". *)
Theorem center_index_everywhere (word : string) :
  let c := center_index_spec (String.length word) in
  WordMetrics.getWordWidth el word true
    = (b <- WordMetrics._measureText el (Some (JS.slice_to word c)) false ;;
       m <- WordMetrics._measureText el (WordMetrics.char_at word c) true ;;
       a <- WordMetrics._measureText el
              (Some (JS.slice_from word (c + 1))) false ;;
       WordMetrics.ret (b + m + a))
  /\ WordMetrics.getMiddleLetterOffset el word
    = (offset <- WordMetrics.offset_loop el word c 0 0 ;;
       middleWidth <- WordMetrics._measureText el
                        (WordMetrics.char_at word c) true ;;
       WordMetrics.ret (inject_Z offset + inject_Z middleWidth / 2)%Q)
  /\ RenderEngine._createWordElement word true
    = FocusWord (JS.slice_to word c) (WordMetrics.char_at word c)
        (JS.slice_from word (c + 1))
  /\ center_index_spec (String.length "cat") = 1%nat
  /\ center_index_spec (String.length "it") = 0%nat
  /\ RenderEngine._createWordElement "cat" true
    = FocusWord "c" (Some "a"%string) "t"
  /\ RenderEngine._createWordElement "it" true
    = FocusWord "" (Some "i"%string) "t".
Proof.
  cbv zeta. repeat split; reflexivity.
Qed.

End CenterCharacter.

(** The centre index of a word that is not empty is an index of the word,
    and the three parts of the split make the word again. *)
Lemma center_index_in_range (L : nat) :
  (0 < L)%nat -> (center_index_spec L < L)%nat.
Proof.
  intros HL. unfold center_index_spec.
  destruct (L <=? 2)%nat eqn:E; [exact HL|].
  apply Nat.leb_gt in E. apply Nat.div_lt; lia.
Qed.

Lemma center_index_le L : (center_index_spec L <= L)%nat.
Proof.
  unfold center_index_spec. destruct (L <=? 2)%nat; [lia|].
  apply Nat.Div0.div_le_upper_bound. lia.
Qed.

(** ** The measurement cache *)

(** The keys of two requests of the layout pass differ. *)
Lemma cacheKey_inj t b t' b' :
  valid_request t b -> valid_request t' b' ->
  WordMetrics.cacheKey t b = WordMetrics.cacheKey t' b' ->
  t = t' /\ b = b'.
Proof.
  intros Hv Hv' Hk. unfold WordMetrics.cacheKey in Hk.
  apply (f_equal list_ascii_of_string) in Hk.
  rewrite !chars_app in Hk.
  assert (Hb : b = b').
  { apply (f_equal (@rev ascii)) in Hk. rewrite !rev_app_distr in Hk.
    destruct b, b'; try reflexivity; cbn in Hk; discriminate. }
  subst b'. split; [|reflexivity].
  apply app_inv_tail in Hk. apply chars_inj in Hk.
  destruct t as [s|], t' as [s'|]; cbn in Hk, Hv, Hv'.
  - now subst.
  - subst b. specialize (Hv eq_refl). subst s. discriminate.
  - subst b. specialize (Hv' eq_refl). subst s'. discriminate.
  - reflexivity.
Qed.

Lemma cache_ok_empty el : cache_ok el ∅.
Proof. intros t b w _ H. now rewrite lookup_empty in H. Qed.

(** [_measureText] on a request of the layout pass returns the width of
    the request, and keeps the cache faithful. *)
Lemma measureText_spec el t b (cache : gmap string Z) :
  cache_ok el cache -> valid_request t b ->
  fst (WordMetrics._measureText el t b cache)
    = match measured_char el t b with
      | Some v => inr v
      | None => inl TypeError
      end
  /\ cache_ok el (snd (WordMetrics._measureText el t b cache)).
Proof.
  intros Hok Hv. unfold WordMetrics._measureText, measured_char.
  destruct (cache !! WordMetrics.cacheKey t b) as [w|] eqn:Hc.
  - cbn. rewrite (Hok t b w Hv Hc). split; [reflexivity | exact Hok].
  - destruct (el (WordMetrics.textContent t) b) as [w|] eqn:Hel; cbn.
    + split; [reflexivity|].
      intros t' b' w' Hv' Hl.
      destruct (decide (WordMetrics.cacheKey t b = WordMetrics.cacheKey t' b'))
        as [Heq|Hne].
      * rewrite Heq, lookup_insert_eq in Hl. injection Hl as <-.
        destruct (cacheKey_inj t b t' b' Hv Hv' Heq) as [<- <-]. exact Hel.
      * rewrite lookup_insert_ne in Hl by exact Hne. now apply Hok.
    + destruct t; cbn; split; try reflexivity; exact Hok.
Qed.

Lemma measured_char_Some el s b :
  measured_char el (Some s) b = Some (measured el s b).
Proof. unfold measured_char, measured. cbn. now destruct (el s b). Qed.

Lemma measured_nonneg el s b : nonnegative el -> 0 <= measured el s b.
Proof.
  intros Hnn. unfold measured. destruct (el s b) eqn:E; [|lia].
  eapply Hnn, E.
Qed.

Lemma measured_char_nonneg el t b v :
  nonnegative el -> measured_char el t b = Some v -> 0 <= v.
Proof.
  intros Hnn. unfold measured_char.
  destruct (el (WordMetrics.textContent t) b) eqn:E.
  - intros H; injection H as <-. eapply Hnn, E.
  - destruct t; [|discriminate]. intros H; injection H as <-. lia.
Qed.

Lemma char_at_valid w (i : nat) b :
  (i < String.length w)%nat \/ b = true ->
  valid_request (WordMetrics.char_at w i) b.
Proof.
  unfold WordMetrics.char_at, JS.at_, valid_request.
  destruct (String.get i w) eqn:E; [reflexivity|].
  intros [Hlt | Hb]; [|exact Hb].
  exfalso. revert i E Hlt.
  induction w as [|a w IH]; intros i E Hlt; cbn in *; [lia|].
  destruct i; [discriminate|]. apply (IH i E). lia.
Qed.

Lemma bind_inr {A B} (c : WordMetrics.M A) (k : A -> WordMetrics.M B)
    cache v cache' :
  WordMetrics.bind c k cache = (inr v, cache') ->
  exists a cache1, c cache = (inr a, cache1) /\ k a cache1 = (inr v, cache').
Proof.
  unfold WordMetrics.bind. destruct (c cache) as [[e|a] cache1]; [easy|].
  intros H. now exists a, cache1.
Qed.

Lemma measureText_inr el t b cache v cache' :
  cache_ok el cache -> valid_request t b ->
  WordMetrics._measureText el t b cache = (inr v, cache') ->
  measured_char el t b = Some v /\ cache_ok el cache'.
Proof.
  intros Hok Hv H. destruct (measureText_spec el t b cache Hok Hv) as [H1 H2].
  rewrite H in H1, H2. cbn in H1, H2. split; [|exact H2].
  destruct (measured_char el t b); [now injection H1 as -> | discriminate].
Qed.

Lemma char_at_Some w (i : nat) :
  (i < String.length w)%nat -> exists c, WordMetrics.char_at w i = Some c.
Proof.
  intros H. destruct (split_at_center w i H) as (ch & Hget & _).
  unfold WordMetrics.char_at. rewrite Hget. eauto.
Qed.

Lemma string_valid s : valid_request (Some s) false.
Proof. cbn. discriminate. Qed.

Lemma getWordWidth_inr el word cache v cache' :
  cache_ok el cache ->
  WordMetrics.getWordWidth el word true cache = (inr v, cache') ->
  let c := center_index_spec (String.length word) in
  cache_ok el cache'
  /\ exists m,
       measured_char el (WordMetrics.char_at word c) true = Some m
       /\ v = measured el (JS.slice_to word c) false + m
              + measured el (JS.slice_from word (c + 1)) false.
Proof.
  intros Hok H c. unfold WordMetrics.getWordWidth in H. cbn [negb] in H.
  fold (center_index_spec (String.length word)) in H. fold c in H.
  apply bind_inr in H. destruct H as (b & c1 & Hb & H).
  apply bind_inr in H. destruct H as (m & c2 & Hm & H).
  apply bind_inr in H. destruct H as (a & c3 & Ha & H).
  apply measureText_inr in Hb; [|exact Hok | apply string_valid].
  destruct Hb as [Hb Hok1].
  apply measureText_inr in Hm; [|exact Hok1 | apply char_at_valid; now right].
  destruct Hm as [Hm Hok2].
  apply measureText_inr in Ha; [|exact Hok2 | apply string_valid].
  destruct Ha as [Ha Hok3].
  rewrite measured_char_Some in Hb, Ha.
  injection Hb as <-. injection Ha as <-.
  unfold WordMetrics.ret in H. injection H as <- <-.
  split; [exact Hok3 | exists m; split; [exact Hm | reflexivity]].
Qed.

Lemma offset_loop_inr el word : forall n i acc cache v cache',
  cache_ok el cache -> (i + n <= String.length word)%nat ->
  WordMetrics.offset_loop el word n i acc cache = (inr v, cache') ->
  cache_ok el cache' /\ v = acc + chars_width el word n i.
Proof.
  induction n as [|n IH]; intros i acc cache v cache' Hok Hlen H; cbn in H.
  - unfold WordMetrics.ret in H. injection H as <- <-. cbn. split; [easy|lia].
  - apply bind_inr in H. destruct H as (w & c1 & Hw & H).
    apply measureText_inr in Hw;
      [|exact Hok | apply char_at_valid; left; lia].
    destruct Hw as [Hw Hok1].
    apply IH in H; [|exact Hok1 | lia]. destruct H as [Hok2 ->].
    split; [exact Hok2|]. cbn [chars_width].
    destruct (char_at_Some word i) as [ch Hch]; [lia|].
    rewrite Hch in Hw |- *. rewrite measured_char_Some in Hw.
    injection Hw as <-. lia.
Qed.

Lemma getMiddleLetterOffset_inr el word cache q cache' :
  cache_ok el cache ->
  WordMetrics.getMiddleLetterOffset el word cache = (inr q, cache') ->
  let c := center_index_spec (String.length word) in
  cache_ok el cache'
  /\ exists m,
       measured_char el (WordMetrics.char_at word c) true = Some m
       /\ q = (inject_Z (chars_width el word c 0) + inject_Z m / 2)%Q.
Proof.
  intros Hok H c. unfold WordMetrics.getMiddleLetterOffset in H.
  fold (center_index_spec (String.length word)) in H. fold c in H.
  apply bind_inr in H. destruct H as (o & c1 & Ho & H).
  apply bind_inr in H. destruct H as (m & c2 & Hm & H).
  apply offset_loop_inr in Ho;
    [|exact Hok | pose proof (center_index_le (String.length word)); lia].
  destruct Ho as [Hok1 ->].
  apply measureText_inr in Hm; [|exact Hok1 | apply char_at_valid; now right].
  destruct Hm as [Hm Hok2].
  unfold WordMetrics.ret in H. injection H as <- <-.
  split; [exact Hok2 | exists m; split; [exact Hm | now rewrite Z.add_0_l]].
Qed.

Lemma chars_width_nonneg el word : nonnegative el ->
  forall n i, 0 <= chars_width el word n i.
Proof.
  intros Hnn. induction n as [|n IH]; intros i; cbn; [lia|].
  specialize (IH (i + 1)%nat).
  destruct (WordMetrics.char_at word i);
    [pose proof (measured_nonneg el s false Hnn) | ]; lia.
Qed.

(** ** The layout pass *)

Lemma positions_loop_measured el cfg : forall ws idx cum acc cache ps cache',
  cache_ok el cache ->
  WordMetrics.positions_loop el cfg ws idx cum acc cache = (inr ps, cache') ->
  exists new, ps = acc ++ new
    /\ measured_out el (wordSpacing cfg) cum ws new.
Proof.
  induction ws as [|w ws IH];
    intros idx cum acc cache ps cache' Hok H; cbn in H.
  - unfold WordMetrics.ret in H. injection H as <- <-.
    exists []. now rewrite app_nil_r.
  - apply bind_inr in H. destruct H as (v & c1 & Hv & H).
    apply bind_inr in H. destruct H as (q & c2 & Hq & H).
    apply getWordWidth_inr in Hv; [|exact Hok].
    destruct Hv as (Hok1 & m & Hm & ->).
    apply getMiddleLetterOffset_inr in Hq; [|exact Hok1].
    destruct Hq as (Hok2 & m' & Hm' & ->).
    rewrite Hm in Hm'. injection Hm' as <-.
    assert (Hmw : middle_width el w = m)
      by (unfold middle_width; cbv zeta; now rewrite Hm).
    apply IH in H; [|exact Hok2].
    destruct H as (new & -> & Hout).
    eexists (_ :: new). split; [now rewrite <- app_assoc|].
    cbn [measured_out startPosition width centerPosition].
    unfold focus_width, middle_offset. cbv zeta. rewrite Hmw.
    repeat split. exact Hout.
Qed.

Lemma measured_out_length el sp : forall ws ps cum,
  measured_out el sp cum ws ps -> length ps = length ws.
Proof.
  induction ws as [|w ws IH]; intros [|p ps] cum H; try easy.
  cbn in H. destruct H as (_ & _ & _ & H). cbn. f_equal. eapply IH, H.
Qed.

(** Two positions that follow one another are those of two words that
    follow one another, and the second starts where the first started
    plus its width and the spacing. *)
Lemma measured_out_adjacent el sp : forall ws ps cum (i : nat) p q,
  measured_out el sp cum ws ps ->
  ps !! i = Some p -> ps !! S i = Some q ->
  exists w w',
    ws !! i = Some w /\ ws !! S i = Some w'
    /\ startPosition q = startPosition p + (focus_width el w + sp)
    /\ centerPosition p
       = (inject_Z (startPosition p) + middle_offset el w)%Q
    /\ centerPosition q
       = (inject_Z (startPosition q) + middle_offset el w')%Q.
Proof.
  induction ws as [|w ws IH]; intros [|x ps] cum i p q H Hp Hq; try easy.
  cbn in H. destruct H as (Hs & Hw & Hc & Hrest).
  destruct i as [|i]; cbn in Hp, Hq.
  - injection Hp as <-. destruct ps as [|y ps]; [easy|].
    cbn in Hq. injection Hq as <-.
    destruct ws as [|w' ws]; [easy|].
    cbn in Hrest. destruct Hrest as (Hs' & _ & Hc' & _).
    exists w, w'. rewrite Hs, Hs', Hc, Hc'. now repeat split.
  - exact (IH ps _ i p q Hrest Hp Hq).
Qed.

(** ** The constructors succeed on words that are not empty *)

Lemma bind_ok {A B} (c : WordMetrics.M A) (k : A -> WordMetrics.M B)
    cache a cache1 :
  c cache = (inr a, cache1) -> WordMetrics.bind c k cache = k a cache1.
Proof. intros H. unfold WordMetrics.bind. now rewrite H. Qed.

Lemma measureText_total el s b cache :
  exists v cache',
    WordMetrics._measureText el (Some s) b cache = (inr v, cache').
Proof.
  unfold WordMetrics._measureText.
  destruct (cache !! _); [eauto|].
  destruct (el _ b); eauto.
Qed.

Lemma getWordWidth_total el w cache :
  w <> ""%string ->
  exists v cache', WordMetrics.getWordWidth el w true cache = (inr v, cache').
Proof.
  intros Hw. unfold WordMetrics.getWordWidth. cbn [negb].
  fold (center_index_spec (String.length w)).
  destruct (char_at_Some w (center_index_spec (String.length w)))
    as [ch Hch].
  { apply center_index_in_range. destruct w; [easy | cbn; lia]. }
  rewrite Hch.
  destruct (measureText_total el (JS.slice_to w
              (center_index_spec (String.length w))) false cache)
    as (b & c1 & Hb).
  rewrite (bind_ok _ _ _ _ _ Hb).
  destruct (measureText_total el ch true c1) as (m & c2 & Hm).
  rewrite (bind_ok _ _ _ _ _ Hm).
  destruct (measureText_total el (JS.slice_from w
              (center_index_spec (String.length w) + 1)) false c2)
    as (a & c3 & Ha).
  rewrite (bind_ok _ _ _ _ _ Ha). unfold WordMetrics.ret. eauto.
Qed.

Lemma offset_loop_total el w : forall n i acc cache,
  (i + n <= String.length w)%nat ->
  exists v cache', WordMetrics.offset_loop el w n i acc cache = (inr v, cache').
Proof.
  induction n as [|n IH]; intros i acc cache Hlen; cbn.
  - unfold WordMetrics.ret. eauto.
  - destruct (char_at_Some w i) as [ch Hch]; [lia|]. rewrite Hch.
    destruct (measureText_total el ch false cache) as (v & c1 & Hv).
    rewrite (bind_ok _ _ _ _ _ Hv). apply IH. lia.
Qed.

Lemma getMiddleLetterOffset_total el w cache :
  w <> ""%string ->
  exists q cache',
    WordMetrics.getMiddleLetterOffset el w cache = (inr q, cache').
Proof.
  intros Hw. unfold WordMetrics.getMiddleLetterOffset.
  fold (center_index_spec (String.length w)).
  destruct (offset_loop_total el w (center_index_spec (String.length w))
              0 0 cache) as (o & c1 & Ho).
  { pose proof (center_index_le (String.length w)). lia. }
  rewrite (bind_ok _ _ _ _ _ Ho).
  destruct (char_at_Some w (center_index_spec (String.length w)))
    as [ch Hch].
  { apply center_index_in_range. destruct w; [easy | cbn; lia]. }
  rewrite Hch.
  destruct (measureText_total el ch true c1) as (m & c2 & Hm).
  rewrite (bind_ok _ _ _ _ _ Hm). unfold WordMetrics.ret. eauto.
Qed.

Lemma positions_loop_total el cfg : forall ws,
  Forall (fun w => w <> ""%string) ws ->
  forall idx cum acc cache,
  exists ps cache',
    WordMetrics.positions_loop el cfg ws idx cum acc cache = (inr ps, cache').
Proof.
  induction ws as [|w ws IH]; intros Hall idx cum acc cache; cbn.
  - unfold WordMetrics.ret. eauto.
  - inversion Hall as [|? ? Hw Hall']; subst.
    destruct (getWordWidth_total el w cache Hw) as (v & c1 & Hv).
    rewrite (bind_ok _ _ _ _ _ Hv).
    destruct (getMiddleLetterOffset_total el w c1 Hw) as (q & c2 & Hq).
    rewrite (bind_ok _ _ _ _ _ Hq). now apply IH.
Qed.

Lemma positions_loop_length el cfg : forall ws idx cum acc cache ps cache',
  WordMetrics.positions_loop el cfg ws idx cum acc cache = (inr ps, cache') ->
  length ps = (length acc + length ws)%nat.
Proof.
  induction ws as [|w ws IH]; intros idx cum acc cache ps cache' H; cbn in H.
  - unfold WordMetrics.ret in H. injection H as <- <-. cbn. lia.
  - apply bind_inr in H. destruct H as (v & c1 & _ & H).
    apply bind_inr in H. destruct H as (q & c2 & _ & H).
    apply IH in H. rewrite H, length_app. cbn. lia.
Qed.

(** C3 (amended): the two constructors throw on a [words] argument that
    is no array or is the empty array, whatever the document; on a
    non-empty array of non-empty strings [new WordMetrics] succeeds when
    the measure element exists, and [new WordMarqueeEngine] succeeds when
    moreover a configuration is given and the display area and the main
    container exist. *)
Theorem constructors_on_words (dom : Dom) (config : Config)
    (ws : list string) (el : string -> bool -> option Z) :
  ws <> [] ->
  Forall (fun w => w <> ""%string) ws ->
  measure_el dom = Some el ->
  display_area dom = true ->
  main_container dom = true ->
  (forall bad d c, bad = NotArray \/ bad = JSArray [] ->
     WordMetrics.constructor d bad c
       = inl (Error "WordMetrics: words must be a non-empty array")
     /\ WordMarqueeEngine.constructor d (Some c) bad
        = inl (Error "WordMarqueeEngine: words must be a non-empty array")
     /\ exists e, WordMarqueeEngine.constructor d None bad = inl e)
  /\ (exists m,
        WordMetrics.constructor dom (JSArray ws) config = inr m
        /\ WordMetrics.words m = ws
        /\ length (WordMetrics.wordPositions m) = length ws)
  /\ (exists e,
        WordMarqueeEngine.constructor dom (Some config) (JSArray ws) = inr e
        /\ words e = ws
        /\ state e = WordMarqueeEngine.initial_state "word"
        /\ intervalId e = None).
Proof.
  intros Hne Hall Hel Hda Hmc.
  destruct (positions_loop_total el config ws Hall 0 0 [] ∅)
    as (ps & cache & Hps).
  assert (Hm : WordMetrics.constructor dom (JSArray ws) config
               = inr (WordMetrics.mk ws config cache el ps)).
  { unfold WordMetrics.constructor. destruct ws as [|w ws']; [easy|].
    rewrite Hel. unfold WordMetrics._calculateWordPositions. now rewrite Hps. }
  split; [|split].
  - intros bad d c [-> | ->]; cbn; eauto.
  - eexists. split; [exact Hm|]. split; [reflexivity|]. cbn.
    now rewrite (positions_loop_length _ _ _ _ _ _ _ _ _ Hps).
  - unfold WordMarqueeEngine.constructor. rewrite Hm.
    destruct ws as [|w ws']; [easy|].
    unfold RenderEngine.constructor. rewrite Hda, Hmc. cbn [negb].
    destruct (_initializeSentences (w :: ws')) as [ss map] eqn:Hs.
    eexists. split; [reflexivity|]. cbn. auto.
Qed.

(** The constructors may throw on a non-empty array: here the document has
    no measure element. *)
Lemma constructors_need_the_document :
  WordMetrics.constructor no_measure_dom (JSArray ["a"%string]) CONFIG
    = inl (Error "WordMetrics: measure element not found")
  /\ WordMarqueeEngine.constructor no_measure_dom (Some CONFIG)
       (JSArray ["a"%string])
     = inl (InitializationFailed
              (Error "WordMetrics: measure element not found")).
Proof. split; reflexivity. Qed.

Lemma constructors_on_words_witness :
  (exists m,
     WordMetrics.constructor fallback_dom (JSArray two_sentences) CONFIG
       = inr m
     /\ WordMetrics.words m = two_sentences
     /\ length (WordMetrics.wordPositions m) = length two_sentences)
  /\ (exists e,
        WordMarqueeEngine.constructor fallback_dom (Some CONFIG)
          (JSArray two_sentences) = inr e
        /\ words e = two_sentences
        /\ state e = WordMarqueeEngine.initial_state "word"
        /\ intervalId e = None).
Proof.
  apply (constructors_on_words fallback_dom CONFIG two_sentences
           (fun _ _ => None)).
  - discriminate.
  - repeat constructor; discriminate.
  - reflexivity.
  - reflexivity.
  - reflexivity.
Defined.

(** ** Monotone positions *)

(** C1 (amended): the layout pass builds the positions of a non-empty
    sequence of non-empty words, and each word starts where the previous
    one started plus its width and the spacing. The [centerPosition]
    increases strictly from every word to the next exactly when the gap
    between the two centres is positive for every two consecutive words,
    that is when the centre offset of a word is less than its width plus
    the spacing plus the centre offset of the next word. This holds, and
    [startPosition] is non-decreasing, when the measure element reports no
    negative width, the word spacing is positive and the centre of every
    word lies in the word. *)
Theorem positions_increase (dom : Dom) (config : Config) (ws : list string)
    (el : string -> bool -> option Z) :
  measure_el dom = Some el ->
  (ws <> [] -> Forall (fun w => w <> ""%string) ws ->
   exists m, WordMetrics.constructor dom (JSArray ws) config = inr m)
  /\ (forall m,
        WordMetrics.constructor dom (JSArray ws) config = inr m ->
        let ps := WordMetrics.wordPositions m in
        let sp := wordSpacing config in
        (forall (i : nat) p q,
           ps !! i = Some p -> ps !! S i = Some q ->
           exists w w',
             ws !! i = Some w /\ ws !! S i = Some w'
             /\ startPosition q = startPosition p + (focus_width el w + sp)
             /\ (centerPosition q - centerPosition p
                 == centre_gap el sp w w')%Q)
        /\ ((forall (i : nat) p q,
               ps !! i = Some p -> ps !! S i = Some q ->
               (centerPosition p < centerPosition q)%Q)
            <-> (forall (i : nat) w w',
                   ws !! i = Some w -> ws !! S i = Some w' ->
                   (0 < centre_gap el sp w w')%Q))
        /\ (nonnegative el -> 0 <= sp ->
            forall (i : nat) p q,
              ps !! i = Some p -> ps !! S i = Some q ->
              startPosition p <= startPosition q)
        /\ (nonnegative el -> 0 < sp -> Forall (centre_within el) ws ->
            forall (i : nat) p q,
              ps !! i = Some p -> ps !! S i = Some q ->
              (centerPosition p < centerPosition q)%Q)).
Proof.
  intros Hel. split.
  - intros Hne Hall.
    destruct (positions_loop_total el config ws Hall 0 0 [] ∅)
      as (ps & cache & Hps).
    unfold WordMetrics.constructor. destruct ws as [|w ws']; [easy|].
    rewrite Hel. unfold WordMetrics._calculateWordPositions. rewrite Hps.
    eauto.
  - intros m Hm ps sp.
    assert (Hout : measured_out el sp 0 ws ps).
    { unfold WordMetrics.constructor in Hm. destruct ws as [|w ws']; [easy|].
      rewrite Hel in Hm. unfold WordMetrics._calculateWordPositions in Hm.
      destruct (WordMetrics.positions_loop el config (w :: ws') 0 0 [] ∅)
        as [[e|ps'] cache] eqn:Hps; [easy|].
      injection Hm as <-. unfold ps. cbn [WordMetrics.wordPositions].
      destruct (positions_loop_measured el config (w :: ws') 0 0 [] ∅ ps'
                  cache (cache_ok_empty el) Hps) as (new & -> & Hnew).
      exact Hnew. }
    assert (Hadj : forall (i : nat) p q,
      ps !! i = Some p -> ps !! S i = Some q ->
      exists w w',
        ws !! i = Some w /\ ws !! S i = Some w'
        /\ startPosition q = startPosition p + (focus_width el w + sp)
        /\ (centerPosition q - centerPosition p == centre_gap el sp w w')%Q).
    { intros i p q Hp Hq.
      destruct (measured_out_adjacent el sp ws ps 0 i p q Hout Hp Hq)
        as (w & w' & Hw & Hw' & Hs & Hcp & Hcq).
      exists w, w'. repeat split; try assumption.
      rewrite Hcp, Hcq, Hs. unfold centre_gap. rewrite !inject_Z_plus. ring. }
    pose proof (measured_out_length el sp ws ps 0 Hout) as Hlen.
    split; [exact Hadj|]. split; [|split].
    + split.
      * intros Hinc i w w' Hw Hw'.
        destruct (lookup_lt_is_Some_2 ps i) as [p Hp];
          [rewrite Hlen; apply lookup_lt_Some in Hw; lia|].
        destruct (lookup_lt_is_Some_2 ps (S i)) as [q Hq];
          [rewrite Hlen; apply lookup_lt_Some in Hw'; lia|].
        destruct (Hadj i p q Hp Hq) as (v & v' & Hv & Hv' & _ & Hgap).
        rewrite Hw in Hv. rewrite Hw' in Hv'.
        injection Hv as <-. injection Hv' as <-.
        rewrite <- Hgap. specialize (Hinc i p q Hp Hq). lra.
      * intros Hgap i p q Hp Hq.
        destruct (Hadj i p q Hp Hq) as (w & w' & Hw & Hw' & _ & Heq).
        specialize (Hgap i w w' Hw Hw'). rewrite <- Heq in Hgap. lra.
    + intros Hnn Hsp i p q Hp Hq.
      destruct (Hadj i p q Hp Hq) as (w & w' & _ & _ & Hs & _).
      assert (0 <= focus_width el w); [|lia].
      unfold focus_width, middle_width. cbv zeta.
      pose proof (measured_nonneg el
        (JS.slice_to w (center_index_spec (String.length w))) false Hnn).
      pose proof (measured_nonneg el
        (JS.slice_from w (center_index_spec (String.length w) + 1)) false Hnn).
      destruct (measured_char el _ true) as [mm|] eqn:Hmm;
        [pose proof (measured_char_nonneg el _ _ _ Hnn Hmm)|]; lia.
    + intros Hnn Hsp Hall i p q Hp Hq.
      destruct (Hadj i p q Hp Hq) as (w & w' & Hw & Hw' & _ & Heq).
      assert (Hin : centre_within el w).
      { rewrite Forall_forall in Hall. apply Hall.
        eapply list_elem_of_lookup_2, Hw. }
      assert (H0 : (0 <= middle_offset el w')%Q).
      { unfold middle_offset, middle_width. cbv zeta.
        pose proof (chars_width_nonneg el w' Hnn
                      (center_index_spec (String.length w')) 0) as H1.
        assert (H2 : 0 <= match measured_char el
                            (WordMetrics.char_at w'
                               (center_index_spec (String.length w'))) true
                          with Some mm => mm | None => 0 end).
        { destruct (measured_char el _ true) as [mm|] eqn:Hmm;
            [exact (measured_char_nonneg el _ _ _ Hnn Hmm) | lia]. }
        rewrite Zle_Qle in H1, H2. change (inject_Z 0) with 0%Q in H1, H2.
        half_lra. }
      unfold centre_within in Hin. unfold centre_gap in Heq.
      rewrite inject_Z_plus in Heq.
      assert (Hq' : (0 < inject_Z sp)%Q)
        by (change 0%Q with (inject_Z 0); now rewrite <- Zlt_Qlt).
      lra.
Qed.

(** With a measure element of a fixed width the centres are not
    increasing: the centre of the first of these two words is at 45 and
    the centre of the second at 43. *)
Lemma centers_can_decrease :
  exists m p q,
    WordMetrics.constructor fixed_width_dom
      (JSArray ["abcdefgh"; "x"]%string) CONFIG = inr m
    /\ WordMetrics.wordPositions m !! 0%nat = Some p
    /\ WordMetrics.wordPositions m !! 1%nat = Some q
    /\ (centerPosition p == 45)%Q
    /\ (centerPosition q == 43)%Q
    /\ (centerPosition q < centerPosition p)%Q.
Proof.
  eexists _, _, _. split; [vm_compute; reflexivity|].
  split; [vm_compute; reflexivity|].
  split; [vm_compute; reflexivity|].
  repeat split; vm_compute; reflexivity.
Qed.

Lemma positions_increase_witness :
  let ws := ["abcdefgh"; "x"; "reading"; "it"]%string in
  nonnegative rounded_el
  /\ Forall (centre_within rounded_el) ws
  /\ exists m,
       WordMetrics.constructor rounded_dom (JSArray ws) CONFIG = inr m
       /\ List.map startPosition (WordMetrics.wordPositions m)
          = [0; 53; 67; 115]
       /\ (forall (i : nat) p q,
             WordMetrics.wordPositions m !! i = Some p ->
             WordMetrics.wordPositions m !! S i = Some q ->
             startPosition p <= startPosition q
             /\ (centerPosition p < centerPosition q)%Q).
Proof.
  intros ws.
  assert (Hnn : nonnegative rounded_el).
  { intros s b w H. unfold rounded_el in H. injection H as <-.
    apply Z.div_pos; lia. }
  assert (Hin : Forall (centre_within rounded_el) ws)
    by (repeat constructor; vm_compute; discriminate).
  split; [exact Hnn|]. split; [exact Hin|].
  destruct (positions_increase rounded_dom CONFIG ws rounded_el eq_refl)
    as [Hex Hall].
  destruct Hex as [m Hm];
    [discriminate | repeat constructor; discriminate |].
  exists m. split; [exact Hm|].
  destruct (Hall m Hm) as (_ & _ & Hstart & Hcentre).
  split.
  - clear Hall Hstart Hcentre. vm_compute in Hm. injection Hm as <-.
    reflexivity.
  - intros i p q Hp Hq. split.
    + apply (Hstart Hnn ltac:(cbn; lia) i p q Hp Hq).
    + apply (Hcentre Hnn ltac:(cbn; lia) Hin i p q Hp Hq).
Defined.

(** ** The sentence segmenter *)

(** C6: the text "Dr. Smith arrived. He left." is split into the two
    sentences "Dr. Smith arrived." and "He left."; the full stop after
    "Dr" closes no sentence, the one after "arrived" and the last one do. *)
Theorem detect_dr_smith :
  let text := "Dr. Smith arrived. He left."%string in
  SentenceDetector.detectSentences text
    = ["Dr. Smith arrived."; "He left."]%string
  /\ SentenceDetector.boundary text 2 "Dr." = false
  /\ SentenceDetector.boundary text 17 "Dr. Smith arrived." = true
  /\ SentenceDetector.boundary text 26 " He left." = true.
Proof.
  cbv zeta. repeat split; vm_compute; reflexivity.
Qed.

(** The loop of [detectSentences] ends by itself once the index has
    reached the length of the text: more fuel changes nothing. *)
Lemma detect_loop_fuel text : forall fuel extra i cur sents,
  (String.length text <= i + fuel)%nat ->
  SentenceDetector.detect_loop (fuel + extra) text i cur sents
  = SentenceDetector.detect_loop fuel text i cur sents.
Proof.
  induction fuel as [|fuel IH]; intros extra i cur sents Hlen.
  - cbn [Nat.add]. destruct extra as [|extra]; [reflexivity|].
    cbn. unfold JS.at_. rewrite get_chars.
    rewrite (proj2 (lookup_ge_None _ _)); [reflexivity|].
    unfold JS.chars. rewrite chars_length. lia.
  - cbn. destruct (JS.at_ text i) as [c|]; [|reflexivity].
    destruct (_ && _); apply IH; lia.
Qed.

(** ** The sentence map *)

(** The spans follow one another: each starts at the running counter, and
    the counter never decreases. *)
Lemma map_sentences_start_ge ss : forall idx wi sp,
  In sp (map_sentences ss idx wi) -> wi <= startWordIndex sp.
Proof.
  induction ss as [|s ss IH]; intros idx wi sp Hin; simpl in Hin; [easy|].
  destruct Hin as [<- | Hin]; simpl; [lia|].
  apply IH in Hin. lia.
Qed.

Lemma map_sentences_contiguous ss : forall idx wi (k : nat) sp sp',
  map_sentences ss idx wi !! k = Some sp ->
  map_sentences ss idx wi !! S k = Some sp' ->
  startWordIndex sp' = endWordIndex sp + 1.
Proof.
  induction ss as [|s ss IH]; intros idx wi k sp sp' H1 H2; [easy|].
  destruct k as [|k]; simpl in H1, H2.
  - destruct ss as [|s' ss]; [easy|]. simpl in H2.
    inversion H1; inversion H2; subst; simpl. lia.
  - eapply IH; eassumption.
Qed.

Lemma map_sentences_first ss sp :
  map_sentences ss 0 0 !! 0%nat = Some sp -> startWordIndex sp = 0.
Proof.
  destruct ss; simpl; [easy|]. intros H; inversion H; reflexivity.
Qed.

Lemma map_sentences_span_size ss : forall idx wi sp,
  In sp (map_sentences ss idx wi) ->
  endWordIndex sp - startWordIndex sp + 1
    = Z.of_nat (length (JS.split_words (text_of sp))).
Proof.
  induction ss as [|s ss IH]; intros idx wi sp Hin; simpl in Hin; [easy|].
  destruct Hin as [<- | Hin]; simpl; [lia|]. eapply IH; eassumption.
Qed.

(** The loop of [toggleMode] stops at the span that contains the focus:
    no earlier span of the map contains it. *)
Lemma toggle_loop_finds ss : forall idx wi i (k : nat) sp f s,
  map_sentences ss idx wi !! k = Some sp ->
  startWordIndex sp <= f <= endWordIndex sp ->
  WordMarqueeEngine.toggle_loop (map_sentences ss idx wi) i f s
    = W.set_focusIndex (startWordIndex sp)
        (W.set_sentenceIndex (i + Z.of_nat k) s).
Proof.
  induction ss as [|x ss IH]; intros idx wi i k sp f s Hk Hf; [easy|].
  destruct k as [|k]; simpl in Hk |- *.
  - inversion Hk; subst; simpl in *.
    replace (wi <=? f) with true by (symmetry; apply Z.leb_le; lia).
    replace (f <=? _) with true by (symmetry; apply Z.leb_le; lia).
    simpl. now rewrite Z.add_0_r.
  - assert (Hge : wi + Z.of_nat (length (JS.split_words x))
                  <= startWordIndex sp).
    { eapply map_sentences_start_ge, list_elem_of_In, list_elem_of_lookup_2.
      exact Hk. }
    replace (f <=? _) with false by (symmetry; apply Z.leb_gt; lia).
    rewrite andb_false_r.
    rewrite (IH _ _ (i + 1) k sp f s Hk Hf). do 2 f_equal. lia.
Qed.

(** ** Words of the sentences and words of the document *)

Lemma split_go_count cs : forall cur in_run,
  (in_run = true -> cur = []) ->
  length (List.filter JS.nonempty (JS.split_go cs cur in_run))
  = match cur with
    | [] => count_words cs false
    | _ => S (count_words cs true)
    end.
Proof.
  induction cs as [|c cs IH]; intros cur in_run Hrun;
    cbn [JS.split_go List.filter count_words].
  - rewrite of_chars_nonempty. now destruct cur.
  - destruct (JS.is_space c) eqn:Hc.
    + destruct in_run.
      * rewrite (Hrun eq_refl). now rewrite IH.
      * cbn [List.filter]. rewrite of_chars_nonempty.
        destruct cur; cbn [length]; now rewrite IH.
    + rewrite IH by discriminate.
      destruct cur; reflexivity.
Qed.

Lemma split_words_count s :
  length (JS.split_words s) = count_words (JS.chars s) false.
Proof.
  unfold JS.split_words, JS.split_ws. now rewrite split_go_count.
Qed.

(** A run that starts with whitespace, or is empty, counts the same
    whatever precedes it. *)
Lemma count_words_fresh cs :
  match cs with [] => True | c :: _ => JS.is_space c = true end ->
  count_words cs true = count_words cs false.
Proof. destruct cs as [|c cs]; cbn; [reflexivity|]. now intros ->. Qed.

Lemma count_words_app a : forall b w,
  match b with [] => True | c :: _ => JS.is_space c = true end ->
  count_words (a ++ b) w = (count_words a w + count_words b false)%nat.
Proof.
  induction a as [|x a IH]; intros b w Hb; cbn.
  - destruct w; [now apply count_words_fresh | reflexivity].
  - destruct (JS.is_space x); rewrite IH by exact Hb; lia.
Qed.

Lemma count_words_drop_spaces cs :
  count_words (JS.drop_spaces cs) false = count_words cs false.
Proof.
  induction cs as [|c cs IH]; cbn; [reflexivity|].
  destruct (JS.is_space c) eqn:E; [exact IH|]. cbn. now rewrite E.
Qed.

Lemma count_words_snoc_space a c : forall w,
  JS.is_space c = true -> count_words (a ++ [c]) w = count_words a w.
Proof.
  intros w Hc. rewrite count_words_app by exact Hc. cbn. rewrite Hc. lia.
Qed.

Lemma count_words_drop_trailing cs : forall w,
  count_words (rev (JS.drop_spaces (rev cs))) w = count_words cs w.
Proof.
  intros w. rewrite <- (rev_involutive cs) at 2.
  induction (rev cs) as [|c r IH]; cbn; [reflexivity|].
  destruct (JS.is_space c) eqn:E; [|reflexivity].
  rewrite IH. now rewrite count_words_snoc_space.
Qed.

(** Trimming removes no word. *)
Lemma count_words_trim s :
  count_words (JS.chars (JS.trim s)) false = count_words (JS.chars s) false.
Proof.
  unfold JS.trim. rewrite chars_of_chars, count_words_drop_trailing.
  apply count_words_drop_spaces.
Qed.

Lemma trim_empty_count s :
  String.length (JS.trim s) = 0%nat -> count_words (JS.chars s) false = 0%nat.
Proof.
  intros H. rewrite <- count_words_trim.
  destruct (JS.trim s); [reflexivity | discriminate].
Qed.

Lemma stop_quote_upper_at T : stop_quote_upper T = false ->
  forall (i : nat) c c' c'',
    T !! i = Some c -> T !! S i = Some c' -> T !! S (S i) = Some c'' ->
    SentenceDetector.is_stop c = true ->
    SentenceDetector.is_quote c' = true ->
    JS.is_upper c'' = false.
Proof.
  induction T as [|x T IH]; intros H i c c' c'' Hc Hc' Hc'' Hstop Hq; [easy|].
  destruct T as [|y T]; [now destruct i|].
  destruct T as [|z T]; [now destruct i as [|[|i]]|].
  cbn [stop_quote_upper] in H. apply orb_false_elim in H.
  destruct H as [Hxyz Hrest].
  destruct i as [|i]; cbn in Hc, Hc', Hc''.
  - injection Hc as ->. injection Hc' as ->. injection Hc'' as ->.
    rewrite Hstop, Hq in Hxyz. exact Hxyz.
  - exact (IH Hrest i c c' c'' Hc Hc' Hc'' Hstop Hq).
Qed.

(** Without a stop character before a quote and an upper-case letter, a
    sentence is closed only in front of whitespace or at the end of the
    text. *)
Lemma boundary_next text (i : nat) c cur :
  stop_quote_upper (JS.chars text) = false ->
  JS.chars text !! i = Some c ->
  SentenceDetector.is_stop c = true ->
  SentenceDetector.boundary text i cur = true ->
  match drop (S i) (JS.chars text) with
  | [] => True
  | c' :: _ => JS.is_space c' = true
  end.
Proof.
  intros HQ Hc Hstop Hb. unfold SentenceDetector.boundary in Hb.
  destruct (negb _); [|discriminate].
  unfold JS.at_ in Hb. rewrite !get_chars in Hb.
  replace (i + 1)%nat with (S i) in Hb by lia.
  replace (i + 2)%nat with (S (S i)) in Hb by lia.
  destruct (JS.chars text !! S i) as [c'|] eqn:Hn.
  - rewrite (drop_S _ _ _ Hn).
    apply andb_prop in Hb. destruct Hb as [H1 H2].
    destruct (JS.is_space c') eqn:Hsp; [reflexivity|].
    cbn [orb] in H1.
    cbn [SentenceDetector.is_undefined] in H2. rewrite orb_false_r in H2.
    apply orb_prop in H2. destruct H2 as [H2|H2].
    + destruct (JS.chars text !! S (S i)) as [c''|] eqn:Hn2; [|discriminate].
      pose proof (stop_quote_upper_at _ HQ i c c' c'' Hc Hn Hn2 Hstop H1).
      congruence.
    + apply Nat.eqb_eq in H2. apply lookup_lt_Some in Hn.
      rewrite chars_length in Hn. lia.
  - apply lookup_ge_None in Hn. now rewrite drop_ge.
Qed.

Lemma total_words_app a b :
  total_words (a ++ b) = total_words a + total_words b.
Proof.
  unfold total_words.
  induction a as [|x a IH]; cbn; [reflexivity | rewrite IH; lia].
Qed.

Lemma total_words_nonneg a : 0 <= total_words a.
Proof. unfold total_words. induction a as [|x a IH]; cbn; lia. Qed.

(** The loop of [detectSentences] keeps the words of the text: those of
    the closed sentences, of the open one and of the rest of the text. *)
Lemma detect_loop_words text :
  stop_quote_upper (JS.chars text) = false ->
  forall fuel i cur sents sents' cur',
    (length (JS.chars text) <= i + fuel)%nat ->
    SentenceDetector.detect_loop fuel text i cur sents = (sents', cur') ->
    total_words sents' + Z.of_nat (count_words (JS.chars cur') false)
    = total_words sents
      + Z.of_nat (count_words (JS.chars cur ++ drop i (JS.chars text)) false).
Proof.
  intros HQ. induction fuel as [|fuel IH];
    intros i cur sents sents' cur' Hlen H; cbn in H.
  - injection H as <- <-. rewrite drop_ge by lia. now rewrite app_nil_r.
  - unfold JS.at_ in H. rewrite get_chars in H.
    destruct (JS.chars text !! i) as [c|] eqn:Hc.
    + pose proof (drop_S _ _ _ Hc) as Hdrop.
      replace (i + 1)%nat with (S i) in H by lia.
      destruct (SentenceDetector.is_stop c
                && SentenceDetector.boundary text i (cur +:+ String c ""))
        eqn:Hb.
      * apply andb_prop in Hb. destruct Hb as [Hstop Hb].
        apply IH in H; [|lia]. rewrite H. cbn [JS.chars list_ascii_of_string app].
        rewrite total_words_app. cbn [total_words fold_right].
        rewrite split_words_count, count_words_trim, chars_snoc.
        rewrite Hdrop.
        replace (JS.chars cur ++ c :: drop (S i) (JS.chars text))
          with ((JS.chars cur ++ [c]) ++ drop (S i) (JS.chars text))
          by now rewrite <- app_assoc.
        rewrite (count_words_app (JS.chars cur ++ [c]))
          by exact (boundary_next text i c _ HQ Hc Hstop Hb).
        lia.
      * apply IH in H; [|lia]. rewrite H, chars_snoc, Hdrop.
        now rewrite <- app_assoc.
    + injection H as <- <-. apply lookup_ge_None in Hc.
      rewrite drop_ge by lia. now rewrite app_nil_r.
Qed.

(** The sentences of a text without a stop character before a quote and
    an upper-case letter have together the words of the text. *)
Lemma detectSentences_words text :
  stop_quote_upper (JS.chars text) = false ->
  total_words (SentenceDetector.detectSentences text)
  = Z.of_nat (count_words (JS.chars text) false).
Proof.
  intros HQ. unfold SentenceDetector.detectSentences.
  destruct (String.eqb text "" || Nat.eqb (String.length (JS.trim text)) 0)
    eqn:He.
  - apply orb_prop in He. destruct He as [He|He].
    + apply String.eqb_eq in He. now subst.
    + apply Nat.eqb_eq in He. now rewrite trim_empty_count.
  - destruct (SentenceDetector.detect_loop _ text 0 "" [])
      as [sents cur] eqn:Hloop.
    apply (detect_loop_words text HQ) in Hloop;
      [|rewrite chars_length; lia].
    cbn in Hloop. rewrite drop_0 in Hloop.
    destruct (0 <? String.length (JS.trim cur))%nat eqn:Hc.
    + rewrite total_words_app. cbn.
      rewrite split_words_count, count_words_trim. lia.
    + apply Nat.ltb_ge in Hc.
      rewrite trim_empty_count in Hloop by lia. lia.
Qed.

Lemma count_token cs rest :
  cs <> [] -> forallb (fun c => negb (JS.is_space c)) cs = true ->
  forall w,
    count_words (cs ++ rest) w
    = ((if w then 0 else 1) + count_words rest true)%nat.
Proof.
  induction cs as [|c cs IH]; intros Hne Hall w; [easy|].
  cbn in Hall. apply andb_prop in Hall. destruct Hall as [Hc Hall].
  apply negb_true_iff in Hc. cbn. rewrite Hc.
  destruct cs as [|c' cs]; [cbn; lia|].
  rewrite IH by (try discriminate; exact Hall). lia.
Qed.

Lemma is_token_chars w :
  is_token w = true ->
  JS.chars w <> []
  /\ forallb (fun c => negb (JS.is_space c)) (JS.chars w) = true.
Proof.
  unfold is_token. intros H. apply andb_prop in H. destruct H as [Hn Hall].
  split; [|exact Hall]. destruct w; [discriminate | easy].
Qed.

(** A document of tokens joined by single spaces has as many words as
    tokens. *)
Lemma join_tokens_count ws :
  forallb is_token ws = true ->
  count_words (JS.chars (JS.join_space ws)) false = length ws.
Proof.
  unfold JS.join_space.
  induction ws as [|w ws IH]; intros Hall; [reflexivity|].
  cbn in Hall. apply andb_prop in Hall. destruct Hall as [Hw Hall].
  destruct (is_token_chars w Hw) as [Hne Hns].
  destruct ws as [|w' ws].
  - cbn [String.concat length]. rewrite <- (app_nil_r (JS.chars w)).
    now rewrite (count_token _ [] Hne Hns).
  - change (String.concat " " (w :: w' :: ws))
      with (w +:+ " " +:+ String.concat " " (w' :: ws))%string.
    unfold JS.chars in *. rewrite !chars_app.
    rewrite (count_token _ _ Hne Hns). cbn [list_ascii_of_string app].
    cbn [count_words]. change (JS.is_space " ") with true. cbn iota.
    rewrite (IH Hall). cbn [length]. lia.
Qed.

Lemma count_words_snoc_stop a c :
  JS.is_space c = false -> (1 <= count_words (a ++ [c]) false)%nat.
Proof.
  intros Hc. induction a as [|x a IH]; cbn.
  - rewrite Hc. lia.
  - destruct (JS.is_space x); [exact IH | lia].
Qed.

Lemma count_zero_spaces cs :
  count_words cs false = 0%nat -> JS.drop_spaces cs = [].
Proof.
  induction cs as [|c cs IH]; cbn; [reflexivity|].
  destruct (JS.is_space c); [exact IH | discriminate].
Qed.

Lemma trim_nonempty_count s :
  (0 < String.length (JS.trim s))%nat ->
  (1 <= count_words (JS.chars s) false)%nat.
Proof.
  intros H. destruct (count_words (JS.chars s) false) eqn:E; [|lia].
  apply count_zero_spaces in E. unfold JS.trim in H. rewrite E in H.
  cbn in H. lia.
Qed.

Lemma is_stop_not_space c :
  SentenceDetector.is_stop c = true -> JS.is_space c = false.
Proof.
  unfold SentenceDetector.is_stop. intros H.
  apply orb_prop in H. destruct H as [H|H];
    [apply orb_prop in H; destruct H as [H|H]|];
    apply Ascii.eqb_eq in H; subst; reflexivity.
Qed.

(** Every sentence that the loop closes has a word. *)
Lemma detect_loop_nonempty text : forall fuel i cur sents sents' cur',
  Forall (fun s => (1 <= length (JS.split_words s))%nat) sents ->
  SentenceDetector.detect_loop fuel text i cur sents = (sents', cur') ->
  Forall (fun s => (1 <= length (JS.split_words s))%nat) sents'.
Proof.
  induction fuel as [|fuel IH]; intros i cur sents sents' cur' Hall H;
    cbn in H.
  - now injection H as <- <-.
  - destruct (JS.at_ text i) as [c|]; [|now injection H as <- <-].
    destruct (SentenceDetector.is_stop c
              && SentenceDetector.boundary text i (cur +:+ String c ""))
      eqn:Hb.
    + apply andb_prop in Hb. destruct Hb as [Hstop _].
      apply IH in H; [exact H|].
      apply Forall_app. split; [exact Hall|]. constructor; [|constructor].
      rewrite split_words_count, count_words_trim, chars_snoc.
      now apply count_words_snoc_stop, is_stop_not_space.
    + now apply IH in H.
Qed.

Lemma detectSentences_nonempty text :
  Forall (fun s => (1 <= length (JS.split_words s))%nat)
    (SentenceDetector.detectSentences text).
Proof.
  unfold SentenceDetector.detectSentences.
  destruct (_ || _); [constructor|].
  destruct (SentenceDetector.detect_loop _ text 0 "" [])
    as [sents cur] eqn:Hloop.
  apply detect_loop_nonempty in Hloop; [|constructor].
  destruct (0 <? String.length (JS.trim cur))%nat eqn:Hc; [|exact Hloop].
  apply Nat.ltb_lt in Hc.
  apply Forall_app. split; [exact Hloop|]. constructor; [|constructor].
  rewrite split_words_count, count_words_trim.
  now apply trim_nonempty_count.
Qed.

(** The spans of a map cover the indices from the counter on, as many as
    the sentences have words. *)
Lemma map_sentences_cover ss : forall idx wi i,
  (exists sp, In sp (map_sentences ss idx wi)
              /\ startWordIndex sp <= i <= endWordIndex sp)
  <-> wi <= i < wi + total_words ss.
Proof.
  induction ss as [|s ss IH]; intros idx wi i; cbn [map_sentences].
  - cbn. split; [intros (sp & [] & _) | lia].
  - change (total_words (s :: ss))
      with (Z.of_nat (length (JS.split_words s)) + total_words ss).
    pose proof (total_words_nonneg ss) as Hnn.
    split.
    + intros (sp & [<- | Hin] & Hsp); cbn in Hsp; [lia|].
      assert (H : wi + Z.of_nat (length (JS.split_words s)) <= i
                  < wi + Z.of_nat (length (JS.split_words s)) + total_words ss)
        by (apply (IH (idx + 1)); eauto).
      lia.
    + intros Hi.
      destruct (Z_lt_le_dec i (wi + Z.of_nat (length (JS.split_words s))))
        as [Hlt|Hge].
      * eexists. split; [left; reflexivity|]. cbn. lia.
      * destruct (proj2 (IH (idx + 1)
                    (wi + Z.of_nat (length (JS.split_words s))) i))
          as (sp & Hin & Hsp); [lia|].
        exists sp. split; [now right | exact Hsp].
Qed.

Lemma map_sentences_ordered ss : forall idx wi (k k' : nat) sp sp',
  (k < k')%nat ->
  map_sentences ss idx wi !! k = Some sp ->
  map_sentences ss idx wi !! k' = Some sp' ->
  endWordIndex sp < startWordIndex sp'.
Proof.
  induction ss as [|s ss IH]; intros idx wi k k' sp sp' Hk H1 H2; [easy|].
  destruct k' as [|k']; [lia|]. cbn in H2.
  destruct k as [|k]; cbn in H1.
  - injection H1 as <-. cbn.
    apply list_elem_of_lookup_2, list_elem_of_In, map_sentences_start_ge in H2.
    lia.
  - eapply IH; [|eassumption..]. lia.
Qed.

Lemma map_sentences_nonempty ss : forall idx wi sp,
  Forall (fun s => (1 <= length (JS.split_words s))%nat) ss ->
  In sp (map_sentences ss idx wi) -> startWordIndex sp <= endWordIndex sp.
Proof.
  induction ss as [|s ss IH]; intros idx wi sp Hall Hin; [easy|].
  inversion Hall as [|? ? Hs Hall']; subst.
  destruct Hin as [<- | Hin]; [cbn; lia | eapply IH; eassumption].
Qed.

(** C5 (amended): for every document the spans of the sentence map are
    contiguous, ordered and non-overlapping, the first one starts at 0 and
    each holds an index. The union of the spans is exactly
    [0 .. wordCount-1], so that every word belongs to exactly one span,
    exactly when the sentences have together as many words as the
    document; this is so for a document of tokens (non-empty, without
    whitespace) in which no stop character stands right before a quote
    that an upper-case letter follows. *)
Theorem sentence_spans_cover (ws : list string) :
  let map := snd (_initializeSentences ws) in
  (forall (k : nat) sp sp',
     map !! k = Some sp -> map !! S k = Some sp' ->
     startWordIndex sp' = endWordIndex sp + 1)
  /\ (forall (k k' : nat) sp sp',
        (k < k')%nat -> map !! k = Some sp -> map !! k' = Some sp' ->
        endWordIndex sp < startWordIndex sp')
  /\ (forall sp, map !! 0%nat = Some sp -> startWordIndex sp = 0)
  /\ (forall sp, In sp map -> startWordIndex sp <= endWordIndex sp)
  /\ ((forall i,
         0 <= i < Z.of_nat (length ws)
         <-> exists sp, In sp map
                        /\ startWordIndex sp <= i <= endWordIndex sp)
      <-> total_words (fst (_initializeSentences ws))
          = Z.of_nat (length ws))
  /\ (forallb is_token ws = true ->
      stop_quote_upper (JS.chars (JS.join_space ws)) = false ->
      forall i,
        0 <= i < Z.of_nat (length ws)
        <-> exists sp, In sp map
                       /\ startWordIndex sp <= i <= endWordIndex sp).
Proof.
  intros map. unfold map, _initializeSentences. cbn [fst snd].
  split; [|split; [|split; [|split; [|split]]]].
  - apply map_sentences_contiguous.
  - apply map_sentences_ordered.
  - apply map_sentences_first.
  - intros sp. apply map_sentences_nonempty, detectSentences_nonempty.
  - set (ss := SentenceDetector.detectSentences (JS.join_space ws)).
    pose proof (total_words_nonneg ss) as Hnn.
    split.
    + intros H.
      pose proof (H (Z.of_nat (length ws))) as H1.
      pose proof (H (total_words ss)) as H2.
      rewrite map_sentences_cover in H1, H2. lia.
    + intros E i. rewrite map_sentences_cover. lia.
  - intros Htok HQ i. rewrite map_sentences_cover.
    rewrite (detectSentences_words _ HQ), (join_tokens_count _ Htok). lia.
Qed.

(** The spans of the sentence map do not always cover exactly the word
    indices [0 .. wordCount-1]. In the document of the three tokens [He],
    [said.] + double quote + [No] and [way.] the segmenter closes a
    sentence inside the second token, and the map made of the spans
    [0..1] and [2..3] reaches index 3 of a document whose last index
    is 2. *)
Lemma sentence_map_overruns_words :
  let ws := ["He"; "said." +:+ String JS.dquote "No"; "way."]%string in
  forallb is_token ws = true
  /\ _initializeSentences ws
     = (["He said."; String JS.dquote "No way."]%string,
        [ mkSpan 0 0 1 "He said.";
          mkSpan 1 2 3 (String JS.dquote "No way.") ])
  /\ Z.of_nat (length ws) - 1 = 2
  /\ exists sp, In sp (snd (_initializeSentences ws))
               /\ startWordIndex sp <= 3 <= endWordIndex sp.
Proof.
  cbv zeta. split; [reflexivity|]. split; [vm_compute; reflexivity|].
  split; [reflexivity|].
  exists (mkSpan 1 2 3 (String JS.dquote "No way.")).
  split; [vm_compute; auto | vm_compute; split; discriminate].
Qed.

(** A document with a quotation that ends a sentence: the stop character
    stands before the quote, which a space follows, and the map is one
    span of the five words. *)
Lemma sentence_spans_cover_witness :
  let quoted := (String JS.dquote "No." +:+ String JS.dquote "")%string in
  let ws := ["He"; "said"; quoted; "Then"; "left."]%string in
  let map := snd (_initializeSentences ws) in
  forallb is_token ws = true
  /\ stop_quote_upper (JS.chars (JS.join_space ws)) = false
  /\ List.map (fun sp => (startWordIndex sp, endWordIndex sp)) map = [(0, 4)]
  /\ (forall i,
        0 <= i < Z.of_nat (length ws)
        <-> exists sp, In sp map
                       /\ startWordIndex sp <= i <= endWordIndex sp).
Proof.
  intros quoted ws map.
  split; [reflexivity|]. split; [reflexivity|].
  split; [vm_compute; reflexivity|].
  destruct (sentence_spans_cover ws) as (_ & _ & _ & _ & _ & H).
  apply H; reflexivity.
Defined.

(** ** Frame properties of the helpers *)

Lemma render_engine w : engine (WordMarqueeEngine.render w) = engine w.
Proof. frame. Qed.

Lemma render_config w : config (WordMarqueeEngine.render w) = config w.
Proof. frame. Qed.

Lemma render_timers w : timers (WordMarqueeEngine.render w) = timers w.
Proof. frame. Qed.

Lemma render_book w :
  currentBook (WordMarqueeEngine.render w) = currentBook w.
Proof. frame. Qed.

Lemma render_view w :
  currentView (WordMarqueeEngine.render w) = currentView w.
Proof. frame. Qed.

Lemma render_saveStateTimeout w :
  saveStateTimeout (WordMarqueeEngine.render w) = saveStateTimeout w.
Proof. frame. Qed.

Lemma saveState_engine w : engine (saveState w) = engine w.
Proof. frame. Qed.

Lemma saveState_config w : config (saveState w) = config w.
Proof. frame. Qed.

Lemma saveState_timers w : timers (saveState w) = timers w.
Proof. frame. Qed.

Lemma debounced_engine d w : engine (saveStateDebounced d w) = engine w.
Proof. frame. Qed.

Lemma debounced_config d w : config (saveStateDebounced d w) = config w.
Proof. frame. Qed.

Lemma advances_app ts ts' :
  List.filter is_advance (ts ++ ts')
  = List.filter is_advance ts ++ List.filter is_advance ts'.
Proof. apply List.filter_app. Qed.

Lemma advances_clear id w :
  advances (W.clear id w)
  = List.filter (fun t => negb (Pos.eqb (timer_id t) id)) (advances w).
Proof.
  unfold advances, W.clear; cbn.
  induction (timers w) as [|t ts IH]; cbn; [reflexivity|].
  destruct (Pos.eqb (timer_id t) id) eqn:E, (is_advance t) eqn:A; cbn;
    rewrite ?E, ?A; cbn; now rewrite IH.
Qed.

(** The debounced save installs no advance, and removes at most the timer
    whose id is [saveStateTimeout]. *)
Lemma advances_debounced d w :
  advances (saveStateDebounced d w)
  = match saveStateTimeout w with
    | Some id => List.filter (fun t => negb (Pos.eqb (timer_id t) id)) (advances w)
    | None => advances w
    end.
Proof.
  unfold saveStateDebounced.
  destruct (saveStateTimeout w) as [id|] eqn:E.
  - rewrite <- advances_clear. unfold advances, W.install; cbn.
    rewrite advances_app; cbn. now rewrite app_nil_r.
  - unfold advances, W.install; cbn.
    rewrite advances_app; cbn. now rewrite app_nil_r.
Qed.

Lemma advances_debounced_nil d w :
  advances w = [] -> advances (saveStateDebounced d w) = [].
Proof.
  intros H. rewrite advances_debounced, H. now destruct (saveStateTimeout w).
Qed.

Lemma advances_debounced_incl d w t :
  In t (advances (saveStateDebounced d w)) -> In t (advances w).
Proof.
  rewrite advances_debounced. destruct (saveStateTimeout w); [|easy].
  intros H. apply List.filter_In in H. tauto.
Qed.

Lemma advances_debounced_length d w :
  (length (advances (saveStateDebounced d w)) <= length (advances w))%nat.
Proof.
  rewrite advances_debounced. destruct (saveStateTimeout w); [|lia].
  apply List.filter_length_le.
Qed.

Lemma st_set_state f w : W.st (W.set_state f w) = f (W.st w).
Proof. reflexivity. Qed.

Lemma st_render w : W.st (WordMarqueeEngine.render w) = W.st w.
Proof. unfold W.st. now rewrite render_engine. Qed.

Lemma st_saveState w : W.st (saveState w) = W.st w.
Proof. unfold W.st. now rewrite saveState_engine. Qed.

Lemma st_debounced d w : W.st (saveStateDebounced d w) = W.st w.
Proof. unfold W.st. now rewrite debounced_engine. Qed.

(** ** [stop], [start] and the sentence advance *)

#[local] Arguments saveStateDebounced : simpl never.
#[local] Arguments sentence_delay : simpl never.
#[local] Arguments saveState : simpl never.
#[local] Arguments WordMarqueeEngine.render : simpl never.
#[local] Arguments WordMarqueeEngine.stop : simpl never.
#[local] Arguments WordMarqueeEngine._advanceSentence : simpl never.
#[local] Arguments WordMarqueeEngine._advanceWord : simpl never.
#[local] Arguments WordMarqueeEngine.start : simpl never.

Lemma stop_st w :
  W.st (WordMarqueeEngine.stop w) = W.set_isPlaying false (W.st w).
Proof.
  unfold WordMarqueeEngine.stop; cbn.
  destruct (intervalId (engine w)); reflexivity.
Qed.

Lemma stop_map w :
  sentenceWordMap (engine (WordMarqueeEngine.stop w))
  = sentenceWordMap (engine w).
Proof.
  unfold WordMarqueeEngine.stop; cbn.
  destruct (intervalId (engine w)); reflexivity.
Qed.

Lemma stop_config w : config (WordMarqueeEngine.stop w) = config w.
Proof.
  unfold WordMarqueeEngine.stop; cbn.
  destruct (intervalId (engine w)); reflexivity.
Qed.

Lemma stop_intervalId w :
  intervalId (engine (WordMarqueeEngine.stop w)) = None.
Proof.
  unfold WordMarqueeEngine.stop; cbn.
  destruct (intervalId (engine w)) eqn:E; cbn; [reflexivity | exact E].
Qed.

Lemma stop_advances w :
  advances (WordMarqueeEngine.stop w)
  = match intervalId (engine w) with
    | Some id =>
        List.filter (fun t => negb (Pos.eqb (timer_id t) id)) (advances w)
    | None => advances w
    end.
Proof.
  unfold WordMarqueeEngine.stop; cbn.
  destruct (intervalId (engine w)) as [id|]; [|reflexivity].
  change (advances (W.clear id (W.clear id (W.set_state (W.set_isPlaying false) w)))
          = List.filter (fun t => negb (Pos.eqb (timer_id t) id)) (advances w)).
  rewrite !advances_clear.
  change (advances (W.set_state (W.set_isPlaying false) w)) with (advances w).
  induction (advances w) as [|t ts IH]; cbn; [reflexivity|].
  destruct (Pos.eqb (timer_id t) id) eqn:E; cbn; rewrite ?E; cbn;
    now rewrite IH.
Qed.

Lemma nth_Z_Some {A} (l : list A) i x :
  W.nth_Z l i = Some x -> 0 <= i < Z.of_nat (length l).
Proof.
  unfold W.nth_Z. destruct (i <? 0) eqn:E; [easy|].
  apply Z.ltb_ge in E. intros H. apply lookup_lt_Some in H. lia.
Qed.

(** The timer that [_advanceSentence] installs for the sentence [sm]. *)
Lemma advanceSentence_last w :
  Z.of_nat (length (sentenceWordMap (engine w))) - 1
    <= sentenceIndex (W.st w) ->
  WordMarqueeEngine._advanceSentence w = saveState (WordMarqueeEngine.stop w).
Proof.
  intros H. unfold WordMarqueeEngine._advanceSentence.
  replace (_ <? _) with false by (symmetry; apply Z.ltb_ge; exact H).
  reflexivity.
Qed.

Lemma debounced_next d w :
  next_timer (saveStateDebounced d w) = Pos.succ (next_timer w).
Proof.
  unfold saveStateDebounced. destruct (saveStateTimeout w); reflexivity.
Qed.

Lemma render_next w : next_timer (WordMarqueeEngine.render w) = next_timer w.
Proof. frame. Qed.

Lemma advances_render w : advances (WordMarqueeEngine.render w) = advances w.
Proof. unfold advances. now rewrite render_timers. Qed.

Lemma advances_saveState w : advances (saveState w) = advances w.
Proof. unfold advances. now rewrite saveState_timers. Qed.

Lemma advances_debounced_render d w :
  advances (saveStateDebounced d (WordMarqueeEngine.render w))
  = advances (saveStateDebounced d w).
Proof.
  rewrite !advances_debounced, render_saveStateTimeout, advances_render.
  reflexivity.
Qed.

(** The delay of the timer that [_advanceSentence] installs after it has
    shown the span [sm], for the speed [wpm]. *)
Lemma advanceSentence_next w sm :
  W.nth_Z (sentenceWordMap (engine w)) (sentenceIndex (W.st w) + 1) = Some sm ->
  let w' := WordMarqueeEngine._advanceSentence w in
  let delayMs :=
    sentence_delay (Z.of_nat (length (JS.split_words (text_of sm))))
      (wpm (config w)) in
  W.st w' = W.set_focusIndex (startWordIndex sm)
              (W.set_sentenceIndex (sentenceIndex (W.st w) + 1) (W.st w))
  /\ sentenceWordMap (engine w') = sentenceWordMap (engine w)
  /\ config w' = config w
  /\ (if isPlaying (W.st w) && String.eqb (mode (W.st w)) "sentence"
      then intervalId (engine w') = Some (Pos.succ (next_timer w))
           /\ advances w'
              = advances (saveStateDebounced 2000 w)
                ++ [mkTimer (Pos.succ (next_timer w)) SetTimeout
                      AdvanceSentenceCb delayMs]
      else intervalId (engine w') = intervalId (engine w)
           /\ advances w' = advances (saveStateDebounced 2000 w)).
Proof.
  intros H. pose proof (nth_Z_Some _ _ _ H) as Hr.
  cbv zeta. unfold WordMarqueeEngine._advanceSentence.
  replace (_ <? _) with true by (symmetry; apply Z.ltb_lt; lia).
  cbn [W.st W.set_state W.set_engine engine state sentenceWordMap
       W.set_sentenceIndex sentenceIndex].
  change (state (engine w)) with (W.st w).
  rewrite H.
  set (w1 := W.set_state (W.set_focusIndex (startWordIndex sm))
               (W.set_state (W.set_sentenceIndex (sentenceIndex (W.st w) + 1)) w)).
  rewrite st_debounced, st_render, debounced_config, render_config.
  change (W.st w1)
    with (W.set_focusIndex (startWordIndex sm)
            (W.set_sentenceIndex (sentenceIndex (W.st w) + 1) (W.st w))).
  change (config w1) with (config w).
  cbn [isPlaying mode W.set_focusIndex W.set_sentenceIndex].
  destruct (isPlaying (W.st w) && String.eqb (mode (W.st w)) "sentence").
  - unfold W.install. cbn.
    rewrite debounced_engine, render_engine, debounced_next, render_next.
    cbn. repeat split; try reflexivity.
    + now rewrite debounced_config, render_config.
    + rewrite advances_app. cbn.
      fold (advances (saveStateDebounced 2000 (WordMarqueeEngine.render w1))).
      rewrite advances_debounced_render.
      rewrite !advances_debounced. reflexivity.
  - rewrite st_debounced, st_render, debounced_engine, render_engine.
    rewrite debounced_config, render_config.
    rewrite advances_debounced_render, !advances_debounced.
    repeat split; reflexivity.
Qed.

Lemma start_playing w :
  isPlaying (W.st w) = true -> WordMarqueeEngine.start w = w.
Proof. intros H. unfold WordMarqueeEngine.start. now rewrite H. Qed.

Lemma start_sentence w :
  isPlaying (W.st w) = false -> mode (W.st w) = "sentence"%string ->
  WordMarqueeEngine.start w
  = WordMarqueeEngine._advanceSentence (W.set_state (W.set_isPlaying true) w).
Proof.
  intros Hp Hm. unfold WordMarqueeEngine.start. rewrite Hp.
  cbn [W.st W.set_state W.set_engine engine state W.set_isPlaying mode].
  change (state (engine w)) with (W.st w). now rewrite Hm.
Qed.

Lemma start_word w :
  isPlaying (W.st w) = false ->
  String.eqb (mode (W.st w)) "sentence" = false ->
  WordMarqueeEngine.start w
  = W.set_intervalId (Some (next_timer w))
      (W.set_timers
         (timers w ++ [mkTimer (next_timer w) SetInterval AdvanceWordCb
                         (WordMarqueeEngine.wordInterval w)])
         (Pos.succ (next_timer w))
         (W.set_state (W.set_isPlaying true) w)).
Proof.
  intros Hp Hm. unfold WordMarqueeEngine.start. rewrite Hp.
  cbn [W.st W.set_state W.set_engine engine state W.set_isPlaying mode].
  change (state (engine w)) with (W.st w). now rewrite Hm.
Qed.

(** ** The discipline of the advance timers *)

Lemma advance_ok_nil w : advances w = [] -> advance_ok w.
Proof. intros H. unfold advance_ok. rewrite H. split; [easy | simpl; lia]. Qed.

Lemma advance_ok_stopped w :
  advance_ok w -> isPlaying (W.st w) = false -> advances w = [].
Proof.
  intros [H _] Hp. destruct (advances w) as [|t ts]; [reflexivity|].
  destruct (H t (or_introl eq_refl)) as (_ & Hplay & _). congruence.
Qed.

(** A world with the same engine and no new advance timer keeps the
    discipline. *)
Lemma advance_ok_ext w w' :
  intervalId (engine w') = intervalId (engine w) ->
  isPlaying (W.st w') = isPlaying (W.st w) ->
  (forall t, In t (advances w') -> In t (advances w)) ->
  (length (advances w') <= length (advances w))%nat ->
  advance_ok w -> advance_ok w'.
Proof.
  intros Hi Hp Hin Hlen [H1 H2]. split; [|lia].
  intros t Ht. rewrite Hi, Hp. apply H1, Hin, Ht.
Qed.

Lemma advance_ok_render w :
  advance_ok w -> advance_ok (WordMarqueeEngine.render w).
Proof.
  apply advance_ok_ext; unfold W.st; rewrite ?render_engine, ?advances_render;
    auto.
Qed.

Lemma advance_ok_saveState w : advance_ok w -> advance_ok (saveState w).
Proof.
  apply advance_ok_ext; unfold W.st;
    rewrite ?saveState_engine, ?advances_saveState; auto.
Qed.

Lemma advance_ok_debounced d w :
  advance_ok w -> advance_ok (saveStateDebounced d w).
Proof.
  apply advance_ok_ext; unfold W.st; rewrite ?debounced_engine; auto.
  - apply advances_debounced_incl.
  - apply advances_debounced_length.
Qed.

Lemma advance_ok_set_state f w :
  (forall s, isPlaying (f s) = isPlaying s) ->
  advance_ok w -> advance_ok (W.set_state f w).
Proof.
  intros Hf. apply advance_ok_ext; auto. cbn. apply Hf.
Qed.

Lemma advance_ok_set_config f w :
  advance_ok w -> advance_ok (W.set_config f w).
Proof. apply advance_ok_ext; auto. Qed.

Lemma advance_ok_set_saveStateTimeout o w :
  advance_ok w -> advance_ok (W.set_saveStateTimeout o w).
Proof. apply advance_ok_ext; auto. Qed.

Lemma advances_clear_own w id :
  advance_ok w -> intervalId (engine w) = Some id ->
  advances (W.clear id w) = [].
Proof.
  intros [H _] Hid. rewrite advances_clear.
  induction (advances w) as [|t ts IH]; [reflexivity|].
  cbn. destruct (H t (or_introl eq_refl)) as (Ht & _).
  rewrite Hid in Ht. injection Ht as ->. rewrite Pos.eqb_refl. cbn.
  apply IH. intros t' Ht'. apply H. now right.
Qed.

Lemma advance_ok_clear id w : advance_ok w -> advance_ok (W.clear id w).
Proof.
  apply advance_ok_ext; auto; rewrite advances_clear.
  - intros t Ht. apply List.filter_In in Ht. tauto.
  - apply List.filter_length_le.
Qed.

Lemma stop_clears w :
  advance_ok w -> advances (WordMarqueeEngine.stop w) = [].
Proof.
  intros Hok. rewrite stop_advances.
  destruct (intervalId (engine w)) as [id|] eqn:Hid.
  - rewrite <- advances_clear. now apply advances_clear_own.
  - destruct Hok as [H _]. destruct (advances w) as [|t ts]; [reflexivity|].
    destruct (H t (or_introl eq_refl)) as (Ht & _). congruence.
Qed.

Lemma advance_ok_stop w :
  advance_ok w -> advance_ok (WordMarqueeEngine.stop w).
Proof. intros H. now apply advance_ok_nil, stop_clears. Qed.

Lemma advanceSentence_none w :
  sentenceIndex (W.st w)
    < Z.of_nat (length (sentenceWordMap (engine w))) - 1 ->
  W.nth_Z (sentenceWordMap (engine w)) (sentenceIndex (W.st w) + 1) = None ->
  WordMarqueeEngine._advanceSentence w
  = WordMarqueeEngine.stop
      (saveStateDebounced 2000
         (WordMarqueeEngine.render
            (W.set_state (W.set_sentenceIndex (sentenceIndex (W.st w) + 1)) w))).
Proof.
  intros Hlt Hn. unfold WordMarqueeEngine._advanceSentence.
  replace (_ <? _) with true by (symmetry; apply Z.ltb_lt; lia).
  cbn [W.st W.set_state W.set_engine engine state sentenceWordMap
       W.set_sentenceIndex sentenceIndex].
  change (state (engine w)) with (W.st w).
  rewrite Hn. reflexivity.
Qed.

Lemma advance_ok_advanceSentence w :
  advance_ok w -> advances w = [] ->
  advance_ok (WordMarqueeEngine._advanceSentence w).
Proof.
  intros Hok Hnil.
  destruct (Z_lt_le_dec (sentenceIndex (W.st w))
              (Z.of_nat (length (sentenceWordMap (engine w))) - 1))
    as [Hlt|Hge].
  - destruct (W.nth_Z (sentenceWordMap (engine w))
                (sentenceIndex (W.st w) + 1)) as [sm|] eqn:Hn.
    + destruct (advanceSentence_next w sm Hn) as (Hst & _ & _ & Hi).
      destruct (isPlaying (W.st w) && String.eqb (mode (W.st w)) "sentence")
        eqn:Hplay.
      * destruct Hi as [Hid Hadv].
        rewrite (advances_debounced_nil _ _ Hnil) in Hadv. cbn in Hadv.
        split; [|rewrite Hadv; simpl; lia].
        intros t Ht. rewrite Hadv in Ht. destruct Ht as [<-|[]]. cbn.
        apply andb_prop in Hplay. destruct Hplay as [Hp _].
        rewrite Hst. cbn. auto.
      * destruct Hi as [_ Hadv].
        rewrite (advances_debounced_nil _ _ Hnil) in Hadv.
        now apply advance_ok_nil.
    + rewrite (advanceSentence_none w Hlt Hn).
      apply advance_ok_stop, advance_ok_debounced, advance_ok_render.
      apply advance_ok_set_state; [reflexivity | exact Hok].
  - rewrite advanceSentence_last by lia.
    now apply advance_ok_saveState, advance_ok_stop.
Qed.

Lemma advance_ok_advanceWord w :
  advance_ok w -> advance_ok (WordMarqueeEngine._advanceWord w).
Proof.
  intros Hok. unfold WordMarqueeEngine._advanceWord.
  destruct (_ <? _).
  - apply advance_ok_debounced, advance_ok_render.
    apply advance_ok_set_state; [reflexivity | exact Hok].
  - now apply advance_ok_saveState, advance_ok_stop.
Qed.

(** A single new advance timer in a world without one. *)
Lemma advance_ok_install w k cb d :
  advances w = [] ->
  isPlaying (W.st w) = true ->
  cb <> AdvanceSentenceCb ->
  advance_ok
    (W.set_intervalId (Some (next_timer w))
       (W.set_timers (timers w ++ [mkTimer (next_timer w) k cb d])
          (Pos.succ (next_timer w)) w)).
Proof.
  intros Hnil Hp Hcb. unfold advance_ok, advances. cbn.
  rewrite advances_app. fold (advances w). rewrite Hnil. cbn.
  destruct (is_advance _) eqn:E; cbn; (split; [|lia]).
  - intros t [<-|[]]. cbn. repeat split; auto. intros Hc. now destruct Hcb.
  - intros t [].
Qed.

Lemma advance_ok_start w :
  advance_ok w -> advance_ok (WordMarqueeEngine.start w).
Proof.
  intros Hok. destruct (isPlaying (W.st w)) eqn:Hp.
  - now rewrite start_playing.
  - pose proof (advance_ok_stopped w Hok Hp) as Hnil.
    destruct (String.eqb (mode (W.st w)) "sentence") eqn:Hm.
    + apply String.eqb_eq in Hm. rewrite start_sentence by assumption.
      apply advance_ok_advanceSentence; [|exact Hnil].
      now apply advance_ok_nil.
    + rewrite start_word by assumption.
      apply (advance_ok_install (W.set_state (W.set_isPlaying true) w));
        [exact Hnil | reflexivity | discriminate].
Qed.

Lemma toggle_loop_isPlaying map : forall i f s,
  isPlaying (WordMarqueeEngine.toggle_loop map i f s) = isPlaying s.
Proof.
  induction map as [|sm map IH]; intros i f s; cbn; [reflexivity|].
  destruct (_ && _); [reflexivity | apply IH].
Qed.

Lemma advance_ok_goto i w :
  advance_ok w -> advance_ok (WordMarqueeEngine.goto_sentence i w).
Proof.
  intros Hok. unfold WordMarqueeEngine.goto_sentence.
  destruct (W.nth_Z _ _);
    repeat (apply advance_ok_set_state; [reflexivity|]); exact Hok.
Qed.

(** The world in which [setSpeed] installs the new interval: the old one,
    if any, has been cleared. *)
Lemma setSpeed_advances value w :
  advance_ok w -> isPlaying (W.st w) = true ->
  mode (W.st w) = "word"%string ->
  advances (WordMarqueeEngine.setSpeed value w)
  = [mkTimer (next_timer w) SetInterval AdvanceWordCb
       (WordMarqueeEngine.wordInterval (W.set_config (W.set_wpm value) w))]
  /\ intervalId (engine (WordMarqueeEngine.setSpeed value w))
     = Some (next_timer w).
Proof.
  intros Hok Hp Hm. unfold WordMarqueeEngine.setSpeed.
  change (W.st (W.set_config (W.set_wpm value) w)) with (W.st w).
  rewrite Hp, Hm. cbn [String.eqb Ascii.eqb Bool.eqb andb].
  rewrite advances_saveState, saveState_engine.
  set (wc := W.set_config (W.set_wpm value) w).
  assert (Hokc : advance_ok wc) by now apply advance_ok_set_config.
  assert (Hnil : advances (match intervalId (engine w) with
                           | Some id => W.clear id wc
                           | None => wc
                           end) = []).
  { destruct (intervalId (engine w)) as [id|] eqn:Hid.
    - now apply advances_clear_own.
    - destruct Hok as [H _].
      change (advances wc) with (advances w).
      destruct (advances w) as [|t ts]; [reflexivity|].
      destruct (H t (or_introl eq_refl)) as (Ht & _). congruence. }
  set (wd := match intervalId (engine w) with
             | Some id => W.clear id wc
             | None => wc
             end) in *.
  assert (Hnext : next_timer wd = next_timer w)
    by (unfold wd; destruct (intervalId (engine w)); reflexivity).
  assert (Hcfg : WordMarqueeEngine.wordInterval wd
                 = WordMarqueeEngine.wordInterval wc)
    by (unfold wd; destruct (intervalId (engine w)); reflexivity).
  unfold W.install. unfold advances at 1.
  cbn [timers W.set_intervalId W.set_engine W.set_timers engine intervalId].
  rewrite advances_app.
  change (match intervalId (engine wc) with
          | Some id => W.clear id wc
          | None => wc
          end) with wd.
  fold (advances wd). rewrite Hnil, Hnext, Hcfg.
  split; reflexivity.
Qed.

Lemma advance_ok_setSpeed value w :
  advance_ok w -> advance_ok (WordMarqueeEngine.setSpeed value w).
Proof.
  intros Hok.
  destruct (isPlaying (W.st w)) eqn:Hp; cycle 1.
  - unfold WordMarqueeEngine.setSpeed.
    change (W.st (W.set_config (W.set_wpm value) w)) with (W.st w).
    rewrite Hp. now apply advance_ok_saveState, advance_ok_set_config.
  - destruct (String.eqb (mode (W.st w)) "word") eqn:Hm.
    + apply String.eqb_eq in Hm.
      destruct (setSpeed_advances value w Hok Hp Hm) as [Hadv Hid].
      split; [|rewrite Hadv; simpl; lia].
      intros t Ht. rewrite Hadv in Ht. destruct Ht as [<-|[]].
      rewrite Hid. cbn. repeat split; try discriminate.
      unfold WordMarqueeEngine.setSpeed.
      rewrite st_saveState.
      change (W.st (W.set_config (W.set_wpm value) w)) with (W.st w).
      rewrite Hp, Hm. cbn [String.eqb Ascii.eqb Bool.eqb andb].
      unfold W.install. cbn. destruct (intervalId (engine w)); exact Hp.
    + unfold WordMarqueeEngine.setSpeed.
      change (W.st (W.set_config (W.set_wpm value) w)) with (W.st w).
      rewrite Hp, Hm. now apply advance_ok_saveState, advance_ok_set_config.
Qed.

Lemma advance_ok_toggleMode w :
  advance_ok w -> advance_ok (WordMarqueeEngine.toggleMode w).
Proof.
  intros Hok. unfold WordMarqueeEngine.toggleMode.
  apply advance_ok_saveState.
  assert (H : forall w0, advance_ok w0 ->
            advance_ok (if isPlaying (W.st w)
                        then WordMarqueeEngine.start w0 else w0)).
  { intros w0 H0. destruct (isPlaying (W.st w)); [|exact H0].
    now apply advance_ok_start. }
  apply H, advance_ok_render.
  destruct (String.eqb _ _).
  - apply advance_ok_set_state; [intros; apply toggle_loop_isPlaying|].
    repeat (apply advance_ok_set_state; [reflexivity|]).
    now apply advance_ok_stop.
  - apply advance_ok_set_state; [reflexivity|]. now apply advance_ok_stop.
Qed.

Lemma advance_ok_pages w :
  advance_ok w ->
  advance_ok (WordMarqueeEngine._nextPage w)
  /\ advance_ok (WordMarqueeEngine._prevPage w).
Proof.
  intros Hok.
  unfold WordMarqueeEngine._nextPage, WordMarqueeEngine._prevPage.
  split; destruct (String.eqb _ _);
    apply advance_ok_saveState, advance_ok_render;
    try (now apply advance_ok_goto);
    (apply advance_ok_set_state; [reflexivity | exact Hok]).
Qed.

Lemma advance_ok_wheel deltaY w :
  advance_ok w -> advance_ok (WordMarqueeEngine._handleWheel deltaY w).
Proof.
  intros Hok. unfold WordMarqueeEngine._handleWheel.
  repeat match goal with
         | |- advance_ok (if ?c then _ else _) => destruct c
         end; try exact Hok;
    apply advance_ok_debounced, advance_ok_render;
    try (now apply advance_ok_goto);
    (apply advance_ok_set_state; [reflexivity | exact Hok]).
Qed.

Lemma advance_ok_fire id w : advance_ok w -> advance_ok (fire id w).
Proof.
  intros Hok. unfold fire.
  destruct (List.find _ (timers w)) as [t|] eqn:Hfind; [|exact Hok].
  apply List.find_some in Hfind. destruct Hfind as [Hin Hid].
  apply Pos.eqb_eq in Hid.
  destruct (timer_callback t) eqn:Hcb.
  - apply advance_ok_advanceWord.
    destruct (timer_kind t); [exact Hok | now apply advance_ok_clear].
  - assert (Ht : In t (advances w)).
    { apply List.filter_In. split; [exact Hin|].
      unfold is_advance. now rewrite Hcb. }
    destruct Hok as [H Hlen].
    destruct (H t Ht) as (Hint & _ & Hkind). rewrite (Hkind Hcb).
    rewrite Hid in Hint.
    assert (Hnil : advances (W.clear id w) = [])
      by (apply advances_clear_own; [split|]; assumption).
    apply advance_ok_advanceSentence; [|exact Hnil].
    now apply advance_ok_nil.
  - apply advance_ok_set_saveStateTimeout, advance_ok_saveState.
    destruct (timer_kind t); [exact Hok | now apply advance_ok_clear].
Qed.

Lemma advance_ok_step o w : advance_ok w -> advance_ok (step o w).
Proof.
  intros Hok. destruct o; cbn.
  - now apply advance_ok_start.
  - now apply advance_ok_stop.
  - now apply advance_ok_toggleMode.
  - unfold WordMarqueeEngine.togglePlayPause.
    destruct (isPlaying _);
      [now apply advance_ok_stop | now apply advance_ok_start].
  - now apply advance_ok_setSpeed.
  - now apply advance_ok_pages.
  - now apply advance_ok_pages.
  - now apply advance_ok_wheel.
  - now apply advance_ok_fire.
Qed.

Lemma advance_ok_run ops : forall w, advance_ok w -> advance_ok (run ops w).
Proof.
  unfold run. induction ops as [|o ops IH]; intros w Hok; cbn; [exact Hok|].
  apply IH, advance_ok_step, Hok.
Qed.

Lemma advance_ok_boot cfg e : advance_ok (WordMarqueeEngine.boot cfg e).
Proof.
  apply advance_ok_nil. unfold WordMarqueeEngine.boot.
  now rewrite advances_render.
Qed.

(** ** At most one scheduled advance *)

(** C9: in every state that a sequence of events reaches from a fresh
    page (calls of [start()] and [setSpeed()], and any other event of the
    engine) at most one advance timer is live; [start()] while playing
    changes nothing, and [setSpeed()] while playing in word mode leaves the
    interval of the new period as the only advance timer. *)
Theorem at_most_one_scheduled_advance (cfg : Config) (e : Engine)
    (ops : list Op) :
  let w := run ops (WordMarqueeEngine.boot cfg e) in
  (length (advances w) <= 1)%nat
  /\ (isPlaying (W.st w) = true -> WordMarqueeEngine.start w = w)
  /\ (forall value,
        isPlaying (W.st w) = true -> mode (W.st w) = "word"%string ->
        advances (WordMarqueeEngine.setSpeed value w)
        = [mkTimer (next_timer w) SetInterval AdvanceWordCb
             (if value =? 0 then NotFinite
              else Ms (60000 / inject_Z value)%Q)]).
Proof.
  intros w.
  assert (Hok : advance_ok w) by apply advance_ok_run, advance_ok_boot.
  split; [apply Hok | split].
  - apply start_playing.
  - intros value Hp Hm.
    destruct (setSpeed_advances value w Hok Hp Hm) as [Hadv _].
    exact Hadv.
Qed.





(** ** Starting in sentence mode *)



(** The delay of a sentence of 17 words at 250 words a minute is not
    4080 ms: the quotient 0.068 is rounded, and the product is the next
    double after 4080. *)
Lemma sentence_delay_is_rounded :
  exists q, sentence_delay 17 250 = Ms q
            /\ (q == 4080 + (1 # 2199023255552))%Q.
Proof. eexists. split; [vm_compute; reflexivity | reflexivity]. Qed.


(** ** Mode toggles *)

(** The translation of [toggleMode]: when [focusIndex] lies inside the
    [k]-th span of the sentence map and playback is not active, a toggle
    from word mode to sentence mode sets [sentenceIndex] to [k] and
    [focusIndex] to the start of that span, and a toggle back leaves
    [focusIndex] there. When playback is active the toggle ends with
    [start()]: into sentence mode this advances at once to the span
    [k+1], or stops when the span [k] is the last one; back into word
    mode the position is kept and playback runs again. *)
Lemma toggle_translates_position (w : World) (ss : list string) (k : nat)
    (sp : SentenceSpan) :
  mode (W.st w) = "word"%string ->
  sentenceWordMap (engine w) = map_sentences ss 0 0 ->
  sentenceWordMap (engine w) !! k = Some sp ->
  startWordIndex sp <= focusIndex (W.st w) <= endWordIndex sp ->
  let w1 := WordMarqueeEngine.toggleMode w in
  (isPlaying (W.st w) = false ->
     W.st w1 = mkState "sentence" false (startWordIndex sp) (Z.of_nat k)
     /\ W.st (WordMarqueeEngine.toggleMode w1)
        = mkState "word" false (startWordIndex sp) (Z.of_nat k))
  /\ (isPlaying (W.st w) = true ->
      match sentenceWordMap (engine w) !! S k with
      | Some sp' =>
          W.st w1 = mkState "sentence" true (startWordIndex sp')
                      (Z.of_nat k + 1)
      | None =>
          W.st w1 = mkState "sentence" false (startWordIndex sp) (Z.of_nat k)
      end)
  /\ (forall w', mode (W.st w') = "sentence"%string ->
        isPlaying (W.st w') = true ->
        W.st (WordMarqueeEngine.toggleMode w')
        = mkState "word" true (focusIndex (W.st w'))
            (sentenceIndex (W.st w'))).
Proof.
  intros Hmode Hmap Hk Hin w1.
  assert (Hloop : forall s,
    WordMarqueeEngine.toggle_loop (sentenceWordMap (engine w)) 0
      (focusIndex (W.st w)) s
    = W.set_focusIndex (startWordIndex sp) (W.set_sentenceIndex (Z.of_nat k) s)).
  { intros s. rewrite Hmap. rewrite Hmap in Hk.
    now rewrite (toggle_loop_finds ss 0 0 0 k sp _ s Hk Hin). }
  set (wA := W.set_state
               (WordMarqueeEngine.toggle_loop (sentenceWordMap (engine w)) 0
                  (focusIndex (W.st w)))
               (W.set_state (W.set_sentenceIndex 0)
                  (W.set_state (W.set_mode "sentence")
                     (WordMarqueeEngine.stop w)))).
  assert (HstA : W.st wA
                 = mkState "sentence" false (startWordIndex sp) (Z.of_nat k)).
  { unfold wA. rewrite !st_set_state, stop_st, Hloop. reflexivity. }
  assert (Hw1 : w1 = saveState
                  (if isPlaying (W.st w)
                   then WordMarqueeEngine.start (WordMarqueeEngine.render wA)
                   else WordMarqueeEngine.render wA)).
  { unfold w1, WordMarqueeEngine.toggleMode.
    rewrite stop_st. cbn [mode W.set_isPlaying focusIndex]. rewrite Hmode.
    cbn [String.eqb Ascii.eqb Bool.eqb andb].
    cbn [W.st W.set_state W.set_engine engine state sentenceWordMap].
    rewrite stop_map.
    change (state (engine w)) with (W.st w). reflexivity. }
  split; [|split].
  - intros Hp. rewrite Hp in Hw1.
    assert (H1 : W.st w1 = mkState "sentence" false (startWordIndex sp)
                             (Z.of_nat k)).
    { now rewrite Hw1, st_saveState, st_render. }
    split; [exact H1|].
    unfold WordMarqueeEngine.toggleMode.
    rewrite stop_st, H1. cbn [mode W.set_isPlaying isPlaying].
    cbn [String.eqb Ascii.eqb Bool.eqb andb].
    rewrite st_saveState, st_render, st_set_state, stop_st, H1.
    reflexivity.
  - intros Hp. rewrite Hp in Hw1.
    assert (HstR : W.st (WordMarqueeEngine.render wA)
                   = mkState "sentence" false (startWordIndex sp) (Z.of_nat k))
      by now rewrite st_render.
    rewrite start_sentence in Hw1 by (now rewrite HstR).
    set (wB := W.set_state (W.set_isPlaying true)
                 (WordMarqueeEngine.render wA)) in *.
    assert (HstB : W.st wB
                   = mkState "sentence" true (startWordIndex sp) (Z.of_nat k)).
    { unfold wB. now rewrite st_set_state, HstR. }
    assert (HmapB : sentenceWordMap (engine wB) = sentenceWordMap (engine w)).
    { unfold wB. cbn [W.set_state W.set_engine engine sentenceWordMap].
      rewrite render_engine. unfold wA.
      cbn [W.set_state W.set_engine engine sentenceWordMap].
      apply stop_map. }
    destruct (sentenceWordMap (engine w) !! S k) as [sp'|] eqn:Hnext.
    + assert (Hn : W.nth_Z (sentenceWordMap (engine wB))
                     (sentenceIndex (W.st wB) + 1) = Some sp').
      { rewrite HmapB, HstB. cbn [sentenceIndex]. unfold W.nth_Z.
        replace (_ <? 0) with false by (symmetry; apply Z.ltb_ge; lia).
        replace (Z.to_nat (Z.of_nat k + 1)) with (S k) by lia. exact Hnext. }
      destruct (advanceSentence_next wB sp' Hn) as (Hst & _).
      rewrite Hw1, st_saveState, Hst, HstB. reflexivity.
    + apply lookup_ge_None in Hnext.
      rewrite advanceSentence_last in Hw1
        by (rewrite HmapB, HstB; cbn [sentenceIndex]; lia).
      rewrite Hw1, !st_saveState, stop_st, HstB. reflexivity.
  - intros w' Hm Hp. unfold WordMarqueeEngine.toggleMode.
    rewrite stop_st, Hp. cbn [mode W.set_isPlaying]. rewrite Hm.
    cbn [String.eqb Ascii.eqb Bool.eqb andb].
    set (wC := WordMarqueeEngine.render
                 (W.set_state (W.set_mode "word") (WordMarqueeEngine.stop w'))).
    assert (HstC : W.st wC = mkState "word" false (focusIndex (W.st w'))
                               (sentenceIndex (W.st w'))).
    { unfold wC. rewrite st_render, st_set_state, stop_st.
      destruct (W.st w'); reflexivity. }
    rewrite st_saveState, start_word by (now rewrite HstC).
    cbn [W.st W.set_intervalId W.set_timers W.set_state W.set_engine engine
         state].
    change (state (engine wC)) with (W.st wC). rewrite HstC. reflexivity.
Qed.

(** C7: a toggle into sentence mode while playback is on does not stay on
    the sentence of the focus. In a document of three sentences, played
    in word mode up to the word 3 (the second word of the sentence 1),
    [toggleMode()] sets [sentenceIndex] to 1 and [focusIndex] to 2 and
    renders, and then runs [start()], which in sentence mode advances at
    once: the toggle ends on the sentence 2 at the word 5. Paused at the
    same word it ends on the sentence 1 at the word 2, and a toggle back
    keeps that word. Played up to the word 5, inside the last sentence,
    the toggle ends with playback off: [start()] stops at once. *)
Theorem toggle_while_playing_moves_on :
  let page := page_of fallback_dom three_sentences in
  let playing := run [Start; Fire 1; Fire 1; Fire 1] page in
  let paused := run [Stop] playing in
  let at_the_end := run [Fire 1; Fire 1] playing in
  List.map (fun sp => (startWordIndex sp, endWordIndex sp))
    (sentenceWordMap (engine page)) = [(0, 1); (2, 4); (5, 6)]
  /\ W.st playing = mkState "word" true 3 0
  /\ W.st (WordMarqueeEngine.toggleMode playing) = mkState "sentence" true 5 2
  /\ W.st paused = mkState "word" false 3 0
  /\ W.st (WordMarqueeEngine.toggleMode paused) = mkState "sentence" false 2 1
  /\ W.st (WordMarqueeEngine.toggleMode (WordMarqueeEngine.toggleMode paused))
     = mkState "word" false 2 1
  /\ W.st at_the_end = mkState "word" true 5 0
  /\ W.st (WordMarqueeEngine.toggleMode at_the_end)
     = mkState "sentence" false 5 2.
Proof. cbv zeta. repeat split; vm_compute; reflexivity. Qed.

(** The translation at a position inside a sentence, with playback
    off. *)
Lemma toggle_translates_position_example :
  let w := run [Start; Fire 1; Fire 1; Fire 1; Stop]
             (page_of fallback_dom three_sentences) in
  W.st w = mkState "word" false 3 0
  /\ W.st (WordMarqueeEngine.toggleMode w) = mkState "sentence" false 2 1
  /\ W.st (WordMarqueeEngine.toggleMode (WordMarqueeEngine.toggleMode w))
     = mkState "word" false 2 1.
Proof.
  intros w. split; [vm_compute; reflexivity|].
  destruct (toggle_translates_position w
              ["One two."; "Three four five."; "Six seven."]%string 1
              (mkSpan 1 2 4 "Three four five.")) as [H _].
  - vm_compute. reflexivity.
  - vm_compute. reflexivity.
  - vm_compute. reflexivity.
  - vm_compute. split; discriminate.
  - apply H. vm_compute. reflexivity.
Defined.

(** ** The focus stays inside a document whose spans do *)

Lemma document_ok_ext w w' :
  metrics (engine w') = metrics (engine w) ->
  sentenceWordMap (engine w') = sentenceWordMap (engine w) ->
  wordsPerPage (config w') = wordsPerPage (config w) ->
  0 <= focusIndex (W.st w') < WordMetrics.getWordCount (metrics (engine w)) ->
  document_ok w -> document_ok w'.
Proof.
  intros Hm Hs Hc Hf (_ & Hspans & Hw). unfold document_ok, focus_ok.
  rewrite Hm, Hs, Hc. auto.
Qed.

Lemma document_ok_same w w' :
  engine w' = engine w -> wordsPerPage (config w') = wordsPerPage (config w) ->
  document_ok w -> document_ok w'.
Proof.
  intros He Hc H. pose proof H as (Hf & _).
  apply (document_ok_ext w w'); unfold W.st; rewrite ?He; auto.
Qed.

Lemma document_ok_render w :
  document_ok w -> document_ok (WordMarqueeEngine.render w).
Proof.
  apply document_ok_same; [apply render_engine | now rewrite render_config].
Qed.

Lemma document_ok_saveState w : document_ok w -> document_ok (saveState w).
Proof.
  apply document_ok_same;
    [apply saveState_engine | now rewrite saveState_config].
Qed.

Lemma document_ok_debounced d w :
  document_ok w -> document_ok (saveStateDebounced d w).
Proof.
  apply document_ok_same;
    [apply debounced_engine | now rewrite debounced_config].
Qed.

Lemma document_ok_set_state f w :
  (forall s, focusIndex (f s) = focusIndex s) ->
  document_ok w -> document_ok (W.set_state f w).
Proof.
  intros Hf H. pose proof H as (Hfo & _).
  apply (document_ok_ext w); auto. cbn. rewrite Hf. exact Hfo.
Qed.

Lemma document_ok_set_focus i w :
  0 <= i < WordMetrics.getWordCount (metrics (engine w)) ->
  document_ok w -> document_ok (W.set_state (W.set_focusIndex i) w).
Proof. intros Hi. now apply document_ok_ext. Qed.

Lemma document_ok_stop w :
  document_ok w -> document_ok (WordMarqueeEngine.stop w).
Proof.
  intros H. pose proof H as (Hf & _).
  unfold WordMarqueeEngine.stop.
  destruct (intervalId (engine (W.set_state (W.set_isPlaying false) w)));
    apply (document_ok_ext w); auto.
Qed.

Lemma document_ok_goto i w :
  document_ok w -> document_ok (WordMarqueeEngine.goto_sentence i w).
Proof.
  intros H. unfold WordMarqueeEngine.goto_sentence.
  destruct (W.nth_Z _ _) as [sm|] eqn:Hn.
  - apply document_ok_set_focus;
      [|apply document_ok_set_state; [reflexivity | exact H]].
    destruct H as (_ & Hspans & _). apply Hspans.
    unfold W.nth_Z in Hn. destruct (i <? 0); [discriminate|].
    apply list_elem_of_In. eapply list_elem_of_lookup_2. exact Hn.
  - apply document_ok_set_state; [reflexivity | exact H].
Qed.

Lemma toggle_loop_focus map : forall i f s,
  focusIndex (WordMarqueeEngine.toggle_loop map i f s) = focusIndex s
  \/ exists sp, In sp map
       /\ focusIndex (WordMarqueeEngine.toggle_loop map i f s)
          = startWordIndex sp.
Proof.
  induction map as [|sm map IH]; intros i f s; cbn; [now left|].
  destruct (_ && _).
  - right. exists sm. split; [now left | reflexivity].
  - destruct (IH (i + 1) f s) as [H | (sp & Hin & H)];
      [now left | right; exists sp; split; [now right | exact H]].
Qed.

Lemma document_ok_advanceSentence w :
  document_ok w -> document_ok (WordMarqueeEngine._advanceSentence w).
Proof.
  intros H.
  destruct (Z_lt_le_dec (sentenceIndex (W.st w))
              (Z.of_nat (length (sentenceWordMap (engine w))) - 1))
    as [Hlt|Hge].
  - destruct (W.nth_Z (sentenceWordMap (engine w))
                (sentenceIndex (W.st w) + 1)) as [sm|] eqn:Hn.
    + destruct (advanceSentence_next w sm Hn) as (Hst & Hmap & Hcfg & _).
      pose proof H as (_ & Hspans & _).
      assert (Hin : In sm (sentenceWordMap (engine w))).
      { unfold W.nth_Z in Hn. destruct (_ <? 0); [discriminate|].
        apply list_elem_of_In. eapply list_elem_of_lookup_2. exact Hn. }
      assert (Hmet : metrics (engine (WordMarqueeEngine._advanceSentence w))
                     = metrics (engine w)).
      { unfold WordMarqueeEngine._advanceSentence.
        replace (_ <? _) with true by (symmetry; apply Z.ltb_lt; lia).
        cbn [W.st W.set_state W.set_engine engine state sentenceWordMap
             W.set_sentenceIndex sentenceIndex].
        change (state (engine w)) with (W.st w). rewrite Hn.
        destruct (_ && _); unfold W.install; cbn;
          now rewrite debounced_engine, render_engine. }
      apply (document_ok_ext w); auto.
      * now rewrite Hcfg.
      * rewrite Hst. cbn. now apply Hspans.
    + rewrite (advanceSentence_none w Hlt Hn).
      apply document_ok_stop, document_ok_debounced, document_ok_render.
      apply document_ok_set_state; [reflexivity | exact H].
  - rewrite advanceSentence_last by lia.
    now apply document_ok_saveState, document_ok_stop.
Qed.

Lemma document_ok_advanceWord w :
  document_ok w -> document_ok (WordMarqueeEngine._advanceWord w).
Proof.
  intros H. unfold WordMarqueeEngine._advanceWord.
  destruct (_ <? _) eqn:E.
  - apply document_ok_debounced, document_ok_render.
    apply document_ok_set_focus; [|exact H].
    apply Z.ltb_lt in E. destruct H as (Hf & _). unfold focus_ok in Hf. lia.
  - now apply document_ok_saveState, document_ok_stop.
Qed.

Lemma document_ok_start w :
  document_ok w -> document_ok (WordMarqueeEngine.start w).
Proof.
  intros H. destruct (isPlaying (W.st w)) eqn:Hp.
  - now rewrite start_playing.
  - destruct (String.eqb (mode (W.st w)) "sentence") eqn:Hm.
    + apply String.eqb_eq in Hm. rewrite start_sentence by assumption.
      apply document_ok_advanceSentence.
      apply document_ok_set_state; [reflexivity | exact H].
    + rewrite start_word by assumption.
      pose proof H as (Hf & _). apply (document_ok_ext w); auto.
Qed.

Lemma document_ok_setSpeed value w :
  document_ok w -> document_ok (WordMarqueeEngine.setSpeed value w).
Proof.
  intros H. pose proof H as (Hf & _).
  unfold WordMarqueeEngine.setSpeed. apply document_ok_saveState.
  change (W.st (W.set_config (W.set_wpm value) w)) with (W.st w).
  destruct (isPlaying (W.st w)); [|now apply (document_ok_ext w)].
  destruct (String.eqb _ _); [|now apply (document_ok_ext w)].
  unfold W.install. cbn.
  destruct (intervalId (engine w)); now apply (document_ok_ext w).
Qed.

Lemma document_ok_toggleMode w :
  document_ok w -> document_ok (WordMarqueeEngine.toggleMode w).
Proof.
  intros H. unfold WordMarqueeEngine.toggleMode.
  apply document_ok_saveState.
  assert (Hs : forall w0, document_ok w0 ->
             document_ok (if isPlaying (W.st w)
                          then WordMarqueeEngine.start w0 else w0)).
  { intros w0 H0. destruct (isPlaying (W.st w)); [|exact H0].
    now apply document_ok_start. }
  apply Hs, document_ok_render.
  pose proof (document_ok_stop w H) as Hstop.
  destruct (String.eqb _ _).
  - set (w2 := W.set_state (W.set_sentenceIndex 0)
                 (W.set_state (W.set_mode "sentence")
                    (WordMarqueeEngine.stop w))).
    assert (H2 : document_ok w2)
      by (unfold w2; repeat (apply document_ok_set_state; [reflexivity|]);
          exact Hstop).
    pose proof H2 as (Hf2 & Hspans2 & _).
    apply (document_ok_ext w2); auto.
    cbn [W.st W.set_state W.set_engine engine state].
    change (state (engine w2)) with (W.st w2).
    destruct (toggle_loop_focus (sentenceWordMap (engine w2)) 0
                (focusIndex (W.st (WordMarqueeEngine.stop w))) (W.st w2))
      as [Heq | (sp & Hin & Heq)]; rewrite Heq;
      [exact Hf2 | now apply Hspans2].
  - apply document_ok_set_state; [reflexivity | exact Hstop].
Qed.

Lemma document_ok_pages w :
  document_ok w ->
  document_ok (WordMarqueeEngine._nextPage w)
  /\ document_ok (WordMarqueeEngine._prevPage w).
Proof.
  intros H. pose proof H as (Hf & _ & Hw). unfold focus_ok in Hf.
  unfold WordMarqueeEngine._nextPage, WordMarqueeEngine._prevPage.
  pose proof (Z.div_pos (focusIndex (W.st w)) (wordsPerPage (config w))
                ltac:(lia) Hw) as Hq.
  pose proof (Z.mul_div_le (focusIndex (W.st w)) (wordsPerPage (config w))
                Hw) as Hm.
  split; destruct (String.eqb _ _);
    apply document_ok_saveState, document_ok_render;
    try (now apply document_ok_goto);
    (apply document_ok_set_focus; [|exact H]); nia.
Qed.

Lemma document_ok_wheel deltaY w :
  document_ok w -> document_ok (WordMarqueeEngine._handleWheel deltaY w).
Proof.
  intros H. pose proof H as (Hf & _). unfold focus_ok in Hf.
  unfold WordMarqueeEngine._handleWheel.
  repeat match goal with
         | |- document_ok (if ?c then _ else _) => destruct c eqn:?
         end; try exact H;
    apply document_ok_debounced, document_ok_render;
    try (now apply document_ok_goto);
    (apply document_ok_set_focus; [|exact H]);
    repeat match goal with
           | E : (_ <? _) = true |- _ => apply Z.ltb_lt in E
           end; lia.
Qed.

Lemma document_ok_clear id w : document_ok w -> document_ok (W.clear id w).
Proof. now apply document_ok_same. Qed.

Lemma document_ok_fire id w : document_ok w -> document_ok (fire id w).
Proof.
  intros H. unfold fire.
  destruct (List.find _ (timers w)) as [t|]; [|exact H].
  assert (Hc : document_ok (match timer_kind t with
                            | SetTimeout => W.clear id w
                            | SetInterval => w
                            end))
    by (destruct (timer_kind t); [exact H | now apply document_ok_clear]).
  destruct (timer_callback t).
  - now apply document_ok_advanceWord.
  - destruct (timer_kind t);
      [now apply document_ok_advanceSentence
      | now apply document_ok_advanceSentence, document_ok_clear].
  - eapply document_ok_same; [| |apply document_ok_saveState, Hc];
      reflexivity.
Qed.

Lemma document_ok_step o w : document_ok w -> document_ok (step o w).
Proof.
  intros H. destruct o; cbn.
  - now apply document_ok_start.
  - now apply document_ok_stop.
  - now apply document_ok_toggleMode.
  - unfold WordMarqueeEngine.togglePlayPause.
    destruct (isPlaying _);
      [now apply document_ok_stop | now apply document_ok_start].
  - now apply document_ok_setSpeed.
  - now apply document_ok_pages.
  - now apply document_ok_pages.
  - now apply document_ok_wheel.
  - now apply document_ok_fire.
Qed.

(** Where every span of the sentence map starts inside the document, no
    sequence of events takes the focus out of it. *)
Lemma focus_stays_in_document ops : forall w,
  document_ok w -> document_ok (run ops w).
Proof.
  unfold run. induction ops as [|o ops IH]; intros w H; cbn; [exact H|].
  apply IH, document_ok_step, H.
Qed.

Lemma constructor_fields dom cfg ws e :
  WordMarqueeEngine.constructor dom (Some cfg) (JSArray ws) = inr e ->
  ws <> []
  /\ WordMetrics.words (metrics e) = ws
  /\ sentenceWordMap e = snd (_initializeSentences ws)
  /\ state e = WordMarqueeEngine.initial_state "word".
Proof.
  unfold WordMarqueeEngine.constructor, WordMetrics.constructor.
  destruct ws as [|w ws]; [discriminate|].
  destruct (measure_el dom) as [el|]; [|discriminate].
  destruct (WordMetrics._calculateWordPositions el cfg (w :: ws) ∅)
    as [[err|ps] cache]; [discriminate|].
  destruct (RenderEngine.constructor dom _ []) as [err|r]; [discriminate|].
  destruct (_initializeSentences (w :: ws)) as [ss mp].
  intros H. injection H as <-. cbn. auto.
Qed.

(** On a document of tokens without a stop character before a quote and
    an upper-case letter the focus is an index of the document in every
    reachable state. *)
Lemma focus_in_range_on_tokens dom cfg ws e ops :
  forallb is_token ws = true ->
  stop_quote_upper (JS.chars (JS.join_space ws)) = false ->
  0 < wordsPerPage cfg ->
  WordMarqueeEngine.constructor dom (Some cfg) (JSArray ws) = inr e ->
  focus_ok (run ops (WordMarqueeEngine.boot cfg e)).
Proof.
  intros Htok HQ Hw He.
  destruct (constructor_fields dom cfg ws e He) as (Hne & Hws & Hmap & Hst).
  apply (focus_stays_in_document ops (WordMarqueeEngine.boot cfg e)).
  unfold WordMarqueeEngine.boot. apply document_ok_render.
  unfold document_ok, focus_ok, W.st, WordMetrics.getWordCount. cbn.
  rewrite Hws, Hst, Hmap. cbn.
  assert (Hlen : 0 < Z.of_nat (length ws)) by (destruct ws; [easy | cbn; lia]).
  split; [lia|]. split; [|exact Hw].
  intros sp Hin. unfold _initializeSentences in Hin. cbn [snd] in Hin.
  pose proof (map_sentences_nonempty _ 0 0 sp
                (detectSentences_nonempty _) Hin) as Hse.
  assert (Hc : 0 <= startWordIndex sp
               < 0 + total_words
                       (SentenceDetector.detectSentences (JS.join_space ws))).
  { apply (map_sentences_cover _ 0 0). exists sp. split; [exact Hin | lia]. }
  rewrite (detectSentences_words _ HQ), (join_tokens_count _ Htok) in Hc.
  lia.
Qed.

(** C4 (not met by the code): [0 <= focusIndex < wordCount] should hold
    in every reachable state. On the document of the single word
    [Yes.] + double quote + [No] the map has two spans; one mode toggle and one wheel step put
    [focusIndex] at 1 while [wordCount] is 1, and back in word mode the
    renderer finds no word to show. *)
Theorem focus_index_leaves_document :
  option_map
    (fun w0 =>
       let w := run [ToggleMode; Wheel (-1)] w0 in
       let w' := run [ToggleMode] w in
       (focusIndex (W.st w),
        WordMetrics.getWordCount (metrics (engine w)),
        RenderEngine._prepareRenderData (renderer (engine w'))
          (focusIndex (W.st w'))))
    (engine_of fallback_dom ["Yes." +:+ String JS.dquote "No"]%string)
  = Some (1, 1, inl (Error "Invalid focus word data")).
Proof.
  vm_compute. reflexivity.
Qed.

(** ** The snapshot *)

(** C8 (amended): the snapshot that [saveState] writes holds the mode,
    [focusIndex], [sentenceIndex] and the speed of the engine, and
    restoring it into any engine gives these four fields back exactly (the
    speed when it is not zero); [isPlaying] is not part of the snapshot and
    keeps the value of the engine that is restored into, and this engine
    has no [scrollOffset]. *)
Theorem snapshot_round_trip (w target : World) (book : Book) :
  currentBook w = Some book ->
  wpm (config w) <> 0 ->
  exists snap w',
    loadState (saveState w) = Some snap
    /\ get "view" snap = Some (JStr (currentView w))
    /\ get "readfast" snap
       = Some (JObj [ ("mode", JStr (mode (W.st w)));
                      ("focusIndex", JNum (focusIndex (W.st w)));
                      ("sentenceIndex", JNum (sentenceIndex (W.st w)));
                      ("wpm", JNum (wpm (config w))) ]%string)
    /\ _restoreReadFastState snap target = Some w'
    /\ mode (W.st w') = mode (W.st w)
    /\ focusIndex (W.st w') = focusIndex (W.st w)
    /\ sentenceIndex (W.st w') = sentenceIndex (W.st w)
    /\ wpm (config w') = wpm (config w)
    /\ isPlaying (W.st w') = isPlaying (W.st target).
Proof.
  intros Hbook Hwpm.
  exists (snapshot w book).
  unfold loadState, saveState. rewrite Hbook.
  unfold _restoreReadFastState, snapshot.
  cbn [get field String.eqb Ascii.eqb Bool.eqb andb sessionStorage
       W.set_sessionStorage].
  replace (wpm (config w) =? 0) with false by (symmetry; now apply Z.eqb_neq).
  eexists. repeat split; rewrite ?st_render, ?render_config; cbn;
    try reflexivity.
  destruct (sentenceIndex (W.st w) =? 0) eqn:E; [|reflexivity].
  apply Z.eqb_eq in E. now rewrite E.
Qed.

(** A state with playback on is not given back: the snapshot taken while
    playing restores a state that is not playing. *)
Lemma playing_is_not_in_the_snapshot :
  let fresh := selectBook fallback_dom a_book two_sentences
                 (page_of fallback_dom two_sentences) in
  let w := run [Start] fresh in
  currentBook w = Some a_book
  /\ W.st w = mkState "word" true 0 0
  /\ match loadState (saveState w) with
     | Some snap => option_map W.st (_restoreReadFastState snap fresh)
     | None => None
     end = Some (mkState "word" false 0 0).
Proof. cbv zeta. repeat split; vm_compute; reflexivity. Qed.

Lemma snapshot_round_trip_witness :
  let fresh := selectBook fallback_dom a_book two_sentences
                 (page_of fallback_dom two_sentences) in
  let w := run [ToggleMode; Wheel (-1); SetSpeed 300] fresh in
  W.st w = mkState "sentence" false 1 1
  /\ exists snap w',
       loadState (saveState w) = Some snap
       /\ get "view" snap = Some (JStr (currentView w))
       /\ get "readfast" snap
          = Some (JObj [ ("mode", JStr (mode (W.st w)));
                         ("focusIndex", JNum (focusIndex (W.st w)));
                         ("sentenceIndex", JNum (sentenceIndex (W.st w)));
                         ("wpm", JNum (wpm (config w))) ]%string)
       /\ _restoreReadFastState snap fresh = Some w'
       /\ mode (W.st w') = mode (W.st w)
       /\ focusIndex (W.st w') = focusIndex (W.st w)
       /\ sentenceIndex (W.st w') = sentenceIndex (W.st w)
       /\ wpm (config w') = wpm (config w)
       /\ isPlaying (W.st w') = isPlaying (W.st fresh).
Proof.
  intros fresh w. split; [vm_compute; reflexivity|].
  apply (snapshot_round_trip w fresh a_book).
  - vm_compute. reflexivity.
  - vm_compute. discriminate.
Defined.

(** ** The text of a book *)

Lemma space_is_space : JS.is_space " "%char = true.
Proof. reflexivity. Qed.

Lemma is_newline_space c : is_newline c = true -> JS.is_space c = true.
Proof.
  unfold is_newline. intros H. apply Ascii.eqb_eq in H. now subst.
Qed.

Lemma replace_runs_none p cs : forall b,
  Forall (fun c => p c = false) cs -> replace_runs p cs b = cs.
Proof.
  induction cs as [|c cs IH]; intros b H; [reflexivity|].
  inversion H as [|? ? Hc Hcs]; subst. cbn. rewrite Hc. now rewrite IH.
Qed.

Lemma replace_runs_no_newline cs : forall b,
  Forall (fun c => is_newline c = false) (replace_runs JS.is_space cs b).
Proof.
  induction cs as [|c cs IH]; intros b; cbn; [constructor|].
  destruct (JS.is_space c) eqn:Hc.
  - destruct b; [apply IH|]. constructor; [reflexivity | apply IH].
  - constructor; [|apply IH].
    destruct (is_newline c) eqn:Hn; [|reflexivity].
    apply is_newline_space in Hn. congruence.
Qed.

(** The text after the two replacements. *)
Lemma cleanText_unfold text :
  cleanText text
  = JS.trim (JS.of_chars (replace_runs JS.is_space (JS.chars text) false)).
Proof.
  unfold cleanText. now rewrite replace_runs_none by apply replace_runs_no_newline.
Qed.

Lemma join_space_chars ws :
  JS.chars (JS.join_space (List.map JS.of_chars ws)) = join_chars ws.
Proof.
  unfold JS.join_space.
  induction ws as [|w [|w' rest] IH]; [reflexivity | apply chars_of_chars |].
  change (JS.chars
            (JS.of_chars w +:+ " " +:+
             String.concat " " (List.map JS.of_chars (w' :: rest)))
          = w ++ " "%char :: join_chars (w' :: rest)).
  unfold JS.chars in *. rewrite !chars_app, IH.
  fold (JS.chars (JS.of_chars w)). now rewrite chars_of_chars.
Qed.

Lemma snoc_not_nil {A} (l : list A) x : l ++ [x] <> [].
Proof. now destruct l. Qed.

Lemma words_of_nonempty cs : forall cur, Forall (fun w => w <> []) (words_of cs cur).
Proof.
  induction cs as [|c cs IH]; intros cur; cbn.
  - destruct cur; constructor; [discriminate | constructor].
  - destruct (JS.is_space c); [|apply IH].
    destruct cur; [apply IH|]. constructor; [discriminate | apply IH].
Qed.

Lemma join_chars_nil ws :
  Forall (fun w => w <> []) ws -> join_chars ws = [] -> ws = [].
Proof.
  destruct ws as [|w [|w' rest]]; intros H E; [reflexivity | |].
  - inversion H; subst. cbn in E. congruence.
  - cbn in E. now destruct w.
Qed.

Lemma spaced_not_started cs : forall g g',
  spaced cs false g = spaced cs false g'.
Proof.
  induction cs as [|c cs IH]; intros g g'; cbn; [reflexivity|].
  destruct (JS.is_space c); [apply IH | reflexivity].
Qed.

Lemma spaced_after_gap cs :
  spaced cs true true
  = match spaced cs false false with [] => [] | r => " "%char :: r end.
Proof.
  induction cs as [|c cs IH]; cbn; [reflexivity|].
  destruct (JS.is_space c); [|reflexivity].
  now rewrite IH, (spaced_not_started cs true false).
Qed.

Lemma join_words_of cs : forall cur,
  join_chars (words_of cs cur)
  = match cur with
    | [] => spaced cs false false
    | _ => cur ++ spaced cs true false
    end.
Proof.
  induction cs as [|c cs IH]; intros cur.
  - destruct cur; cbn; [reflexivity | now rewrite app_nil_r].
  - cbn [words_of spaced]. destruct (JS.is_space c) eqn:Hc.
    + destruct cur as [|a cur].
      * rewrite IH. apply spaced_not_started.
      * rewrite spaced_after_gap. specialize (IH []). cbn beta iota in IH.
        destruct (words_of cs []) as [|w rest] eqn:Hw.
        -- cbn in IH. rewrite <- IH. cbn. now rewrite app_nil_r.
        -- change (join_chars ((a :: cur) :: w :: rest))
             with ((a :: cur) ++ " "%char :: join_chars (w :: rest)).
           rewrite IH.
           destruct (spaced cs false false) eqn:Hs; [|reflexivity].
           exfalso. pose proof (words_of_nonempty cs []) as Hne.
           rewrite Hw in Hne.
           now pose proof (join_chars_nil _ Hne IH).
    + rewrite IH. cbn [andb].
      destruct (cur ++ [c]) eqn:E; [now apply snoc_not_nil in E|].
      rewrite <- E. destruct cur; cbn; [reflexivity|].
      now rewrite <- app_assoc.
Qed.

Lemma words_of_spaced cs : forall cur,
  words_of (match cur with
            | [] => spaced cs false false
            | _ => spaced cs true false
            end) cur
  = words_of cs cur.
Proof.
  induction cs as [|c cs IH]; intros cur.
  - now destruct cur.
  - cbn [spaced words_of]. destruct (JS.is_space c) eqn:Hc.
    + destruct cur as [|a cur].
      * rewrite (spaced_not_started cs true false). apply (IH []).
      * rewrite spaced_after_gap. specialize (IH []). cbn beta iota in IH.
        destruct (spaced cs false false) as [|x r].
        -- cbn in IH. cbn. now rewrite <- IH.
        -- change (words_of (" "%char :: x :: r) (a :: cur))
             with ((a :: cur) :: words_of (x :: r) []).
           now rewrite IH.
    + cbn [andb]. specialize (IH (cur ++ [c])).
      destruct (cur ++ [c]) eqn:E; [now apply snoc_not_nil in E|].
      rewrite <- E in *. rewrite <- IH.
      destruct cur; cbn [words_of]; now rewrite Hc.
Qed.

Lemma spaced_spaces cs : forall s g,
  Forall (fun c => JS.is_space c = true -> c = " "%char) (spaced cs s g).
Proof.
  induction cs as [|c cs IH]; intros s g; cbn; [constructor|].
  destruct (JS.is_space c) eqn:Hc; [apply IH|].
  destruct (s && g).
  - constructor; [reflexivity|]. constructor; [congruence | apply IH].
  - constructor; [congruence | apply IH].
Qed.

Lemma of_chars_nonempty_iff cur :
  JS.nonempty (JS.of_chars cur) = match cur with [] => false | _ => true end.
Proof. now destruct cur. Qed.

Lemma split_space_words X : forall cur,
  Forall (fun c => JS.is_space c = true -> c = " "%char) X ->
  List.filter JS.nonempty (split_space_go X cur)
  = List.map JS.of_chars (words_of X cur).
Proof.
  induction X as [|c X IH]; intros cur H.
  - cbn [split_space_go words_of List.filter].
    rewrite of_chars_nonempty_iff. now destruct cur.
  - inversion H as [|? ? Hc HX]; subst. cbn [split_space_go words_of].
    destruct (Ascii.eqb c " ") eqn:E.
    + apply Ascii.eqb_eq in E; subst. rewrite space_is_space.
      cbn [List.filter]. rewrite of_chars_nonempty_iff.
      destruct cur; cbn [List.map]; now rewrite IH.
    + destruct (JS.is_space c) eqn:Hs.
      * specialize (Hc eq_refl). subst. now rewrite Ascii.eqb_refl in E.
      * now apply IH.
Qed.

Lemma split_go_words cs : forall cur in_run,
  (in_run = true -> cur = []) ->
  List.filter JS.nonempty (JS.split_go cs cur in_run)
  = List.map JS.of_chars (words_of cs cur).
Proof.
  induction cs as [|c cs IH]; intros cur in_run H.
  - cbn [JS.split_go words_of List.filter].
    rewrite of_chars_nonempty_iff. now destruct cur.
  - cbn [JS.split_go words_of]. destruct (JS.is_space c) eqn:Hc.
    + destruct in_run.
      * rewrite (H eq_refl). now apply IH.
      * cbn [List.filter]. rewrite of_chars_nonempty_iff.
        destruct cur; cbn [List.map]; now rewrite IH.
    + now apply IH.
Qed.

Lemma split_words_words s :
  JS.split_words s = List.map JS.of_chars (words_of (JS.chars s) []).
Proof. unfold JS.split_words, JS.split_ws. now apply split_go_words. Qed.

Lemma words_of_tokens cs : forall cur,
  forallb (fun c => negb (JS.is_space c)) cur = true ->
  forallb is_token (List.map JS.of_chars (words_of cs cur)) = true.
Proof.
  assert (Htok : forall w, w <> [] ->
            forallb (fun c => negb (JS.is_space c)) w = true ->
            is_token (JS.of_chars w) = true).
  { intros w Hw Hs. unfold is_token. rewrite chars_of_chars, Hs.
    rewrite of_chars_nonempty_iff. now destruct w. }
  induction cs as [|c cs IH]; intros cur Hcur.
  - cbn. destruct cur; [reflexivity|]. cbn [List.map forallb].
    now rewrite Htok.
  - cbn [words_of]. destruct (JS.is_space c) eqn:Hc.
    + destruct cur; [now apply IH|]. cbn [List.map forallb].
      rewrite Htok by easy. now apply IH.
    + apply IH. rewrite forallb_app, Hcur. cbn. now rewrite Hc.
Qed.

Lemma drop_spaces_snoc ys c :
  JS.drop_spaces (ys ++ [c])
  = match JS.drop_spaces ys with
    | [] => if JS.is_space c then [] else [c]
    | r => r ++ [c]
    end.
Proof.
  induction ys as [|y ys IH]; cbn.
  - now destruct (JS.is_space c).
  - destruct (JS.is_space y); [exact IH | reflexivity].
Qed.

Lemma strip_end_spec xs : rev (JS.drop_spaces (rev xs)) = strip_end xs.
Proof.
  induction xs as [|c xs IH]; [reflexivity|].
  cbn [rev strip_end]. rewrite drop_spaces_snoc, <- IH.
  destruct (JS.drop_spaces (rev xs)) as [|a r] eqn:E.
  - cbn. now destruct (JS.is_space c).
  - rewrite rev_app_distr. cbn [rev app].
    destruct (rev r ++ [a]) eqn:E'; [now apply snoc_not_nil in E'|].
    reflexivity.
Qed.

Lemma drop_spaces_replace cs : forall b,
  JS.drop_spaces (replace_runs JS.is_space cs b)
  = replace_runs JS.is_space (JS.drop_spaces cs) false.
Proof.
  induction cs as [|c cs IH]; intros b; [reflexivity|].
  cbn [replace_runs JS.drop_spaces]. destruct (JS.is_space c) eqn:Hc.
  - destruct b; [apply IH|].
    cbn [JS.drop_spaces]. rewrite space_is_space. apply IH.
  - cbn [JS.drop_spaces replace_runs]. now rewrite Hc.
Qed.

Lemma strip_replace cs :
  strip_end (replace_runs JS.is_space cs false) = spaced cs true false
  /\ spaced cs true true
     = match strip_end (replace_runs JS.is_space cs true) with
       | [] => []
       | r => " "%char :: r
       end.
Proof.
  induction cs as [|c cs [IH1 IH2]]; [split; reflexivity|].
  cbn [replace_runs spaced]. destruct (JS.is_space c) eqn:Hc.
  - split; [|exact IH2].
    cbn [strip_end]. rewrite IH2, space_is_space.
    now destruct (strip_end (replace_runs JS.is_space cs true)).
  - cbn [andb strip_end]. rewrite IH1, Hc.
    split; now destruct (spaced cs true false).
Qed.

Lemma strip_replace_front cs : forall g,
  strip_end (replace_runs JS.is_space (JS.drop_spaces cs) false)
  = spaced cs false g.
Proof.
  induction cs as [|c cs IH]; intros g; [reflexivity|].
  cbn [JS.drop_spaces spaced]. destruct (JS.is_space c) eqn:Hc; [apply IH|].
  cbn [replace_runs andb]. rewrite Hc. cbn [strip_end]. rewrite Hc.
  rewrite (proj1 (strip_replace cs)).
  now destruct (spaced cs true false).
Qed.

Lemma cleanText_chars text :
  JS.chars (cleanText text) = spaced (JS.chars text) false false.
Proof.
  rewrite cleanText_unfold. unfold JS.trim.
  rewrite !chars_of_chars, strip_end_spec, drop_spaces_replace.
  apply strip_replace_front.
Qed.

Lemma of_chars_chars s : JS.of_chars (JS.chars s) = s.
Proof. apply string_of_list_ascii_of_string. Qed.

(** X1: the words that [selectBook] hands to the engine are the
    whitespace-delimited words of the extracted text: [cleanText] followed
    by the split on the space character gives the same words as a split of
    the raw text on runs of whitespace; each of them is a token; joined
    with spaces they give the cleaned text back; cleaning twice is
    cleaning once; and there is no word exactly when the text is blank. *)
Theorem book_words_of_clean_text (text : string) :
  let ws := book_words (cleanText text) in
  ws = JS.split_words text
  /\ forallb is_token ws = true
  /\ JS.join_space ws = cleanText text
  /\ cleanText (cleanText text) = cleanText text
  /\ (ws = [] <-> JS.trim text = ""%string).
Proof.
  cbv zeta.
  assert (Hws : book_words (cleanText text) = JS.split_words text).
  { unfold book_words. rewrite cleanText_chars.
    rewrite split_space_words by apply spaced_spaces.
    rewrite (words_of_spaced (JS.chars text) []).
    symmetry. apply split_words_words. }
  assert (Hjoin : JS.join_space (JS.split_words text) = cleanText text).
  { apply chars_inj. fold (JS.chars (JS.join_space (JS.split_words text))).
    fold (JS.chars (cleanText text)).
    rewrite split_words_words, join_space_chars, cleanText_chars.
    apply (join_words_of (JS.chars text) []). }
  rewrite Hws. split; [reflexivity|].
  split; [rewrite split_words_words; now apply words_of_tokens|].
  split; [exact Hjoin|].
  split.
  - apply chars_inj. fold (JS.chars (cleanText (cleanText text))).
    fold (JS.chars (cleanText text)).
    rewrite (cleanText_chars (cleanText text)), cleanText_chars.
    rewrite <- (join_words_of (spaced (JS.chars text) false false) []).
    rewrite (words_of_spaced (JS.chars text) []).
    apply (join_words_of (JS.chars text) []).
  - pose proof (split_words_count text) as Hc.
    split.
    + intros E. rewrite E in Hc. cbn in Hc.
      destruct (JS.trim text) eqn:Et; [reflexivity|].
      assert (Hl : (0 < String.length (JS.trim text))%nat)
        by (rewrite Et; cbn; lia).
      apply trim_nonempty_count in Hl. lia.
    + intros E. apply length_zero_iff_nil. rewrite Hc.
      apply trim_empty_count. now rewrite E.
Qed.

(** ** The shape of the sentences *)

Lemma nonspace_app a b : nonspace (a ++ b) = nonspace a ++ nonspace b.
Proof. apply List.filter_app. Qed.

Lemma nonspace_drop_spaces cs : nonspace (JS.drop_spaces cs) = nonspace cs.
Proof.
  induction cs as [|c cs IH]; [reflexivity|]. cbn.
  destruct (JS.is_space c) eqn:Hc; cbn; [exact IH | now rewrite Hc].
Qed.

Lemma nonspace_rev cs : nonspace (rev cs) = rev (nonspace cs).
Proof.
  induction cs as [|c cs IH]; [reflexivity|]. cbn [rev].
  rewrite nonspace_app, IH. cbn.
  destruct (negb (JS.is_space c)); cbn; [reflexivity | now rewrite app_nil_r].
Qed.

Lemma nonspace_trim s : nonspace (JS.chars (JS.trim s)) = nonspace (JS.chars s).
Proof.
  unfold JS.trim. rewrite chars_of_chars, nonspace_rev, nonspace_drop_spaces.
  now rewrite nonspace_rev, rev_involutive, nonspace_drop_spaces.
Qed.

Lemma trim_blank s :
  String.length (JS.trim s) = 0%nat -> nonspace (JS.chars s) = [].
Proof.
  intros H. rewrite <- nonspace_trim.
  destruct (JS.trim s); [reflexivity | discriminate].
Qed.

Lemma sentence_chars_snoc ss s :
  sentence_chars (ss ++ [s]) = sentence_chars ss ++ nonspace (JS.chars s).
Proof.
  unfold sentence_chars.
  rewrite List.map_app, List.concat_app, nonspace_app. cbn.
  now rewrite app_nil_r.
Qed.

(** The loop of [detectSentences] keeps the characters of the text that
    are not whitespace, in their order. *)
Lemma detect_loop_chars text : forall fuel i cur sents sents' cur',
  (length (JS.chars text) <= i + fuel)%nat ->
  SentenceDetector.detect_loop fuel text i cur sents = (sents', cur') ->
  sentence_chars sents' ++ nonspace (JS.chars cur')
  = sentence_chars sents
    ++ nonspace (JS.chars cur ++ drop i (JS.chars text)).
Proof.
  induction fuel as [|fuel IH];
    intros i cur sents sents' cur' Hlen H; cbn in H.
  - injection H as <- <-. rewrite drop_ge by lia. now rewrite app_nil_r.
  - unfold JS.at_ in H. rewrite get_chars in H.
    destruct (JS.chars text !! i) as [c|] eqn:Hc.
    + pose proof (drop_S _ _ _ Hc) as Hdrop.
      replace (i + 1)%nat with (S i) in H by lia.
      destruct (SentenceDetector.is_stop c
                && SentenceDetector.boundary text i (cur +:+ String c ""))
        eqn:Hb.
      * apply IH in H; [|lia]. rewrite H.
        rewrite sentence_chars_snoc, nonspace_trim, chars_snoc, Hdrop.
        cbn [JS.chars list_ascii_of_string app].
        rewrite <- !app_assoc. f_equal.
        rewrite <- nonspace_app. now rewrite <- app_assoc.
      * apply IH in H; [|lia]. rewrite H, chars_snoc, Hdrop.
        now rewrite <- app_assoc.
    + injection H as <- <-. apply lookup_ge_None in Hc.
      rewrite drop_ge by lia. now rewrite app_nil_r.
Qed.

Lemma detectSentences_chars text :
  sentence_chars (SentenceDetector.detectSentences text)
  = nonspace (JS.chars text).
Proof.
  unfold SentenceDetector.detectSentences.
  destruct (String.eqb text "" || Nat.eqb (String.length (JS.trim text)) 0)
    eqn:He.
  - apply orb_prop in He. destruct He as [He|He].
    + apply String.eqb_eq in He. now subst.
    + apply Nat.eqb_eq in He. now rewrite trim_blank.
  - destruct (SentenceDetector.detect_loop _ text 0 "" [])
      as [sents cur] eqn:Hloop.
    apply detect_loop_chars in Hloop; [|rewrite chars_length; lia].
    cbn in Hloop. rewrite drop_0 in Hloop.
    destruct (0 <? String.length (JS.trim cur))%nat eqn:Hc.
    + now rewrite sentence_chars_snoc, nonspace_trim.
    + apply Nat.ltb_ge in Hc.
      rewrite trim_blank in Hloop by lia. now rewrite app_nil_r in Hloop.
Qed.

(** X2: the sentences of a text hold the characters of the text that are
    not whitespace, all of them and in their order: [detectSentences]
    drops and adds nothing but whitespace; and it returns no sentence
    exactly when the text is blank. *)
Theorem sentences_keep_the_text (text : string) :
  nonspace (List.concat
              (List.map JS.chars (SentenceDetector.detectSentences text)))
  = nonspace (JS.chars text)
  /\ (SentenceDetector.detectSentences text = []
      <-> JS.trim text = ""%string).
Proof.
  pose proof (detectSentences_chars text) as H. split; [exact H|].
  split.
  - intros E. rewrite E in H. cbn in H.
    destruct (JS.trim text) eqn:Et; [reflexivity|].
    pose proof (nonspace_trim text) as Hn. rewrite <- H, Et in Hn.
    exfalso. clear H E.
    assert (Hl : (0 < String.length (JS.trim text))%nat)
      by (rewrite Et; cbn; lia).
    apply trim_nonempty_count in Hl.
    assert (Hz : forall cs w, nonspace cs = [] -> count_words cs w = 0%nat).
    { induction cs as [|c cs IH]; intros w Hcs; [reflexivity|].
      cbn in *. destruct (JS.is_space c); cbn in Hcs; [now apply IH|].
      discriminate. }
    rewrite <- count_words_trim, Et in Hl.
    rewrite (Hz _ false Hn) in Hl. lia.
  - intros E. unfold SentenceDetector.detectSentences.
    rewrite E. cbn. now rewrite orb_true_r.
Qed.

Lemma strip_end_idem xs : strip_end (strip_end xs) = strip_end xs.
Proof.
  induction xs as [|c xs IH]; [reflexivity|]. cbn [strip_end].
  destruct (strip_end xs) as [|a r] eqn:E.
  - destruct (JS.is_space c) eqn:Hc; [reflexivity|]. cbn. now rewrite Hc.
  - cbn [strip_end] in *. now rewrite IH.
Qed.

Lemma drop_spaces_head cs :
  match JS.drop_spaces cs with
  | [] => True
  | d :: _ => JS.is_space d = false
  end.
Proof.
  induction cs as [|c cs IH]; [exact I|]. cbn.
  destruct (JS.is_space c) eqn:Hc; [exact IH | exact Hc].
Qed.

Lemma strip_end_head d ds :
  JS.is_space d = false -> exists r, strip_end (d :: ds) = d :: r.
Proof.
  intros Hd. cbn [strip_end]. rewrite Hd.
  destruct (strip_end ds); eauto.
Qed.

Lemma trim_chars s :
  JS.chars (JS.trim s) = strip_end (JS.drop_spaces (JS.chars s)).
Proof. unfold JS.trim. now rewrite chars_of_chars, strip_end_spec. Qed.

Lemma trim_idem s : JS.trim (JS.trim s) = JS.trim s.
Proof.
  apply chars_inj. fold (JS.chars (JS.trim (JS.trim s))).
  fold (JS.chars (JS.trim s)).
  rewrite (trim_chars (JS.trim s)), trim_chars.
  pose proof (drop_spaces_head (JS.chars s)) as Hh.
  destruct (JS.drop_spaces (JS.chars s)) as [|d ds]; [reflexivity|].
  destruct (strip_end_head d ds Hh) as [r Hr]. rewrite Hr.
  cbn [JS.drop_spaces]. rewrite Hh, <- Hr. apply strip_end_idem.
Qed.

Lemma strip_end_snoc xs c :
  JS.is_space c = false -> strip_end (xs ++ [c]) = xs ++ [c].
Proof.
  intros Hc. induction xs as [|x xs IH]; cbn; [now rewrite Hc|].
  rewrite IH. now destruct (xs ++ [c]) eqn:E; [apply snoc_not_nil in E|].
Qed.

(** A sentence that is closed at a stop character ends with it. *)
Lemma trim_snoc_stop cur c :
  SentenceDetector.is_stop c = true ->
  ends_with_stop (JS.trim (cur +:+ String c "")) = true.
Proof.
  intros Hs. pose proof (is_stop_not_space c Hs) as Hc.
  unfold ends_with_stop. rewrite trim_chars, chars_snoc, drop_spaces_snoc.
  destruct (JS.drop_spaces (JS.chars cur)) as [|a r].
  - rewrite Hc. cbn. now rewrite Hc.
  - rewrite (strip_end_snoc (a :: r) c Hc), rev_app_distr. exact Hs.
Qed.

(** Every sentence that the loop closes satisfies what holds at each
    boundary. *)
Lemma detect_loop_closed text (P : string -> Prop) :
  (forall (i : nat) cur c,
     SentenceDetector.is_stop c = true ->
     SentenceDetector.boundary text i (cur +:+ String c "") = true ->
     P (JS.trim (cur +:+ String c ""))) ->
  forall fuel i cur sents sents' cur',
    Forall P sents ->
    SentenceDetector.detect_loop fuel text i cur sents = (sents', cur') ->
    Forall P sents'.
Proof.
  intros HP. induction fuel as [|fuel IH];
    intros i cur sents sents' cur' Hall H; cbn in H.
  - now injection H as <- <-.
  - destruct (JS.at_ text i) as [c|]; [|now injection H as <- <-].
    destruct (SentenceDetector.is_stop c
              && SentenceDetector.boundary text i (cur +:+ String c ""))
      eqn:Hb.
    + apply andb_prop in Hb. destruct Hb as [Hstop Hb].
      apply IH in H; [exact H|].
      apply Forall_app. split; [exact Hall|].
      constructor; [now apply (HP i)|constructor].
    + now apply IH in H.
Qed.

Lemma boundary_not_abbreviation text i cur :
  SentenceDetector.boundary text i cur = true ->
  last_word_is_abbreviation (JS.trim cur) = false.
Proof.
  unfold SentenceDetector.boundary, last_word_is_abbreviation.
  destruct (bool_decide _); [discriminate | reflexivity].
Qed.

(** X3: every sentence that [detectSentences] returns is not empty and
    carries no whitespace at its ends; every sentence but the last one
    ends with a stop character, and its last word is not one of the
    abbreviations. *)
Theorem sentences_are_closed (text : string) :
  let ss := SentenceDetector.detectSentences text in
  Forall (fun s => s <> ""%string /\ JS.trim s = s) ss
  /\ (forall (k : nat) s,
        ss !! k = Some s -> (S k < length ss)%nat ->
        ends_with_stop s = true /\ last_word_is_abbreviation s = false).
Proof.
  cbv zeta. split.
  - pose proof (detectSentences_nonempty text) as Hne.
    assert (Htrim : Forall (fun s => JS.trim s = s)
                      (SentenceDetector.detectSentences text)).
    { unfold SentenceDetector.detectSentences.
      destruct (_ || _); [constructor|].
      destruct (SentenceDetector.detect_loop _ text 0 "" [])
        as [sents cur] eqn:Hloop.
      apply (detect_loop_closed text (fun s => JS.trim s = s)) in Hloop;
        [|intros; apply trim_idem|constructor].
      destruct (0 <? String.length (JS.trim cur))%nat; [|exact Hloop].
      apply Forall_app. split; [exact Hloop|].
      constructor; [apply trim_idem | constructor]. }
    rewrite Forall_forall in *. intros s Hs. split; [|now apply Htrim].
    specialize (Hne s Hs). intros ->. cbn in Hne. lia.
  - intros k s Hk Hlt. revert Hk Hlt.
    unfold SentenceDetector.detectSentences.
    destruct (_ || _); [intros Hk; now rewrite lookup_nil in Hk|].
    destruct (SentenceDetector.detect_loop _ text 0 "" [])
      as [sents cur] eqn:Hloop.
    apply (detect_loop_closed text
             (fun s => ends_with_stop s = true
                       /\ last_word_is_abbreviation s = false)) in Hloop;
      [| |constructor].
    + assert (Hin : forall l, l !! k = Some s ->
                (S k < length l)%nat \/ l = sents ->
                (l = sents \/ l = sents ++ [JS.trim cur]) ->
                sents !! k = Some s).
      { intros l Hl Hlen [->| ->]; [exact Hl|].
        rewrite lookup_app_l in Hl; [exact Hl|].
        destruct Hlen as [Hlen|Heq].
        - rewrite length_app in Hlen. cbn in Hlen. lia.
        - exfalso. apply (f_equal (@length _)) in Heq.
          rewrite length_app in Heq. cbn in Heq. lia. }
      intros Hk Hlt.
      assert (Hs : sents !! k = Some s).
      { destruct (0 <? String.length (JS.trim cur))%nat.
        - apply (Hin _ Hk); auto.
        - exact Hk. }
      rewrite Forall_forall in Hloop. apply Hloop.
      eapply list_elem_of_lookup_2, Hs.
    + intros i c0 c Hstop Hb. split.
      * now apply trim_snoc_stop.
      * now apply (boundary_not_abbreviation text i).
Qed.

(** ** The smooth variant of the engine *)

Lemma increasing_later rest : forall p e,
  increasing_centers (p :: rest) -> In e rest ->
  (centerPosition p < centerPosition e)%Q.
Proof.
  induction rest as [|q rest IH]; intros p e H Hin; [destruct Hin|].
  destruct H as [Hpq H]. destruct Hin as [->|Hin]; [exact Hpq|].
  specialize (IH q e H Hin). lra.
Qed.

Lemma increasing_tail p rest :
  increasing_centers (p :: rest) -> increasing_centers rest.
Proof. destruct rest; [easy|]. now intros [_ H]. Qed.

Lemma increasing_lookup ps : forall (i j : nat) e e',
  increasing_centers ps -> (i < j)%nat ->
  ps !! i = Some e -> ps !! j = Some e' ->
  (centerPosition e < centerPosition e')%Q.
Proof.
  induction ps as [|p ps IH]; intros i j e e' H Hij Hi Hj;
    [now rewrite lookup_nil in Hi|].
  destruct j as [|j]; [lia|]. cbn in Hj.
  destruct i as [|i].
  - cbn in Hi. injection Hi as ->.
    apply (increasing_later ps); [exact H|].
    apply list_elem_of_In. eapply list_elem_of_lookup_2, Hj.
  - cbn in Hi. apply (IH i j); [now apply increasing_tail in H|lia|easy|easy].
Qed.

(** The loop of [findClosestWordIndex] ends on a nearest word, the first
    of them, when the centres increase. *)
Lemma closest_loop_nearest s rest : forall p i0,
  increasing_centers (p :: rest) ->
  exists (n : nat) q,
    Smooth.closest_loop s rest (i0 + 1) (Smooth.distance s p) i0
      = i0 + Z.of_nat n
    /\ (p :: rest) !! n = Some q
    /\ (forall (j : nat) e, (p :: rest) !! j = Some e ->
          (Smooth.distance s q <= Smooth.distance s e)%Q)
    /\ (forall (j : nat) e, (j < n)%nat -> (p :: rest) !! j = Some e ->
          (Smooth.distance s q < Smooth.distance s e)%Q).
Proof.
  induction rest as [|p' rest IH]; intros p i0 Hinc.
  - exists 0%nat, p. cbn. repeat split; [f_equal; lia| |intros; lia].
    intros [|j] e He; cbn in He; [|destruct j; discriminate].
    injection He as ->. apply Qle_refl.
  - cbn [Smooth.closest_loop].
    destruct (Qlt_le_dec (Smooth.distance s p') (Smooth.distance s p))
      as [Hlt|Hge].
    + destruct (IH p' (i0 + 1) (increasing_tail _ _ Hinc))
        as (n & q & Hr & Hq & Hall & Hstrict).
      exists (S n), q. rewrite Hr.
      pose proof (Hall 0%nat p' eq_refl) as H0.
      repeat split; [lia | exact Hq | |].
      * intros [|j] e He; cbn in He; [|now apply (Hall j)].
        injection He as <-. lra.
      * intros [|j] e Hj He; cbn in He; [|apply (Hstrict j); [lia|easy]].
        injection He as <-. lra.
    + exists 0%nat, p. repeat split; [lia | |intros; lia].
      intros [|j] e He; cbn in He; [injection He as ->; apply Qle_refl|].
      assert (Hpe : (centerPosition p' <= centerPosition e)%Q).
      { destruct j as [|j]; cbn in He; [injection He as ->; apply Qle_refl|].
        apply Qlt_le_weak.
        apply (increasing_later rest p' e);
          [now apply increasing_tail in Hinc|].
        apply list_elem_of_In. eapply list_elem_of_lookup_2, He. }
      destruct Hinc as [Hpp' _].
      unfold Smooth.distance in *. qabs.
Qed.

Lemma findClosest_nearest (scrollOffset : Q) (m : WordMetrics.t) :
  WordMetrics.wordPositions m <> [] ->
  increasing_centers (WordMetrics.wordPositions m) ->
  exists (k : nat) p,
    Smooth.findClosestWordIndex scrollOffset m = inr (Z.of_nat k)
    /\ WordMetrics.wordPositions m !! k = Some p
    /\ (forall (j : nat) q,
          WordMetrics.wordPositions m !! j = Some q ->
          (Smooth.distance scrollOffset p <= Smooth.distance scrollOffset q)%Q)
    /\ (forall (j : nat) q,
          (j < k)%nat -> WordMetrics.wordPositions m !! j = Some q ->
          (Smooth.distance scrollOffset p < Smooth.distance scrollOffset q)%Q).
Proof.
  unfold Smooth.findClosestWordIndex. intros Hne Hinc.
  destruct (WordMetrics.wordPositions m) as [|p0 rest]; [easy|].
  destruct (closest_loop_nearest scrollOffset rest p0 0 Hinc)
    as (n & q & Hr & Hq & Hall & Hstrict).
  exists n, q. change (0 + 1) with 1 in Hr. rewrite Hr.
  split; [f_equal; lia|]. repeat split; [exact Hq | exact Hall | exact Hstrict].
Qed.

Lemma distance_self p : (Smooth.distance (centerPosition p) p == 0)%Q.
Proof. unfold Smooth.distance. qabs. Qed.

Lemma findClosest_center (m : WordMetrics.t) (i : nat) p :
  increasing_centers (WordMetrics.wordPositions m) ->
  WordMetrics.wordPositions m !! i = Some p ->
  Smooth.findClosestWordIndex (centerPosition p) m = inr (Z.of_nat i).
Proof.
  intros Hinc Hp.
  assert (Hne : WordMetrics.wordPositions m <> [])
    by (intros E; now rewrite E in Hp).
  destruct (findClosest_nearest (centerPosition p) m Hne Hinc)
    as (k & q & Hr & Hq & Hall & _).
  rewrite Hr. do 2 f_equal.
  specialize (Hall i p Hp). rewrite distance_self in Hall.
  destruct (Nat.lt_trichotomy k i) as [Hlt|[->|Hgt]]; [|reflexivity|].
  - pose proof (increasing_lookup _ k i q p Hinc Hlt Hq Hp).
    unfold Smooth.distance in Hall. exfalso. qabs.
  - pose proof (increasing_lookup _ i k p q Hinc Hgt Hp Hq).
    unfold Smooth.distance in Hall. exfalso. qabs.
Qed.

(** X4: when the centres of the words increase strictly (the order of
    the layout), [findClosestWordIndex] returns the index of a word whose
    centre is nearest to the scroll offset among all the words of the
    document, and every earlier word is strictly farther; in particular
    the word closest to the centre of a word is that word. *)
Theorem closest_word_is_nearest (scrollOffset : Q) (m : WordMetrics.t) :
  WordMetrics.wordPositions m <> [] ->
  increasing_centers (WordMetrics.wordPositions m) ->
  (exists (k : nat) p,
     Smooth.findClosestWordIndex scrollOffset m = inr (Z.of_nat k)
     /\ WordMetrics.wordPositions m !! k = Some p
     /\ (forall (j : nat) q,
           WordMetrics.wordPositions m !! j = Some q ->
           (Smooth.distance scrollOffset p
            <= Smooth.distance scrollOffset q)%Q)
     /\ (forall (j : nat) q,
           (j < k)%nat -> WordMetrics.wordPositions m !! j = Some q ->
           (Smooth.distance scrollOffset p
            < Smooth.distance scrollOffset q)%Q))
  /\ (forall (i : nat) p,
        WordMetrics.wordPositions m !! i = Some p ->
        Smooth.findClosestWordIndex (centerPosition p) m
          = inr (Z.of_nat i)).
Proof.
  intros Hne Hinc. split; [now apply findClosest_nearest|].
  intros i p Hp. now apply findClosest_center.
Qed.

Lemma closest_word_is_nearest_witness :
  (exists (k : nat) p,
     Smooth.findClosestWordIndex 40 three_words = inr (Z.of_nat k)
     /\ WordMetrics.wordPositions three_words !! k = Some p
     /\ (forall (j : nat) q,
           WordMetrics.wordPositions three_words !! j = Some q ->
           (Smooth.distance 40 p <= Smooth.distance 40 q)%Q)
     /\ (forall (j : nat) q,
           (j < k)%nat ->
           WordMetrics.wordPositions three_words !! j = Some q ->
           (Smooth.distance 40 p < Smooth.distance 40 q)%Q))
  /\ (forall (i : nat) p,
        WordMetrics.wordPositions three_words !! i = Some p ->
        Smooth.findClosestWordIndex (centerPosition p) three_words
          = inr (Z.of_nat i)).
Proof.
  apply (closest_word_is_nearest 40 three_words).
  - vm_compute. discriminate.
  - vm_compute. repeat split; reflexivity.
Defined.

Lemma Qle_bool_false x y : Qle_bool x y = false -> (y < x)%Q.
Proof.
  intros H. apply Qnot_le_lt. intros Hle.
  apply Qle_bool_iff in Hle. congruence.
Qed.

(** The loop of [toggleMode] keeps the focus when the first centre is
    past the offset, and otherwise ends on the last word of the first
    run of words whose centres are not past the offset. *)
Lemma toggle_loop_spec s ps : forall i acc,
  (Smooth.toggle_loop s ps i acc = acc
   /\ match ps with
      | [] => True
      | p :: _ => (s < centerPosition p)%Q
      end)
  \/ exists (n : nat) q,
       Smooth.toggle_loop s ps i acc = i + Z.of_nat n
       /\ ps !! n = Some q
       /\ (centerPosition q <= s)%Q
       /\ match ps !! S n with
          | Some e => (s < centerPosition e)%Q
          | None => True
          end.
Proof.
  induction ps as [|p rest IH]; intros i acc; [now left|].
  cbn [Smooth.toggle_loop].
  destruct (Qle_bool (centerPosition p) s) eqn:E.
  - apply Qle_bool_iff in E. right.
    destruct (IH (i + 1) i) as [[Hr Hh] | (n & q & Hr & Hq & Hle & Hnext)].
    + exists 0%nat, p. rewrite Hr. repeat split; [lia | exact E |].
      destruct rest; [exact I | exact Hh].
    + exists (S n), q. rewrite Hr. repeat split; [lia | exact Hq | exact Hle |].
      exact Hnext.
  - left. split; [reflexivity | now apply Qle_bool_false].
Qed.

Lemma getWordPositionData_nat m (i : nat) :
  WordMetrics.getWordPositionData m (Z.of_nat i)
  = WordMetrics.wordPositions m !! i.
Proof.
  unfold WordMetrics.getWordPositionData.
  destruct (Z.ltb_spec (Z.of_nat i) 0) as [E1|E1]; [lia|].
  destruct (Z.leb_spec (Z.of_nat (length (WordMetrics.wordPositions m)))
              (Z.of_nat i)) as [E2|E2]; cbn [orb].
  - symmetry. apply lookup_ge_None. lia.
  - now rewrite Nat2Z.id.
Qed.

Lemma toggle_loop_at_center ps (f : nat) p acc :
  increasing_centers ps -> ps !! f = Some p ->
  Smooth.toggle_loop (centerPosition p) ps 0 acc = Z.of_nat f.
Proof.
  intros Hinc Hp.
  destruct (toggle_loop_spec (centerPosition p) ps 0 acc)
    as [[_ Hh] | (n & q & Hr & Hq & Hle & Hnext)].
  - exfalso. destruct ps as [|p0 rest]; [now rewrite lookup_nil in Hp|].
    destruct f as [|f]; cbn in Hp.
    + injection Hp as ->. lra.
    + pose proof (increasing_lookup _ 0 (S f) p0 p Hinc ltac:(lia)
                    eq_refl Hp). lra.
  - rewrite Hr. destruct (Nat.lt_trichotomy n f) as [Hlt|[->|Hgt]].
    + exfalso. destruct (ps !! S n) as [e|] eqn:He.
      * destruct (Nat.eq_dec (S n) f) as [Heq|Hne].
        -- rewrite Heq, Hp in He. injection He as <-. lra.
        -- pose proof (increasing_lookup _ (S n) f e p Hinc ltac:(lia) He Hp).
           lra.
      * apply lookup_ge_None in He. apply lookup_lt_Some in Hp. lia.
    + lia.
    + exfalso.
      pose proof (increasing_lookup _ f n p q Hinc Hgt Hp Hq). lra.
Qed.

(** X5: in the smooth variant, when the centres of the words increase,
    toggling from word mode to smooth mode puts the scroll offset on the
    centre of the focus word, and toggling back returns to the same
    focus word. *)
Theorem smooth_toggle_round_trip (m : WordMetrics.t) (s : Smooth.Position)
    (f : nat) (p : WordPosition) :
  increasing_centers (WordMetrics.wordPositions m) ->
  Smooth.mode s = "word"%string ->
  Smooth.focusIndex s = Z.of_nat f ->
  WordMetrics.wordPositions m !! f = Some p ->
  Smooth.toggleMode m s
    = Smooth.mkPosition "smooth" (centerPosition p) (Z.of_nat f)
  /\ Smooth.toggleMode m (Smooth.toggleMode m s)
     = Smooth.mkPosition "word" (centerPosition p) (Z.of_nat f).
Proof.
  intros Hinc Hmode Hf Hp.
  assert (H1 : Smooth.toggleMode m s
               = Smooth.mkPosition "smooth" (centerPosition p) (Z.of_nat f)).
  { unfold Smooth.toggleMode. rewrite Hmode, Hf. cbn [String.eqb Ascii.eqb].
    change (("word" =? "smooth")%string) with false. cbn iota.
    now rewrite getWordPositionData_nat, Hp. }
  split; [exact H1|]. rewrite H1. unfold Smooth.toggleMode.
  cbn [Smooth.mode Smooth.scrollOffset Smooth.focusIndex].
  change (("smooth" =? "smooth")%string) with true. cbn iota.
  now rewrite (toggle_loop_at_center _ f p).
Qed.

Lemma smooth_toggle_round_trip_witness :
  let s := Smooth.mkPosition "word" 0 1 in
  Smooth.toggleMode three_words s = Smooth.mkPosition "smooth" (86 # 2) 1
  /\ Smooth.toggleMode three_words (Smooth.toggleMode three_words s)
     = Smooth.mkPosition "word" (86 # 2) 1.
Proof.
  cbv zeta.
  apply (smooth_toggle_round_trip three_words
           (Smooth.mkPosition "word" 0 1) 1
           (mkPos "it" 1 38 20 (10 # 2) (86 # 2))).
  - vm_compute. repeat split; reflexivity.
  - reflexivity.
  - reflexivity.
  - vm_compute. reflexivity.
Defined.

(** X6: in the smooth variant, toggling from smooth mode to word mode
    keeps the scroll offset and, when the centres increase, puts the focus
    on the last word whose centre is not past the offset; that word is the
    word that [findClosestWordIndex] finds or the one before it. When the
    offset is before the centre of the first word, the focus index keeps
    the value it had before. *)
Theorem smooth_to_word_focus (m : WordMetrics.t) (s : Smooth.Position)
    (p0 : WordPosition) :
  increasing_centers (WordMetrics.wordPositions m) ->
  Smooth.mode s = "smooth"%string ->
  WordMetrics.wordPositions m !! 0%nat = Some p0 ->
  let s' := Smooth.toggleMode m s in
  Smooth.mode s' = "word"%string
  /\ Smooth.scrollOffset s' = Smooth.scrollOffset s
  /\ ((Smooth.scrollOffset s < centerPosition p0)%Q ->
      Smooth.focusIndex s' = Smooth.focusIndex s)
  /\ ((centerPosition p0 <= Smooth.scrollOffset s)%Q ->
      exists (k : nat) p,
        Smooth.focusIndex s' = Z.of_nat k
        /\ WordMetrics.wordPositions m !! k = Some p
        /\ (centerPosition p <= Smooth.scrollOffset s)%Q
        /\ (forall q, WordMetrics.wordPositions m !! S k = Some q ->
              (Smooth.scrollOffset s < centerPosition q)%Q)
        /\ (Smooth.findClosestWordIndex (Smooth.scrollOffset s) m
              = inr (Z.of_nat k)
            \/ Smooth.findClosestWordIndex (Smooth.scrollOffset s) m
                 = inr (Z.of_nat (S k)))).
Proof.
  intros Hinc Hmode H0. cbv zeta. unfold Smooth.toggleMode. rewrite Hmode.
  change (("smooth" =? "smooth")%string) with true. cbn iota.
  cbn [Smooth.mode Smooth.scrollOffset Smooth.focusIndex].
  split; [reflexivity|]. split; [reflexivity|].
  set (x := Smooth.scrollOffset s). set (ps := WordMetrics.wordPositions m) in *.
  destruct (toggle_loop_spec x ps 0 (Smooth.focusIndex s))
    as [[Hr Hh] | (n & q & Hr & Hq & Hle & Hnext)].
  - split; [intros _; exact Hr|]. intros Hle. exfalso.
    destruct ps as [|p ps']; [discriminate|]. cbn in H0.
    injection H0 as ->. lra.
  - split.
    + intros Hlt. exfalso.
      destruct n as [|n].
      * rewrite H0 in Hq. injection Hq as ->. lra.
      * pose proof (increasing_lookup ps 0 (S n) p0 q Hinc ltac:(lia) H0 Hq).
        lra.
    + intros _. exists n, q.
      split; [rewrite Hr; lia|]. split; [exact Hq|]. split; [exact Hle|].
      split; [intros e He; now rewrite He in Hnext|].
      assert (Hne : ps <> []) by (intros E; now rewrite E in H0).
      destruct (findClosest_nearest x m Hne Hinc)
        as (K & pK & HK & HpK & Hall & _).
      fold ps in HpK, Hall. rewrite HK.
      destruct (Nat.lt_trichotomy K n) as [Hlt|[->|Hgt]];
        [|now left|].
      * exfalso.
        pose proof (increasing_lookup ps K n pK q Hinc Hlt HpK Hq).
        specialize (Hall n q Hq). unfold Smooth.distance in Hall. qabs.
      * destruct (Nat.eq_dec K (S n)) as [->|Hne']; [now right|].
        exfalso.
        destruct (ps !! S n) as [e|] eqn:He.
        -- pose proof (increasing_lookup ps (S n) K e pK Hinc ltac:(lia)
                         He HpK).
           specialize (Hall (S n) e He). unfold Smooth.distance in Hall.
           qabs.
        -- apply lookup_ge_None in He. apply lookup_lt_Some in HpK. lia.
Qed.

Lemma smooth_to_word_focus_witness :
  let m := three_words in
  let s := Smooth.mkPosition "smooth" 40 2 in
  let p0 := mkPos "cat" 0 0 30 (30 # 2) (30 # 2) in
  let s' := Smooth.toggleMode m s in
  Smooth.mode s' = "word"%string
  /\ Smooth.scrollOffset s' = Smooth.scrollOffset s
  /\ ((Smooth.scrollOffset s < centerPosition p0)%Q ->
      Smooth.focusIndex s' = Smooth.focusIndex s)
  /\ ((centerPosition p0 <= Smooth.scrollOffset s)%Q ->
      exists (k : nat) p,
        Smooth.focusIndex s' = Z.of_nat k
        /\ WordMetrics.wordPositions m !! k = Some p
        /\ (centerPosition p <= Smooth.scrollOffset s)%Q
        /\ (forall q, WordMetrics.wordPositions m !! S k = Some q ->
              (Smooth.scrollOffset s < centerPosition q)%Q)
        /\ (Smooth.findClosestWordIndex (Smooth.scrollOffset s) m
              = inr (Z.of_nat k)
            \/ Smooth.findClosestWordIndex (Smooth.scrollOffset s) m
                 = inr (Z.of_nat (S k)))).
Proof.
  cbv zeta.
  apply (smooth_to_word_focus three_words
           (Smooth.mkPosition "smooth" 40 2)
           (mkPos "cat" 0 0 30 (30 # 2) (30 # 2))).
  - vm_compute. repeat split; reflexivity.
  - reflexivity.
  - vm_compute. reflexivity.
Defined.

(** X7: when the centres increase, [getLastWordCenter] is the largest
    centre of the document, and the word closest to it is the last word:
    a scroll offset clamped to it stands on the last word. *)
Theorem last_center_is_largest (m : WordMetrics.t) :
  WordMetrics.wordPositions m <> [] ->
  increasing_centers (WordMetrics.wordPositions m) ->
  (forall (i : nat) p,
     WordMetrics.wordPositions m !! i = Some p ->
     (centerPosition p <= Smooth.getLastWordCenter m)%Q)
  /\ Smooth.findClosestWordIndex (Smooth.getLastWordCenter m) m
     = inr (Z.of_nat (length (WordMetrics.wordPositions m)) - 1).
Proof.
  intros Hne Hinc. unfold Smooth.getLastWordCenter. cbv zeta.
  set (ps := WordMetrics.wordPositions m) in *.
  destruct (Nat.eqb_spec (length ps) 0) as [E|E];
    [now apply length_zero_iff_nil in E|].
  destruct (ps !! (length ps - 1)%nat) as [l|] eqn:Hl;
    [|apply lookup_ge_None in Hl; lia].
  split.
  - intros i p Hp. pose proof (lookup_lt_Some _ _ _ Hp) as Hi.
    destruct (Nat.eq_dec i (length ps - 1)%nat) as [->|Hn].
    + rewrite Hl in Hp. injection Hp as ->. apply Qle_refl.
    + apply Qlt_le_weak.
      apply (increasing_lookup ps i (length ps - 1)%nat p l Hinc); [lia|easy|easy].
  - rewrite (findClosest_center m (length ps - 1)%nat l Hinc Hl).
    f_equal. lia.
Qed.

Lemma last_center_is_largest_witness :
  (forall (i : nat) p,
     WordMetrics.wordPositions three_words !! i = Some p ->
     (centerPosition p <= Smooth.getLastWordCenter three_words)%Q)
  /\ Smooth.findClosestWordIndex (Smooth.getLastWordCenter three_words)
       three_words
     = inr (Z.of_nat (length (WordMetrics.wordPositions three_words)) - 1).
Proof.
  apply (last_center_is_largest three_words).
  - vm_compute. discriminate.
  - vm_compute. repeat split; reflexivity.
Defined.

(** ** The pages of the reader *)

Lemma nextPage_word w :
  String.eqb (mode (W.st w)) "sentence" = false ->
  W.st (WordMarqueeEngine._nextPage w)
  = W.set_focusIndex
      (Z.min ((focusIndex (W.st w) / wordsPerPage (config w) + 1)
              * wordsPerPage (config w))
             (WordMetrics.getWordCount (metrics (engine w)) - 1))
      (W.st w)
  /\ engine (WordMarqueeEngine._nextPage w)
     = engine (W.set_state
                 (W.set_focusIndex
                    (Z.min ((focusIndex (W.st w) / wordsPerPage (config w) + 1)
                            * wordsPerPage (config w))
                       (WordMetrics.getWordCount (metrics (engine w)) - 1))) w)
  /\ config (WordMarqueeEngine._nextPage w) = config w.
Proof.
  intros Hm. unfold WordMarqueeEngine._nextPage. rewrite Hm.
  rewrite st_saveState, st_render, saveState_engine, render_engine,
    saveState_config, render_config.
  repeat split.
Qed.

Lemma prevPage_word w :
  String.eqb (mode (W.st w)) "sentence" = false ->
  W.st (WordMarqueeEngine._prevPage w)
  = W.set_focusIndex
      (Z.max ((focusIndex (W.st w) / wordsPerPage (config w) - 1)
              * wordsPerPage (config w)) 0)
      (W.st w)
  /\ engine (WordMarqueeEngine._prevPage w)
     = engine (W.set_state
                 (W.set_focusIndex
                    (Z.max ((focusIndex (W.st w) / wordsPerPage (config w) - 1)
                            * wordsPerPage (config w)) 0)) w)
  /\ config (WordMarqueeEngine._prevPage w) = config w.
Proof.
  intros Hm. unfold WordMarqueeEngine._prevPage. rewrite Hm.
  rewrite st_saveState, st_render, saveState_engine, render_engine,
    saveState_config, render_config.
  repeat split.
Qed.

Lemma ceil_div_bounds a b :
  0 < b -> b * (- (- a / b)) - b < a <= b * (- (- a / b)).
Proof.
  intros Hb.
  pose proof (Z.div_mod (- a) b ltac:(lia)).
  pose proof (Z.mod_pos_bound (- a) b Hb). nia.
Qed.

Lemma floor_div_bounds a b :
  0 < b -> b * (a / b) <= a < b * (a / b) + b.
Proof.
  intros Hb.
  pose proof (Z.div_mod a b ltac:(lia)).
  pose proof (Z.mod_pos_bound a b Hb). nia.
Qed.

(** X8: in word mode, for a focus inside the document and a positive
    page size, the page numbers [Page X of Y] satisfy [1 <= X <= Y];
    [_nextPage] moves the focus to the first word of page [X + 1], or to
    the last word of the document when [X] is the last page;
    [_prevPage] moves it to the first word of page [X - 1], or to the
    first word of the document; and [_prevPage] after [_nextPage] stands
    on the first word of page [X] when [X] is not the last page. *)
Theorem page_navigation (w : World) :
  String.eqb (mode (W.st w)) "sentence" = false ->
  RenderEngine.metrics (renderer (engine w)) = metrics (engine w) ->
  0 <= focusIndex (W.st w) < WordMetrics.getWordCount (metrics (engine w)) ->
  0 < wordsPerPage (config w) ->
  let wpp := wordsPerPage (config w) in
  let X := fst (page_info w) in
  let Y := snd (page_info w) in
  let next := WordMarqueeEngine._nextPage w in
  let prev := WordMarqueeEngine._prevPage w in
  1 <= X <= Y
  /\ (X - 1) * wpp <= focusIndex (W.st w) < X * wpp
  /\ (X < Y ->
      focusIndex (W.st next) = X * wpp /\ page_info next = (X + 1, Y))
  /\ (X = Y ->
      focusIndex (W.st next)
        = WordMetrics.getWordCount (metrics (engine w)) - 1
      /\ page_info next = (X, Y))
  /\ (1 < X ->
      focusIndex (W.st prev) = (X - 2) * wpp /\ page_info prev = (X - 1, Y))
  /\ (X = 1 -> focusIndex (W.st prev) = 0 /\ page_info prev = (1, Y))
  /\ (X < Y ->
      focusIndex (W.st (WordMarqueeEngine._prevPage next)) = (X - 1) * wpp).
Proof.
  intros Hm Hr Hf Hp. cbv zeta.
  destruct (nextPage_word w Hm) as (Hns & Hne & Hnc).
  destruct (prevPage_word w Hm) as (Hps & Hpe & Hpc).
  unfold page_info, updatePageInfo.
  cbn [fst snd]. rewrite Hr.
  set (f := focusIndex (W.st w)) in *.
  set (n := WordMetrics.getWordCount (metrics (engine w))) in *.
  set (b := wordsPerPage (config w)) in *.
  pose proof (floor_div_bounds f b Hp) as Hfl.
  pose proof (ceil_div_bounds n b Hp) as Hce.
  assert (HX : f / b + 1 <= - (- n / b)) by nia.
  assert (H0 : 0 <= f / b) by (apply Z.div_pos; lia).
  assert (Hst : forall w' i,
            W.st w' = W.set_focusIndex i (W.st w) ->
            engine w' = engine (W.set_state (W.set_focusIndex i) w) ->
            config w' = config w ->
            (focusIndex (W.st w') / wordsPerPage (config w') + 1,
             - (- WordMetrics.getWordCount
                    (RenderEngine.metrics (renderer (engine w')))
                / wordsPerPage (config w')))
            = (i / b + 1, - (- n / b))).
  { intros w' i Hs He Hc. rewrite Hs, He, Hc. cbn. now rewrite Hr. }
  rewrite (Hst _ _ Hns Hne Hnc), (Hst _ _ Hps Hpe Hpc), Hns, Hps.
  cbn [focusIndex W.set_focusIndex].
  split; [lia|]. split; [nia|].
  split; [|split; [|split; [|split; [|]]]].
  - intros Hlt.
    assert (E : Z.min ((f / b + 1) * b) (n - 1) = (f / b + 1) * b) by nia.
    rewrite E. split; [reflexivity|].
    now rewrite Z.div_mul by lia.
  - intros Heq.
    assert (E : Z.min ((f / b + 1) * b) (n - 1) = n - 1) by nia.
    rewrite E. split; [reflexivity|]. do 2 f_equal.
    symmetry. apply Z.div_unique with (r := n - 1 - b * (f / b));
      [left; nia | nia].
  - intros Hgt.
    assert (E : Z.max ((f / b - 1) * b) 0 = (f / b - 1) * b) by nia.
    rewrite E. split; [f_equal; lia|].
    rewrite Z.div_mul by lia. f_equal. lia.
  - intros Heq.
    assert (E : Z.max ((f / b - 1) * b) 0 = 0) by nia.
    rewrite E. split; [reflexivity|]. now rewrite Z.div_0_l by lia.
  - intros Hlt.
    assert (Hm' : String.eqb (mode (W.st (WordMarqueeEngine._nextPage w)))
                    "sentence" = false) by (now rewrite Hns).
    destruct (prevPage_word _ Hm') as (Hps' & _ & _).
    rewrite Hps', Hns, Hnc. cbn [focusIndex W.set_focusIndex]. fold b.
    assert (E : Z.min ((f / b + 1) * b) (n - 1) = (f / b + 1) * b) by nia.
    rewrite E, Z.div_mul by lia. nia.
Qed.

Lemma page_navigation_witness :
  let w := one_word_pages in
  let wpp := wordsPerPage (config w) in
  let X := fst (page_info w) in
  let Y := snd (page_info w) in
  let next := WordMarqueeEngine._nextPage w in
  let prev := WordMarqueeEngine._prevPage w in
  page_info w = (1, 3)
  /\ 1 <= X <= Y
  /\ (X - 1) * wpp <= focusIndex (W.st w) < X * wpp
  /\ (X < Y ->
      focusIndex (W.st next) = X * wpp /\ page_info next = (X + 1, Y))
  /\ (X = Y ->
      focusIndex (W.st next)
        = WordMetrics.getWordCount (metrics (engine w)) - 1
      /\ page_info next = (X, Y))
  /\ (1 < X ->
      focusIndex (W.st prev) = (X - 2) * wpp /\ page_info prev = (X - 1, Y))
  /\ (X = 1 -> focusIndex (W.st prev) = 0 /\ page_info prev = (1, Y))
  /\ (X < Y ->
      focusIndex (W.st (WordMarqueeEngine._prevPage next)) = (X - 1) * wpp).
Proof.
  cbv zeta. split; [vm_compute; reflexivity|].
  apply (page_navigation one_word_pages).
  - vm_compute. reflexivity.
  - vm_compute. reflexivity.
  - vm_compute. split; [discriminate | reflexivity].
  - vm_compute. reflexivity.
Defined.

(** ** Invariants of the window *)

Section PreservedByTheEngine.

Variable P : World -> Prop.
Hypothesis HP : Preserved P.

Lemma preserved_stop w : P w -> P (WordMarqueeEngine.stop w).
Proof.
  intros H. unfold WordMarqueeEngine.stop.
  pose proof (pres_state P HP (W.set_isPlaying false) w H) as H1.
  destruct (intervalId (engine (W.set_state (W.set_isPlaying false) w)));
    [|exact H1].
  now apply (pres_intervalId P HP), (pres_clear P HP), (pres_clear P HP).
Qed.

Lemma preserved_installed k cb d w :
  cb <> SaveStateCb -> P w ->
  P (let '(id, w') := W.install k cb d w in W.set_intervalId (Some id) w').
Proof.
  intros Hcb H. pose proof (pres_install P HP k cb d w Hcb H) as H1.
  unfold W.install in *. cbn [snd] in H1.
  now apply (pres_intervalId P HP).
Qed.

Lemma preserved_advanceSentence w :
  P w -> P (WordMarqueeEngine._advanceSentence w).
Proof.
  intros H. unfold WordMarqueeEngine._advanceSentence.
  destruct (_ <? _).
  - set (w1 := W.set_state _ w).
    assert (H1 : P w1) by now apply (pres_state P HP).
    destruct (W.nth_Z _ _) as [sm|].
    + set (w2 := saveStateDebounced 2000 _).
      assert (H2 : P w2).
      { apply (pres_debounced P HP), (pres_render P HP).
        now apply (pres_state P HP). }
      destruct (_ && _); [|exact H2].
      now apply preserved_installed.
    + apply preserved_stop, (pres_debounced P HP), (pres_render P HP), H1.
  - now apply (pres_saveState P HP), preserved_stop.
Qed.

Lemma preserved_advanceWord w : P w -> P (WordMarqueeEngine._advanceWord w).
Proof.
  intros H. unfold WordMarqueeEngine._advanceWord. destruct (_ <? _).
  - now apply (pres_debounced P HP), (pres_render P HP), (pres_state P HP).
  - now apply (pres_saveState P HP), preserved_stop.
Qed.

Lemma preserved_start w : P w -> P (WordMarqueeEngine.start w).
Proof.
  intros H. unfold WordMarqueeEngine.start.
  destruct (isPlaying (W.st w)); [exact H|].
  assert (H1 : P (W.set_state (W.set_isPlaying true) w))
    by now apply (pres_state P HP).
  destruct (String.eqb _ _).
  - now apply preserved_advanceSentence.
  - now apply preserved_installed.
Qed.

Lemma preserved_setSpeed value w :
  P w -> P (WordMarqueeEngine.setSpeed value w).
Proof.
  intros H. unfold WordMarqueeEngine.setSpeed.
  apply (pres_saveState P HP).
  assert (H1 : P (W.set_config (W.set_wpm value) w))
    by now apply (pres_config P HP).
  destruct (isPlaying _); [|exact H1].
  destruct (String.eqb _ _); [|exact H1].
  apply preserved_installed; [discriminate|].
  destruct (intervalId _); [now apply (pres_clear P HP) | exact H1].
Qed.

Lemma preserved_toggleMode w : P w -> P (WordMarqueeEngine.toggleMode w).
Proof.
  intros H. unfold WordMarqueeEngine.toggleMode.
  apply (pres_saveState P HP).
  assert (Hs : forall w0, P w0 ->
             P (if isPlaying (W.st w)
                then WordMarqueeEngine.start w0 else w0)).
  { intros w0 H0. destruct (isPlaying (W.st w)); [|exact H0].
    now apply preserved_start. }
  apply Hs, (pres_render P HP).
  pose proof (preserved_stop w H) as Hstop.
  destruct (String.eqb _ _); repeat apply (pres_state P HP); exact Hstop.
Qed.

Lemma preserved_goto i w : P w -> P (WordMarqueeEngine.goto_sentence i w).
Proof.
  intros H. unfold WordMarqueeEngine.goto_sentence.
  destruct (W.nth_Z _ _); repeat apply (pres_state P HP); exact H.
Qed.

Lemma preserved_pages w :
  P w -> P (WordMarqueeEngine._nextPage w) /\ P (WordMarqueeEngine._prevPage w).
Proof.
  intros H. unfold WordMarqueeEngine._nextPage, WordMarqueeEngine._prevPage.
  split; destruct (String.eqb _ _);
    apply (pres_saveState P HP), (pres_render P HP);
    first [now apply preserved_goto | now apply (pres_state P HP)].
Qed.

Lemma preserved_wheel deltaY w :
  P w -> P (WordMarqueeEngine._handleWheel deltaY w).
Proof.
  intros H. unfold WordMarqueeEngine._handleWheel.
  repeat match goal with
         | |- P (if ?b then _ else _) => destruct b
         end;
    try exact H;
    apply (pres_debounced P HP), (pres_render P HP);
    first [now apply preserved_goto | now apply (pres_state P HP)].
Qed.

(** The events of the engine preserve the property when the firing of a
    timer does. *)
Lemma preserved_step :
  (forall id w, P w -> P (fire id w)) ->
  forall o w, P w -> P (step o w).
Proof.
  intros Hfire o w H. destruct o; cbn [step].
  - now apply preserved_start.
  - now apply preserved_stop.
  - now apply preserved_toggleMode.
  - unfold WordMarqueeEngine.togglePlayPause.
    destruct (isPlaying _); [now apply preserved_stop | now apply preserved_start].
  - now apply preserved_setSpeed.
  - now apply preserved_pages.
  - now apply preserved_pages.
  - now apply preserved_wheel.
  - now apply Hfire.
Qed.

Lemma preserved_run :
  (forall id w, P w -> P (fire id w)) ->
  forall ops w, P w -> P (run ops w).
Proof.
  intros Hfire ops. unfold run.
  induction ops as [|o ops IH]; intros w H; [exact H|].
  cbn. now apply IH, preserved_step.
Qed.

(** The firing of a timer preserves the property when clearing the
    variable of the pending save does. *)
Lemma preserved_fire :
  (forall o w, P w -> P (W.set_saveStateTimeout o w)) ->
  forall id w, P w -> P (fire id w).
Proof.
  intros Hto id w H. unfold fire.
  destruct (List.find _ _) as [t|]; [|exact H].
  assert (H1 : P (match timer_kind t with
                  | SetTimeout => W.clear id w
                  | SetInterval => w
                  end))
    by (destruct (timer_kind t); [exact H | now apply (pres_clear P HP)]).
  destruct (timer_callback t).
  - now apply preserved_advanceWord.
  - now apply preserved_advanceSentence.
  - now apply Hto, (pres_saveState P HP).
Qed.

End PreservedByTheEngine.

(** *** The renderer of the first document *)

Lemma renderer_blind_ext w w' :
  renderer (engine w') = renderer (engine w) -> display w' = display w ->
  renderer_blind w -> renderer_blind w'.
Proof. intros Hr Hd [H1 H2]. split; [now rewrite Hr | now rewrite Hd]. Qed.

Lemma render_blind w :
  RenderEngine.sentenceWordMap (renderer (engine w)) = [] ->
  (mode (W.st w) = "sentence"%string -> WordMarqueeEngine.render w = w)
  /\ (forall k, display w <> Some (ShowSentence k) ->
        display (WordMarqueeEngine.render w) <> Some (ShowSentence k)).
Proof.
  intros Hmap. unfold WordMarqueeEngine.render. rewrite Hmap.
  change (Z.of_nat (length [])) with 0.
  assert (Hb : (sentenceIndex (W.st w) <? 0) || (0 <=? sentenceIndex (W.st w))
               = true).
  { destruct (Z.ltb_spec (sentenceIndex (W.st w)) 0); [reflexivity|].
    cbn. apply Z.leb_le. lia. }
  rewrite Hb. split.
  - intros ->. reflexivity.
  - intros k Hk. destruct (String.eqb _ _); [exact Hk|].
    destruct (RenderEngine._prepareRenderData _ _); [exact Hk|].
    cbn. discriminate.
Qed.

Lemma renderer_blind_preserved : Preserved renderer_blind.
Proof.
  split.
  - intros f w. now apply renderer_blind_ext.
  - intros f w. now apply renderer_blind_ext.
  - intros o w. now apply renderer_blind_ext.
  - intros w [H1 H2]. split; [now rewrite render_engine|].
    intros k. now apply render_blind.
  - intros w. apply renderer_blind_ext; [now rewrite saveState_engine|].
    unfold saveState. now destruct (currentBook w).
  - intros id w. now apply renderer_blind_ext.
  - intros k cb d w _. now apply renderer_blind_ext.
  - intros d w. apply renderer_blind_ext; [now rewrite debounced_engine|].
    unfold saveStateDebounced. now destruct (saveStateTimeout w).
Qed.

Lemma constructor_renderer dom cfg ws e :
  WordMarqueeEngine.constructor dom cfg ws = inr e ->
  RenderEngine.sentenceWordMap (renderer e) = [].
Proof.
  unfold WordMarqueeEngine.constructor. intros H.
  destruct cfg as [c|]; [|discriminate].
  destruct ws as [|[|x ws]]; try discriminate.
  destruct (WordMetrics.constructor dom _ c) as [?|m]; [discriminate|].
  unfold RenderEngine.constructor in H.
  destruct (negb (display_area dom)); [discriminate|].
  destruct (negb (main_container dom)); [discriminate|].
  destruct (_initializeSentences (x :: ws)) as [ss mp].
  now injection H as <-.
Qed.

(** X9: the renderer of the engine that [init] builds on the sample words
    keeps the sentence map that was empty when the renderer was made:
    whatever the events, the display area never shows a sentence for that
    document, and a render in sentence mode changes nothing. *)
Theorem first_document_shows_no_sentence (dom : Dom) (cfg : Config)
    (ws : js_words) (e : Engine) (ops : list Op) :
  WordMarqueeEngine.constructor dom (Some cfg) ws = inr e ->
  let w := run ops (WordMarqueeEngine.boot cfg e) in
  RenderEngine.sentenceWordMap (renderer (engine w)) = []
  /\ (forall k, display w <> Some (ShowSentence k))
  /\ (mode (W.st w) = "sentence"%string -> WordMarqueeEngine.render w = w).
Proof.
  intros He. cbv zeta.
  assert (H : renderer_blind (run ops (WordMarqueeEngine.boot cfg e))).
  { apply (preserved_run _ renderer_blind_preserved).
    - apply (preserved_fire _ renderer_blind_preserved).
      intros o w. now apply renderer_blind_ext.
    - unfold WordMarqueeEngine.boot.
      apply (pres_render _ renderer_blind_preserved).
      split; [exact (constructor_renderer _ _ _ _ He) | discriminate]. }
  destruct H as [H1 H2]. repeat split; [exact H1 | exact H2 |].
  now apply render_blind.
Qed.

Lemma first_document_shows_no_sentence_witness :
  let w := run [ToggleMode; Start]
             (page_of fallback_dom two_sentences) in
  mode (W.st w) = "sentence"%string
  /\ sentenceWordMap (engine w)
     = [mkSpan 0 0 0 "Hi."; mkSpan 1 1 1 "Yo."]
  /\ RenderEngine.sentenceWordMap (renderer (engine w)) = []
  /\ (forall k, display w <> Some (ShowSentence k))
  /\ (mode (W.st w) = "sentence"%string -> WordMarqueeEngine.render w = w).
Proof.
  cbv zeta. split; [vm_compute; reflexivity|].
  split; [vm_compute; reflexivity|].
  destruct (WordMarqueeEngine.constructor fallback_dom (Some CONFIG)
              (JSArray two_sentences)) as [x|e] eqn:E;
    [vm_compute in E; discriminate|].
  unfold page_of, engine_of. rewrite E.
  exact (first_document_shows_no_sentence fallback_dom CONFIG
           (JSArray two_sentences) e [ToggleMode; Start] E).
Defined.

(** *** The timers of the window *)

Lemma NoDup_map_filter {A B} (f : A -> B) (p : A -> bool) (l : list A) :
  NoDup (List.map f l) -> NoDup (List.map f (List.filter p l)).
Proof.
  induction l as [|a l IH]; cbn; intros H; [constructor|].
  apply NoDup_cons in H. destruct H as [Hn H].
  destruct (p a); cbn; [|now apply IH].
  apply NoDup_cons. split; [|now apply IH].
  intros Hin. apply Hn. apply list_elem_of_In in Hin.
  apply list_elem_of_In. apply in_map_iff in Hin.
  destruct Hin as (x & Hx & Hin). apply List.filter_In in Hin.
  apply in_map_iff. exists x. tauto.
Qed.

Lemma filter_filter_In {A} (p q : A -> bool) l x :
  In x (List.filter p (List.filter q l)) -> In x (List.filter p l).
Proof.
  intros H. apply List.filter_In in H. destruct H as [H Hp].
  apply List.filter_In in H. apply List.filter_In. tauto.
Qed.

Lemma timers_ok_ext w w' :
  timers w' = timers w -> next_timer w' = next_timer w ->
  saveStateTimeout w' = saveStateTimeout w ->
  timers_ok w -> timers_ok w'.
Proof.
  unfold timers_ok, saves, advances. intros -> -> ->. exact id.
Qed.

Lemma timers_ok_clear id w : timers_ok w -> timers_ok (W.clear id w).
Proof.
  intros (Hnd & Hlt & Hsv & Hto).
  unfold timers_ok, saves, advances, W.clear. cbn.
  repeat split.
  - now apply NoDup_map_filter.
  - intros t Ht. apply List.filter_In in Ht. now apply Hlt.
  - apply filter_filter_In in H. now apply Hsv.
  - apply filter_filter_In in H. now apply Hsv.
  - now apply Hto.
  - intros t Ht. apply filter_filter_In in Ht. now apply (Hto id0).
Qed.

Lemma fresh_id w :
  (forall t, In t (timers w) -> (timer_id t < next_timer w)%positive) ->
  ~ In (next_timer w) (List.map timer_id (timers w)).
Proof.
  intros Hlt Hin. apply in_map_iff in Hin. destruct Hin as (t & Ht & Hin).
  specialize (Hlt t Hin). lia.
Qed.

Lemma NoDup_snoc {A} (l : list A) x : NoDup l -> ~ In x l -> NoDup (l ++ [x]).
Proof.
  intros Hl Hx. apply NoDup_app. repeat split; [exact Hl| |].
  - intros y Hy Hy'. apply list_elem_of_In in Hy.
    apply list_elem_of_In in Hy'. destruct Hy' as [->|[]]. contradiction.
  - apply NoDup_cons. split; [intros H; now apply list_elem_of_In in H|].
    constructor.
Qed.

Lemma timers_ok_install k cb d w :
  cb <> SaveStateCb -> timers_ok w -> timers_ok (snd (W.install k cb d w)).
Proof.
  intros Hcb (Hnd & Hlt & Hsv & Hto).
  unfold timers_ok, saves, advances, W.install. cbn.
  rewrite List.map_app, !List.filter_app. cbn.
  repeat split.
  - apply NoDup_snoc; [exact Hnd | now apply fresh_id].
  - intros t Ht. apply in_app_or in Ht. destruct Ht as [Ht|[<-|[]]].
    + specialize (Hlt t Ht). lia.
    + cbn. lia.
  - apply in_app_or in H. destruct H as [H|H]; [now apply Hsv|].
    unfold is_save in H. cbn in H. now destruct cb.
  - apply in_app_or in H. destruct H as [H|H]; [now apply Hsv|].
    unfold is_save in H. cbn in H. now destruct cb.
  - destruct (Hto _ H) as [Hid _]. lia.
  - intros t Ht. apply in_app_or in Ht.
    destruct (Hto _ H) as [Hid Hadv].
    destruct Ht as [Ht|Ht]; [now apply Hadv|].
    destruct (is_advance _); [|destruct Ht].
    destruct Ht as [<-|[]]. cbn. lia.
Qed.

Lemma debounced_fields d w :
  timers (saveStateDebounced d w)
  = match saveStateTimeout w with
    | Some id =>
        List.filter (fun t => negb (Pos.eqb (timer_id t) id)) (timers w)
    | None => timers w
    end ++ [mkTimer (next_timer w) SetTimeout SaveStateCb (Ms d)]
  /\ next_timer (saveStateDebounced d w) = Pos.succ (next_timer w)
  /\ saveStateTimeout (saveStateDebounced d w) = Some (next_timer w).
Proof.
  unfold saveStateDebounced. now destruct (saveStateTimeout w).
Qed.

(** Clearing the timeout that [saveStateTimeout] names leaves no save
    timer. *)
Lemma saves_cleared w :
  timers_ok w ->
  List.filter is_save
    match saveStateTimeout w with
    | Some id =>
        List.filter (fun t => negb (Pos.eqb (timer_id t) id)) (timers w)
    | None => timers w
    end = [].
Proof.
  intros (_ & _ & Hsv & _).
  destruct (List.filter is_save _) as [|t l] eqn:E; [reflexivity|].
  exfalso. assert (Hin : In t (t :: l)) by now left. rewrite <- E in Hin.
  destruct (saveStateTimeout w) as [id|] eqn:Hto.
  - apply List.filter_In in Hin. destruct Hin as [Hin Hs].
    apply List.filter_In in Hin. destruct Hin as [Hin Hid].
    assert (Ht : In t (saves w)) by (apply List.filter_In; tauto).
    destruct (Hsv t Ht) as [Heq _]. injection Heq as Heq.
    rewrite Heq, Pos.eqb_refl in Hid. discriminate.
  - destruct (Hsv t Hin). discriminate.
Qed.

Lemma timers_ok_debounced d w :
  timers_ok w -> timers_ok (saveStateDebounced d w).
Proof.
  intros Hok. pose proof (saves_cleared w Hok) as Hnil.
  destruct Hok as (Hnd & Hlt & Hsv & Hto).
  destruct (debounced_fields d w) as (Ht & Hn & Hs).
  unfold timers_ok, saves, advances. rewrite Ht, Hn, Hs.
  set (old := match saveStateTimeout w with
              | Some id =>
                  List.filter (fun t => negb (Pos.eqb (timer_id t) id))
                    (timers w)
              | None => timers w
              end) in *.
  assert (Hold : forall t, In t old -> In t (timers w)).
  { unfold old. intros t. destruct (saveStateTimeout w); [|easy].
    intros H. now apply List.filter_In in H. }
  assert (Hndo : NoDup (List.map timer_id old)).
  { unfold old. destruct (saveStateTimeout w); [|exact Hnd].
    now apply NoDup_map_filter. }
  rewrite List.map_app, !List.filter_app, Hnil. cbn.
  repeat split.
  - apply NoDup_snoc; [exact Hndo|].
    intros Hin. apply in_map_iff in Hin. destruct Hin as (t & Hid & Hin).
    specialize (Hlt t (Hold t Hin)). lia.
  - intros t Hin. apply in_app_or in Hin. destruct Hin as [Hin|[<-|[]]].
    + specialize (Hlt t (Hold t Hin)). lia.
    + cbn. lia.
  - destruct H as [<-|[]]. reflexivity.
  - destruct H as [<-|[]]. reflexivity.
  - injection H as <-. lia.
  - injection H as <-. intros t Hin. rewrite app_nil_r in Hin.
    apply List.filter_In in Hin. destruct Hin as [Hin _].
    specialize (Hlt t (Hold t Hin)). lia.
Qed.

Lemma timers_ok_preserved : Preserved timers_ok.
Proof.
  split.
  - intros f w. now apply timers_ok_ext.
  - intros f w. now apply timers_ok_ext.
  - intros o w. now apply timers_ok_ext.
  - intros w. apply timers_ok_ext;
      [apply render_timers | apply render_next | apply render_saveStateTimeout].
  - intros w. apply timers_ok_ext; [apply saveState_timers | |];
      unfold saveState; now destruct (currentBook w).
  - apply timers_ok_clear.
  - apply timers_ok_install.
  - apply timers_ok_debounced.
Qed.

Lemma timers_ok_fire id w : timers_ok w -> timers_ok (fire id w).
Proof.
  intros Hok. unfold fire.
  destruct (List.find _ (timers w)) as [t|] eqn:Hfind; [|exact Hok].
  apply List.find_some in Hfind. destruct Hfind as [Hin Hid].
  apply Pos.eqb_eq in Hid.
  assert (H1 : timers_ok (match timer_kind t with
                          | SetTimeout => W.clear id w
                          | SetInterval => w
                          end))
    by (destruct (timer_kind t); [exact Hok | now apply timers_ok_clear]).
  destruct (timer_callback t) eqn:Hcb.
  - now apply (preserved_advanceWord _ timers_ok_preserved).
  - now apply (preserved_advanceSentence _ timers_ok_preserved).
  - assert (Hs : In t (saves w)).
    { apply List.filter_In. split; [exact Hin|].
      unfold is_save. now rewrite Hcb. }
    pose proof (saves_cleared w Hok) as Hnil.
    destruct Hok as (Hnd & Hlt & Hsv & Hto).
    destruct (Hsv t Hs) as [Hto' Hk]. rewrite Hk.
    rewrite Hto', Hid in Hnil.
    unfold timers_ok, saves, advances. unfold saveState.
    destruct (currentBook (W.clear id w)); cbn; rewrite Hnil;
      (repeat split; [now apply NoDup_map_filter
                     |intros t' Ht'; apply List.filter_In in Ht';
                      now apply Hlt
                     |destruct H | destruct H | discriminate | discriminate]).
Qed.

Lemma timers_ok_run ops w : timers_ok w -> timers_ok (run ops w).
Proof.
  apply (preserved_run _ timers_ok_preserved). apply timers_ok_fire.
Qed.

Lemma timers_ok_boot cfg e : timers_ok (WordMarqueeEngine.boot cfg e).
Proof.
  unfold WordMarqueeEngine.boot.
  apply (pres_render _ timers_ok_preserved).
  unfold timers_ok, saves, advances. cbn.
  repeat split; [constructor | easy | easy | easy | discriminate | discriminate].
Qed.

Lemma advances_saves_length l :
  length l = (length (List.filter is_advance l)
              + length (List.filter is_save l))%nat.
Proof.
  induction l as [|t l IH]; [reflexivity|]. cbn [List.filter].
  unfold is_advance at 1, is_save at 1.
  destruct (timer_callback t); cbn [length]; lia.
Qed.

Lemma saves_at_most_one w : timers_ok w -> (length (saves w) <= 1)%nat.
Proof.
  intros (Hnd & _ & Hsv & _).
  assert (Hnd' : NoDup (List.map timer_id (saves w)))
    by now apply NoDup_map_filter.
  destruct (saves w) as [|a [|b l]] eqn:E; cbn; try lia.
  exfalso.
  destruct (Hsv a ltac:(now left)) as [Ha _].
  destruct (Hsv b ltac:(right; now left)) as [Hb _].
  rewrite Ha in Hb. injection Hb as Hb. cbn in Hnd'.
  apply NoDup_cons in Hnd'. destruct Hnd' as [Hn _].
  apply Hn. apply list_elem_of_In. now left.
Qed.

(** X10: the saves are debounced. In every state that the events of the
    engine reach from the start, at most one save of the state is
    pending, it is the timeout that [saveStateTimeout] names, the ids of
    the live timers are distinct, and at most two timers are live: one
    that advances the reading position and one that saves. *)
Theorem at_most_one_pending_save (cfg : Config) (e : Engine)
    (ops : list Op) :
  let w := run ops (WordMarqueeEngine.boot cfg e) in
  (length (saves w) <= 1)%nat
  /\ (forall t, In t (saves w) ->
        saveStateTimeout w = Some (timer_id t) /\ timer_kind t = SetTimeout)
  /\ (saveStateTimeout w = None -> saves w = [])
  /\ NoDup (List.map timer_id (timers w))
  /\ (length (timers w) <= 2)%nat.
Proof.
  cbv zeta.
  pose proof (timers_ok_run ops _ (timers_ok_boot cfg e)) as Hok.
  pose proof (advance_ok_run ops _ (advance_ok_boot cfg e)) as [_ Hadv].
  pose proof (saves_at_most_one _ Hok) as Hlen.
  pose proof Hok as (Hnd & _ & Hsv & _).
  repeat split; try assumption.
  - now apply Hsv.
  - now apply Hsv.
  - intros Hnone. destruct (saves _) as [|t l] eqn:E; [reflexivity|].
    destruct (Hsv t ltac:(now left)) as [Hc _]. congruence.
  - rewrite advances_saves_length. unfold saves, advances in *. lia.
Qed.

(** *** Playback in word mode *)

Lemma NoDup_map_eq {A B} (f : A -> B) (l : list A) x y :
  NoDup (List.map f l) -> In x l -> In y l -> f x = f y -> x = y.
Proof.
  induction l as [|a l IH]; [easy|]. cbn. intros H Hx Hy E.
  apply NoDup_cons in H. destruct H as [Hn H].
  assert (Hin : forall z, In z l -> f z = f a -> False).
  { intros z Hz Ez. apply Hn. rewrite <- Ez.
    apply list_elem_of_In. now apply in_map. }
  destruct Hx as [->|Hx], Hy as [->|Hy]; [reflexivity | | |now apply IH].
  - exfalso. now apply (Hin y).
  - exfalso. now apply (Hin x).
Qed.

Lemma find_timer w t :
  timers_ok w -> In t (timers w) ->
  List.find (fun t' => Pos.eqb (timer_id t') (timer_id t)) (timers w) = Some t.
Proof.
  intros (Hnd & _) Hin.
  destruct (List.find _ _) as [t'|] eqn:E.
  - apply List.find_some in E. destruct E as [Hin' Hid].
    apply Pos.eqb_eq in Hid. f_equal.
    now apply (NoDup_map_eq timer_id (timers w)).
  - exfalso. apply (List.find_none _ _ E) in Hin.
    now rewrite Pos.eqb_refl in Hin.
Qed.

Lemma playing_words_start w :
  timers_ok w -> advance_ok w ->
  isPlaying (W.st w) = false ->
  String.eqb (mode (W.st w)) "sentence" = false ->
  playing_words (metrics (engine w)) (next_timer w)
    (WordMarqueeEngine.start w)
  /\ focusIndex (W.st (WordMarqueeEngine.start w)) = focusIndex (W.st w).
Proof.
  intros Hto Hao Hp Hm.
  pose proof (preserved_start _ timers_ok_preserved w Hto) as Hto'.
  pose proof (advance_ok_start w Hao) as Hao'.
  rewrite (start_word w Hp Hm) in *.
  split; [|reflexivity].
  refine (conj Hto' (conj Hao' (conj eq_refl (conj Hm (conj eq_refl
            (conj eq_refl _)))))).
  eexists. split; [cbn; apply in_or_app; right; now left|].
  now cbn.
Qed.

Lemma advanceWord_next w :
  focusIndex (W.st w) < WordMetrics.getWordCount (metrics (engine w)) - 1 ->
  WordMarqueeEngine._advanceWord w
  = saveStateDebounced 2000
      (WordMarqueeEngine.render
         (W.set_state (W.set_focusIndex (focusIndex (W.st w) + 1)) w)).
Proof.
  intros H. unfold WordMarqueeEngine._advanceWord.
  destruct (Z.ltb_spec (focusIndex (W.st w))
              (WordMetrics.getWordCount (metrics (engine w)) - 1)); [easy|lia].
Qed.

Lemma advanceWord_last w :
  WordMetrics.getWordCount (metrics (engine w)) - 1 <= focusIndex (W.st w) ->
  WordMarqueeEngine._advanceWord w = saveState (WordMarqueeEngine.stop w).
Proof.
  intros H. unfold WordMarqueeEngine._advanceWord.
  destruct (Z.ltb_spec (focusIndex (W.st w))
              (WordMetrics.getWordCount (metrics (engine w)) - 1)); [lia|easy].
Qed.

Lemma tick_words m id w :
  playing_words m id w -> tick w = WordMarqueeEngine._advanceWord w.
Proof.
  intros (Hto & _ & _ & _ & Hid & _ & t & Hin & Ht & Hcb & Hk).
  unfold tick, fire. rewrite Hid, <- Ht, (find_timer w t Hto Hin).
  now rewrite Hk, Hcb.
Qed.

Lemma playing_words_tick m id w :
  playing_words m id w ->
  focusIndex (W.st w) < WordMetrics.getWordCount m - 1 ->
  playing_words m id (tick w)
  /\ focusIndex (W.st (tick w)) = focusIndex (W.st w) + 1.
Proof.
  intros Hpw Hlt. pose proof (tick_words m id w Hpw) as Htick.
  destruct Hpw as (Hto & Hao & Hp & Hm & Hid & Hmet & t & Hin & Ht & Hcb & Hk).
  assert (Hto' : timers_ok (tick w)).
  { unfold tick. rewrite Hid. now apply timers_ok_fire. }
  assert (Hao' : advance_ok (tick w)).
  { unfold tick. rewrite Hid. now apply advance_ok_fire. }
  rewrite Htick in *. rewrite advanceWord_next in * by now rewrite Hmet.
  unfold playing_words.
  rewrite st_debounced, st_render, debounced_engine, render_engine.
  cbn [W.st W.set_state W.set_engine engine state metrics intervalId
       W.set_focusIndex focusIndex isPlaying mode].
  fold (W.st w).
  split; [|reflexivity].
  refine (conj Hto' (conj Hao' (conj Hp (conj Hm (conj Hid (conj Hmet _)))))).
  exists t. split; [|now repeat split].
  destruct (debounced_fields 2000
              (WordMarqueeEngine.render
                 (W.set_state (W.set_focusIndex (focusIndex (W.st w) + 1)) w)))
    as (Htm & _ & _).
  rewrite Htm, render_timers, render_saveStateTimeout. cbn.
  apply in_or_app. left.
  destruct (saveStateTimeout w) as [id0|] eqn:E; [|exact Hin].
  apply List.filter_In. split; [exact Hin|].
  destruct Hto as (_ & _ & _ & Hfour).
  destruct (Hfour id0 E) as [_ Hne].
  assert (Hadv : In t (advances w)).
  { apply List.filter_In. split; [exact Hin|].
    unfold is_advance. now rewrite Hcb. }
  specialize (Hne t Hadv). apply negb_true_iff. now apply Pos.eqb_neq.
Qed.

Lemma playing_words_iter m id w : forall k : nat,
  playing_words m id w ->
  focusIndex (W.st w) + Z.of_nat k <= WordMetrics.getWordCount m - 1 ->
  playing_words m id (Nat.iter k tick w)
  /\ focusIndex (W.st (Nat.iter k tick w)) = focusIndex (W.st w) + Z.of_nat k.
Proof.
  induction k as [|k IH]; intros Hpw Hle.
  - cbn. split; [exact Hpw | lia].
  - destruct (IH Hpw ltac:(lia)) as [Hk Hf].
    change (Nat.iter (S k) tick w) with (tick (Nat.iter k tick w)).
    destruct (playing_words_tick m id (Nat.iter k tick w) Hk ltac:(lia))
      as [Hk' Hf'].
    split; [exact Hk' | lia].
Qed.

Lemma playing_words_end m id w :
  playing_words m id w ->
  WordMetrics.getWordCount m - 1 <= focusIndex (W.st w) ->
  W.st (tick w) = W.set_isPlaying false (W.st w)
  /\ advances (tick w) = []
  /\ tick (tick w) = tick w.
Proof.
  intros Hpw Hge. pose proof (tick_words m id w Hpw) as Htick.
  destruct Hpw as (Hto & Hao & Hp & Hm & Hid & Hmet & _).
  rewrite Htick, advanceWord_last by now rewrite Hmet.
  rewrite st_saveState, stop_st, advances_saveState.
  split; [reflexivity|]. split; [now apply stop_clears|].
  unfold tick at 1. now rewrite saveState_engine, stop_intervalId.
Qed.

(** X11: playback in word mode visits the words one by one and ends by
    itself. From a paused state in word mode, [start()] followed by [k]
    firings of the interval puts the focus [k] words further, still
    playing on that one interval, as long as this does not pass the last
    word; the firing that finds the focus on the last word stops the
    playback, leaves no advance timer, and later firings do nothing. *)
Theorem word_playback_reaches_the_end (w : World) (k : nat) :
  timers_ok w -> advance_ok w ->
  isPlaying (W.st w) = false ->
  String.eqb (mode (W.st w)) "sentence" = false ->
  focusIndex (W.st w) + Z.of_nat k
    <= WordMetrics.getWordCount (metrics (engine w)) - 1 ->
  let playing := Nat.iter k tick (WordMarqueeEngine.start w) in
  focusIndex (W.st playing) = focusIndex (W.st w) + Z.of_nat k
  /\ isPlaying (W.st playing) = true
  /\ length (advances playing) = 1%nat
  /\ (focusIndex (W.st w) + Z.of_nat k
        = WordMetrics.getWordCount (metrics (engine w)) - 1 ->
      W.st (tick playing) = W.set_isPlaying false (W.st playing)
      /\ advances (tick playing) = []
      /\ tick (tick playing) = tick playing).
Proof.
  intros Hto Hao Hp Hm Hle. cbv zeta.
  destruct (playing_words_start w Hto Hao Hp Hm) as [Hs Hf].
  destruct (playing_words_iter _ _ _ k Hs ltac:(rewrite Hf; exact Hle))
    as [Hk Hfk].
  rewrite Hf in Hfk. split; [exact Hfk|].
  pose proof Hk as (_ & [Hall Hlen] & Hpl & _ & _ & _ & t & Hin & _ & Hcb & _).
  split; [exact Hpl|]. split.
  - assert (Hadv : In t (advances (Nat.iter k tick (WordMarqueeEngine.start w)))).
    { apply List.filter_In. split; [exact Hin|].
      unfold is_advance. now rewrite Hcb. }
    destruct (advances _); [destruct Hadv | cbn in *; lia].
  - intros Heq. apply (playing_words_end _ _ _ Hk). lia.
Qed.

Lemma word_playback_reaches_the_end_witness :
  let w := page_of fallback_dom two_sentences in
  let playing := Nat.iter 1 tick (WordMarqueeEngine.start w) in
  W.st w = mkState "word" false 0 0
  /\ WordMetrics.getWordCount (metrics (engine w)) = 2
  /\ focusIndex (W.st playing) = focusIndex (W.st w) + Z.of_nat 1
  /\ isPlaying (W.st playing) = true
  /\ length (advances playing) = 1%nat
  /\ (focusIndex (W.st w) + Z.of_nat 1
        = WordMetrics.getWordCount (metrics (engine w)) - 1 ->
      W.st (tick playing) = W.set_isPlaying false (W.st playing)
      /\ advances (tick playing) = []
      /\ tick (tick playing) = tick playing).
Proof.
  cbv zeta. split; [vm_compute; reflexivity|].
  split; [vm_compute; reflexivity|].
  apply (word_playback_reaches_the_end (page_of fallback_dom two_sentences) 1).
  - unfold page_of, engine_of.
    destruct (WordMarqueeEngine.constructor _ _ _); apply timers_ok_boot.
  - unfold page_of, engine_of.
    destruct (WordMarqueeEngine.constructor _ _ _); apply advance_ok_boot.
  - vm_compute. reflexivity.
  - vm_compute. reflexivity.
  - vm_compute. discriminate.
Defined.

(** ** Opening a book *)

Lemma metrics_constructor_total dom cfg ws el :
  measure_el dom = Some el -> ws <> [] ->
  Forall (fun w => w <> ""%string) ws ->
  exists m, WordMetrics.constructor dom (JSArray ws) cfg = inr m
            /\ WordMetrics.words m = ws
            /\ length (WordMetrics.wordPositions m) = length ws.
Proof.
  intros Hel Hne Hall.
  destruct (positions_loop_total el cfg ws Hall 0 0 [] ∅)
    as (ps & cache & Hps).
  exists (WordMetrics.mk ws cfg cache el ps).
  split; [|split; [reflexivity|]].
  - unfold WordMetrics.constructor. destruct ws as [|w ws']; [easy|].
    rewrite Hel. unfold WordMetrics._calculateWordPositions. now rewrite Hps.
  - cbn. now rewrite (positions_loop_length _ _ _ _ _ _ _ _ _ Hps).
Qed.

Lemma stop_engine_fields w :
  words (engine (WordMarqueeEngine.stop w)) = words (engine w)
  /\ metrics (engine (WordMarqueeEngine.stop w)) = metrics (engine w)
  /\ sentences (engine (WordMarqueeEngine.stop w)) = sentences (engine w)
  /\ renderer (engine (WordMarqueeEngine.stop w)) = renderer (engine w)
  /\ currentBook (WordMarqueeEngine.stop w) = currentBook w
  /\ sessionStorage (WordMarqueeEngine.stop w) = sessionStorage w
  /\ display (WordMarqueeEngine.stop w) = display w.
Proof.
  unfold WordMarqueeEngine.stop.
  destruct (intervalId (engine (W.set_state (W.set_isPlaying false) w)));
    now cbn.
Qed.

(** The world after a load that succeeds. *)
Lemma loadNewText_ok dom ws w m r :
  WordMetrics.constructor dom (JSArray ws) (config w) = inr m ->
  RenderEngine.constructor dom m (snd (_initializeSentences ws)) = inr r ->
  WordMarqueeEngine.loadNewText dom ws w
  = (None,
     WordMarqueeEngine.render
       (W.set_engine
          (fun e =>
             mkEngine ws m (fst (_initializeSentences ws))
               (snd (_initializeSentences ws)) r
               (WordMarqueeEngine.initial_state (mode (state e)))
               (intervalId e))
          (WordMarqueeEngine.stop w))).
Proof.
  intros Hm Hr. unfold WordMarqueeEngine.loadNewText.
  cbn [config W.set_engine]. rewrite stop_config, Hm.
  destruct (_initializeSentences ws) as [ss mp]. cbn [fst snd] in *.
  cbn [engine W.set_engine metrics]. now rewrite Hr.
Qed.

(** The events of the engine keep the document and the current book. *)
Lemma same_document_preserved x : Preserved (same_document x).
Proof.
  split; unfold same_document.
  - intros f w H. exact H.
  - intros f w H. exact H.
  - intros o w H. exact H.
  - intros w H. now rewrite render_engine.
  - intros w H. now rewrite saveState_engine.
  - intros id w H. exact H.
  - intros k cb d w _ H. exact H.
  - intros d w H. now rewrite debounced_engine.
Qed.

Lemma run_same_document ops w : same_document w (run ops w).
Proof.
  apply (preserved_run _ (same_document_preserved w)).
  - apply (preserved_fire _ (same_document_preserved w)).
    intros o y H. exact H.
  - unfold same_document. auto.
Qed.

Lemma saveState_book w : currentBook (saveState w) = currentBook w.
Proof.
  unfold saveState. destruct (currentBook w) eqn:E; [cbn; exact E | exact E].
Qed.

Lemma render_sessionStorage w :
  sessionStorage (WordMarqueeEngine.render w) = sessionStorage w.
Proof. frame. Qed.

Lemma debounced_book d w : currentBook (saveStateDebounced d w) = currentBook w.
Proof. frame. Qed.

Lemma run_currentBook ops w : currentBook (run ops w) = currentBook w.
Proof.
  assert (HP : Preserved (fun y => currentBook y = currentBook w)).
  { split.
    - intros f y H. exact H.
    - intros f y H. exact H.
    - intros o y H. exact H.
    - intros y H. now rewrite render_book.
    - intros y H. now rewrite saveState_book.
    - intros id y H. exact H.
    - intros k cb d y _ H. exact H.
    - intros d y H. now rewrite debounced_book. }
  apply (preserved_run _ HP); [|reflexivity].
  apply (preserved_fire _ HP). intros o y H. exact H.
Qed.

(** X12: opening a book that is not an EPUB and whose words the engine
    can lay out replaces the document and rewinds the reader: when
    [selectBook] is suspended on the PDF viewer, the focus and the
    sentence index are 0, the mode is kept, playback is stopped with no
    advance timer left, the renderer holds the sentence map of the new
    words, and the current book and the stored snapshot are still the
    previous ones. Whatever events the window handles meanwhile, they
    keep the new document; when the viewer has loaded, the book becomes
    the current one and the snapshot of the state of that moment is
    stored; until then, the new document stays with the previous current
    book. An EPUB book changes nothing. *)
Theorem book_load_rewinds (dom : Dom) (book : Book) (ws : list string)
    (w : World) (el : string -> bool -> option Z) (during : list Op) :
  type_ book <> "epub"%string ->
  advance_ok w ->
  measure_el dom = Some el ->
  display_area dom = true ->
  main_container dom = true ->
  ws <> [] ->
  Forall (fun x => x <> ""%string) ws ->
  (exists w1,
     selectBook_begin dom book ws w = LoadingPDF w1
     /\ W.st w1 = mkState (mode (W.st w)) false 0 0
     /\ words (engine w1) = ws
     /\ WordMetrics.words (metrics (engine w1)) = ws
     /\ sentenceWordMap (engine w1) = snd (_initializeSentences ws)
     /\ RenderEngine.sentenceWordMap (renderer (engine w1))
        = sentenceWordMap (engine w1)
     /\ RenderEngine.metrics (renderer (engine w1)) = metrics (engine w1)
     /\ advances w1 = []
     /\ intervalId (engine w1) = None
     /\ currentBook w1 = currentBook w
     /\ sessionStorage w1 = sessionStorage w
     /\ (let w2 := selectBook_run dom book ws during true w in
         currentBook w2 = Some book
         /\ loadState w2 = Some (snapshot w2 book)
         /\ W.st w2 = W.st (run during w1)
         /\ same_document w1 w2)
     /\ (let w2 := selectBook_run dom book ws during false w in
         w2 = run during w1
         /\ currentBook w2 = currentBook w
         /\ same_document w1 w2))
  /\ (forall (epub : Book) loaded,
        type_ epub = "epub"%string ->
        selectBook_run dom epub ws during loaded w = w).
Proof.
  intros Hty Hao Hel Hda Hmc Hne Hall. split.
  2:{ intros epub loaded He. unfold selectBook_run, selectBook_begin.
      now rewrite He. }
  destruct (metrics_constructor_total dom (config w) ws el Hel Hne Hall)
    as (m & Hm & Hws & _).
  assert (Hr : RenderEngine.constructor dom m (snd (_initializeSentences ws))
               = inr (RenderEngine.mk m (snd (_initializeSentences ws)))).
  { unfold RenderEngine.constructor. now rewrite Hda, Hmc. }
  assert (Hne' : String.eqb (type_ book) "epub" = false)
    by now apply String.eqb_neq.
  unfold selectBook_run, selectBook_begin. rewrite Hne'.
  rewrite (loadNewText_ok dom ws w m _ Hm Hr).
  set (w3 := W.set_engine _ (WordMarqueeEngine.stop w)).
  set (w1 := WordMarqueeEngine.render w3).
  exists w1.
  assert (He : engine w1 = engine w3) by apply render_engine.
  destruct (stop_engine_fields w) as (_ & _ & _ & _ & Hcb & Hss & _).
  split; [reflexivity|].
  split.
  { unfold W.st. rewrite He. unfold w3. cbn.
    fold (W.st (WordMarqueeEngine.stop w)). now rewrite stop_st. }
  rewrite He. unfold w3 at 1 2 3 4 5 6 7. cbn [engine W.set_engine words metrics
    sentenceWordMap renderer RenderEngine.sentenceWordMap RenderEngine.metrics
    intervalId].
  split; [reflexivity|]. split; [exact Hws|]. split; [reflexivity|].
  split; [reflexivity|]. split; [reflexivity|].
  split.
  { unfold w1, advances. rewrite render_timers. unfold w3.
    cbn [timers W.set_engine]. now apply stop_clears. }
  split; [apply stop_intervalId|].
  split; [unfold w1; rewrite render_book; exact Hcb|].
  split.
  { unfold w1. rewrite render_sessionStorage. exact Hss. }
  assert (Hrb : currentBook (run during w1) = currentBook w).
  { rewrite run_currentBook. unfold w1. rewrite render_book. exact Hcb. }
  split.
  - cbv zeta. unfold selectBook_end.
    set (w4 := W.set_currentBook (Some book) (run during w1)).
    assert (Hc4 : currentBook w4 = Some book) by reflexivity.
    assert (Hsave : saveState w4
                    = W.set_sessionStorage (Some (snapshot w4 book)) w4)
      by (unfold saveState; now rewrite Hc4).
    rewrite Hsave. split; [reflexivity|]. split; [reflexivity|].
    split; [reflexivity|]. exact (run_same_document during w1).
  - cbv zeta. unfold selectBook_end. split; [reflexivity|].
    split; [exact Hrb|]. exact (run_same_document during w1).
Qed.

Lemma book_load_rewinds_witness :
  let w := run [Start] (page_of fallback_dom two_sentences) in
  let ws := ["Dr."; "Smith"; "arrived."; "He"; "left."]%string in
  let during := [Wheel 1; Wheel 1; ToggleMode] in
  (isPlaying (W.st w) = true
   /\ type_ a_book <> "epub"%string
   /\ W.st (selectBook_run fallback_dom a_book ws during true w)
      = mkState "sentence" false 0 0)
  /\ (exists w1,
        selectBook_begin fallback_dom a_book ws w = LoadingPDF w1
        /\ W.st w1 = mkState (mode (W.st w)) false 0 0
        /\ words (engine w1) = ws
        /\ WordMetrics.words (metrics (engine w1)) = ws
        /\ sentenceWordMap (engine w1) = snd (_initializeSentences ws)
        /\ RenderEngine.sentenceWordMap (renderer (engine w1))
           = sentenceWordMap (engine w1)
        /\ RenderEngine.metrics (renderer (engine w1)) = metrics (engine w1)
        /\ advances w1 = []
        /\ intervalId (engine w1) = None
        /\ currentBook w1 = currentBook w
        /\ sessionStorage w1 = sessionStorage w
        /\ (let w2 := selectBook_run fallback_dom a_book ws during true w in
            currentBook w2 = Some a_book
            /\ loadState w2 = Some (snapshot w2 a_book)
            /\ W.st w2 = W.st (run during w1)
            /\ same_document w1 w2)
        /\ (let w2 := selectBook_run fallback_dom a_book ws during false w in
            w2 = run during w1
            /\ currentBook w2 = currentBook w
            /\ same_document w1 w2))
  /\ (forall (epub : Book) loaded,
        type_ epub = "epub"%string ->
        selectBook_run fallback_dom epub ws during loaded w = w).
Proof.
  cbv zeta.
  split.
  { split; [vm_compute; reflexivity|].
    split; [discriminate | vm_compute; reflexivity]. }
  apply (book_load_rewinds fallback_dom a_book
           ["Dr."; "Smith"; "arrived."; "He"; "left."]%string
           (run [Start] (page_of fallback_dom two_sentences))
           (fun _ _ => None) [Wheel 1; Wheel 1; ToggleMode]).
  - discriminate.
  - apply advance_ok_run. unfold page_of, engine_of.
    destruct (WordMarqueeEngine.constructor _ _ _); apply advance_ok_boot.
  - reflexivity.
  - reflexivity.
  - reflexivity.
  - discriminate.
  - repeat constructor; discriminate.
Defined.

Lemma book_words_clean text :
  book_words (cleanText text) = JS.split_words text.
Proof.
  unfold book_words. rewrite cleanText_chars.
  rewrite split_space_words by apply spaced_spaces.
  rewrite (words_of_spaced (JS.chars text) []).
  symmetry. apply split_words_words.
Qed.

Lemma split_words_tokens text : forallb is_token (JS.split_words text) = true.
Proof. rewrite split_words_words. now apply words_of_tokens. Qed.

Lemma join_split_words text :
  JS.join_space (JS.split_words text) = cleanText text.
Proof.
  apply chars_inj. fold (JS.chars (JS.join_space (JS.split_words text))).
  fold (JS.chars (cleanText text)).
  rewrite split_words_words, join_space_chars, cleanText_chars.
  apply (join_words_of (JS.chars text) []).
Qed.

Lemma blank_has_no_words text :
  JS.trim text = ""%string -> JS.split_words text = [].
Proof.
  intros E. apply length_zero_iff_nil. rewrite split_words_count.
  apply trim_empty_count. now rewrite E.
Qed.

(** X13: a book that is not an EPUB and whose text is blank is rejected:
    the load throws on the empty list of words, [selectBook] catches the
    exception and returns before it waits for the PDF viewer, and the
    reader keeps the previous book as the current one, the stored
    snapshot, the metrics, the sentence map, the renderer and the
    display; playback is stopped, and the field [words] of the engine is
    left empty. *)
Theorem blank_book_is_rejected (dom : Dom) (book : Book) (text : string)
    (w : World) (during : list Op) (loaded : bool) :
  type_ book <> "epub"%string ->
  advance_ok w ->
  JS.trim text = ""%string ->
  let w' := selectBook_text dom book text during loaded w in
  selectBook_begin dom book (book_words (cleanText text)) w = Returned w'
  /\ fst (WordMarqueeEngine.loadNewText dom (book_words (cleanText text)) w)
     = Some (Error "WordMetrics: words must be a non-empty array")
  /\ currentBook w' = currentBook w
  /\ sessionStorage w' = sessionStorage w
  /\ metrics (engine w') = metrics (engine w)
  /\ sentenceWordMap (engine w') = sentenceWordMap (engine w)
  /\ renderer (engine w') = renderer (engine w)
  /\ display w' = display w
  /\ W.st w' = W.set_isPlaying false (W.st w)
  /\ advances w' = []
  /\ words (engine w') = [].
Proof.
  intros Hty Hao Hb. cbv zeta.
  assert (Hne' : String.eqb (type_ book) "epub" = false)
    by now apply String.eqb_neq.
  unfold selectBook_text, selectBook_run, selectBook_begin. rewrite Hne'.
  rewrite book_words_clean, (blank_has_no_words text Hb).
  unfold WordMarqueeEngine.loadNewText. cbn [WordMetrics.constructor fst].
  destruct (stop_engine_fields w) as (_ & Hm & _ & Hr & Hc & Hs & Hd).
  cbn [currentBook sessionStorage engine W.set_engine metrics sentenceWordMap
       renderer display words].
  split; [reflexivity|]. split; [reflexivity|].
  repeat split; try assumption.
  - apply stop_map.
  - unfold W.st. cbn [engine W.set_engine state].
    fold (W.st (WordMarqueeEngine.stop w)). apply stop_st.
  - unfold advances. cbn [timers W.set_engine]. now apply stop_clears.
Qed.

Lemma blank_book_is_rejected_witness :
  let w := run [Start] (page_of fallback_dom two_sentences) in
  let w' := selectBook_text fallback_dom a_book "   " [Start] true w in
  (isPlaying (W.st w) = true /\ type_ a_book <> "epub"%string)
  /\ selectBook_begin fallback_dom a_book (book_words (cleanText "   ")) w
     = Returned w'
  /\ fst (WordMarqueeEngine.loadNewText fallback_dom
            (book_words (cleanText "   ")) w)
     = Some (Error "WordMetrics: words must be a non-empty array")
  /\ currentBook w' = currentBook w
  /\ sessionStorage w' = sessionStorage w
  /\ metrics (engine w') = metrics (engine w)
  /\ sentenceWordMap (engine w') = sentenceWordMap (engine w)
  /\ renderer (engine w') = renderer (engine w)
  /\ display w' = display w
  /\ W.st w' = W.set_isPlaying false (W.st w)
  /\ advances w' = []
  /\ words (engine w') = [].
Proof.
  cbv zeta. split; [split; [vm_compute; reflexivity | discriminate]|].
  apply (blank_book_is_rejected fallback_dom a_book "   "
           (run [Start] (page_of fallback_dom two_sentences)) [Start] true).
  - discriminate.
  - apply advance_ok_run. unfold page_of, engine_of.
    destruct (WordMarqueeEngine.constructor _ _ _); apply advance_ok_boot.
  - reflexivity.
Defined.

Lemma loadNewText_success dom ws w :
  fst (WordMarqueeEngine.loadNewText dom ws w) = None ->
  exists m r,
    WordMetrics.constructor dom (JSArray ws) (config w) = inr m
    /\ RenderEngine.constructor dom m (snd (_initializeSentences ws)) = inr r.
Proof.
  unfold WordMarqueeEngine.loadNewText.
  cbn [config W.set_engine]. rewrite stop_config.
  destruct (WordMetrics.constructor dom (JSArray ws) (config w)) as [err|m];
    [discriminate|].
  destruct (_initializeSentences ws) as [ss mp]. cbn [snd engine W.set_engine].
  destruct (RenderEngine.constructor dom m mp) as [err|r] eqn:Hr;
    [discriminate|].
  intros _. now exists m, r.
Qed.

Lemma metrics_constructor_words dom ws cfg m :
  WordMetrics.constructor dom (JSArray ws) cfg = inr m ->
  ws <> [] /\ WordMetrics.words m = ws.
Proof.
  unfold WordMetrics.constructor.
  destruct ws as [|x ws]; [discriminate|].
  destruct (measure_el dom) as [el|]; [|discriminate].
  destruct (WordMetrics._calculateWordPositions el cfg (x :: ws) ∅)
    as [[err|ps] cache]; [discriminate|].
  intros H. injection H as <-. now cbn.
Qed.

(** X14: after a book is opened, the focus stays inside the document.
    When the book is not an EPUB, the load succeeds, the page size is
    positive, and the cleaned text has no stop character right before a
    quote that an upper-case letter follows, every state that the events
    of the engine reach from the load on, while the PDF viewer loads and
    after it has loaded, has [0 <= focusIndex < wordCount]; the words of
    the book are the words of the text. *)
Theorem opened_book_keeps_focus (dom : Dom) (book : Book) (text : string)
    (w : World) (during : list Op) (loaded : bool) (ops : list Op) :
  type_ book <> "epub"%string ->
  stop_quote_upper (JS.chars (cleanText text)) = false ->
  0 < wordsPerPage (config w) ->
  fst (WordMarqueeEngine.loadNewText dom (book_words (cleanText text)) w)
    = None ->
  let w' := run ops (selectBook_text dom book text during loaded w) in
  0 <= focusIndex (W.st w') < WordMetrics.getWordCount (metrics (engine w'))
  /\ WordMetrics.words (metrics (engine w')) = JS.split_words text.
Proof.
  intros Hty HQ Hw Hok. cbv zeta.
  assert (Hne' : String.eqb (type_ book) "epub" = false)
    by now apply String.eqb_neq.
  unfold selectBook_text, selectBook_run, selectBook_begin. rewrite Hne'.
  rewrite book_words_clean in *. set (ws := JS.split_words text) in *.
  destruct (loadNewText_success dom ws w Hok) as (m & r & Hm & Hr).
  rewrite (loadNewText_ok dom ws w m r Hm Hr).
  destruct (metrics_constructor_words _ _ _ _ Hm) as [Hne Hws].
  set (w3 := W.set_engine _ (WordMarqueeEngine.stop w)).
  set (w1 := WordMarqueeEngine.render w3).
  assert (Hdoc : document_ok w1).
  { apply document_ok_render.
    unfold document_ok, focus_ok, W.st, WordMetrics.getWordCount, w3.
    cbn [engine W.set_engine state metrics sentenceWordMap config focusIndex
         WordMarqueeEngine.initial_state].
    rewrite Hws, stop_config.
    assert (Hlen : 0 < Z.of_nat (length ws))
      by (destruct ws; [easy | cbn; lia]).
    split; [lia|]. split; [|exact Hw].
    intros sp Hin. unfold _initializeSentences in Hin. cbn [snd] in Hin.
    pose proof (map_sentences_nonempty _ 0 0 sp
                  (detectSentences_nonempty _) Hin) as Hse.
    assert (Hc : 0 <= startWordIndex sp
                 < 0 + total_words
                         (SentenceDetector.detectSentences
                            (JS.join_space ws))).
    { apply (map_sentences_cover _ 0 0). exists sp. split; [exact Hin | lia]. }
    rewrite detectSentences_words in Hc
      by (unfold ws; now rewrite join_split_words).
    rewrite (join_tokens_count ws (split_words_tokens text)) in Hc. lia. }
  set (w2 := selectBook_end book loaded (run during w1)).
  assert (Hdoc2 : document_ok w2).
  { unfold w2, selectBook_end.
    pose proof (focus_stays_in_document during w1 Hdoc) as Hd.
    destruct loaded; [|exact Hd].
    apply document_ok_saveState.
    now apply (document_ok_same (run during w1)). }
  pose proof (focus_stays_in_document ops w2 Hdoc2) as (Hf & _).
  split; [exact Hf|].
  destruct (run_same_document ops w2) as (_ & Hm2 & _).
  rewrite Hm2.
  assert (Hm1 : metrics (engine w2) = metrics (engine (run during w1))).
  { unfold w2, selectBook_end. destruct loaded; [|reflexivity].
    now rewrite saveState_engine. }
  rewrite Hm1.
  destruct (run_same_document during w1) as (_ & Hm3 & _).
  rewrite Hm3. unfold w1. rewrite render_engine. unfold w3. cbn. exact Hws.
Qed.

Lemma opened_book_keeps_focus_witness :
  let quoted := (String JS.dquote "No." +:+ String JS.dquote "")%string in
  let text := (" He said  " +:+ quoted +:+ " Then left. Done. ")%string in
  let w' := run [ToggleMode; Wheel (-1); Start]
              (selectBook_text fallback_dom a_book text [Wheel 1] true
                 (page_of fallback_dom two_sentences)) in
  W.st w' = mkState "sentence" false 5 1
  /\ 0 <= focusIndex (W.st w')
       < WordMetrics.getWordCount (metrics (engine w'))
  /\ WordMetrics.words (metrics (engine w')) = JS.split_words text.
Proof.
  cbv zeta. split; [vm_compute; reflexivity|].
  apply (opened_book_keeps_focus fallback_dom a_book
           (" He said  " +:+ (String JS.dquote "No." +:+ String JS.dquote "")
              +:+ " Then left. Done. ")
           (page_of fallback_dom two_sentences) [Wheel 1] true
           [ToggleMode; Wheel (-1); Start]).
  - discriminate.
  - vm_compute. reflexivity.
  - vm_compute. reflexivity.
  - vm_compute. reflexivity.
Defined.

(** ** The cache and the layout *)

Lemma ci_ret {A} el (a : A) : cache_independent el (WordMetrics.ret a).
Proof. intros c1 c2 H1 H2. now cbn. Qed.

Lemma ci_bind {A B} el (c : WordMetrics.M A) (k : A -> WordMetrics.M B) :
  cache_independent el c -> (forall a, cache_independent el (k a)) ->
  cache_independent el (WordMetrics.bind c k).
Proof.
  intros Hc Hk c1 c2 H1 H2. unfold WordMetrics.bind.
  destruct (Hc c1 c2 H1 H2) as [Hf Ho1].
  destruct (Hc c2 c1 H2 H1) as [_ Ho2].
  destruct (c c1) as [[e1|a1] c1'], (c c2) as [[e2|a2] c2']; cbn in *;
    try discriminate.
  - injection Hf as <-. now split.
  - injection Hf as <-. now apply Hk.
Qed.

Lemma ci_measureText el t b :
  valid_request t b -> cache_independent el (WordMetrics._measureText el t b).
Proof.
  intros Hv c1 c2 H1 H2.
  destruct (measureText_spec el t b c1 H1 Hv) as [E1 O1].
  destruct (measureText_spec el t b c2 H2 Hv) as [E2 _].
  split; [congruence | exact O1].
Qed.

Lemma ci_getWordWidth el word isFocus :
  cache_independent el (WordMetrics.getWordWidth el word isFocus).
Proof.
  unfold WordMetrics.getWordWidth. destruct isFocus; cbn [negb].
  - apply ci_bind; [apply ci_measureText, string_valid|]. intros b.
    apply ci_bind; [apply ci_measureText, char_at_valid; now right|].
    intros m. apply ci_bind; [apply ci_measureText, string_valid|].
    intros a. apply ci_ret.
  - apply ci_measureText, string_valid.
Qed.

Lemma ci_offset_loop el word : forall n i acc,
  (i + n <= String.length word)%nat ->
  cache_independent el (WordMetrics.offset_loop el word n i acc).
Proof.
  induction n as [|n IH]; intros i acc Hle;
    cbn [WordMetrics.offset_loop]; [apply ci_ret|].
  apply ci_bind; [apply ci_measureText, char_at_valid; left; lia|].
  intros w. apply IH. lia.
Qed.

Lemma ci_getMiddleLetterOffset el word :
  cache_independent el (WordMetrics.getMiddleLetterOffset el word).
Proof.
  unfold WordMetrics.getMiddleLetterOffset.
  apply ci_bind.
  - apply ci_offset_loop. apply (center_index_le (String.length word)).
  - intros o. apply ci_bind; [apply ci_measureText, char_at_valid; now right|].
    intros m. apply ci_ret.
Qed.

Lemma ci_positions_loop el cfg : forall ws idx cum acc,
  cache_independent el (WordMetrics.positions_loop el cfg ws idx cum acc).
Proof.
  induction ws as [|w ws IH]; intros idx cum acc;
    cbn [WordMetrics.positions_loop]; [apply ci_ret|].
  apply ci_bind; [apply ci_getWordWidth|]. intros v.
  apply ci_bind; [apply ci_getMiddleLetterOffset|]. intros q. apply IH.
Qed.

Lemma getWordWidth_plain el word cache :
  cache_ok el cache ->
  fst (WordMetrics.getWordWidth el word false cache)
  = inr (measured el word false).
Proof.
  intros Hok. unfold WordMetrics.getWordWidth. cbn [negb].
  destruct (measureText_spec el (Some word) false cache Hok (string_valid word))
    as [E _].
  now rewrite E, measured_char_Some.
Qed.

(** X15: the cache of measurements is only a shortcut. With any cache
    that agrees with the measure element, the layout pass computes the
    positions (or throws the exception) that it computes with the empty
    cache and leaves a cache that agrees with the element; so does
    [getWordWidth], and for a word that is not the focus it returns the
    width that the element reports for the word, or ten pixels a
    character when the element fails. *)
Theorem layout_ignores_the_cache (el : string -> bool -> option Z)
    (cfg : Config) (ws : list string) (cache : gmap string Z) :
  cache_ok el cache ->
  fst (WordMetrics._calculateWordPositions el cfg ws cache)
  = fst (WordMetrics._calculateWordPositions el cfg ws ∅)
  /\ cache_ok el (snd (WordMetrics._calculateWordPositions el cfg ws cache))
  /\ (forall word isFocus,
        fst (WordMetrics.getWordWidth el word isFocus cache)
        = fst (WordMetrics.getWordWidth el word isFocus ∅)
        /\ cache_ok el (snd (WordMetrics.getWordWidth el word isFocus cache)))
  /\ (forall word,
        fst (WordMetrics.getWordWidth el word false cache)
        = inr (measured el word false)).
Proof.
  intros Hok. pose proof (cache_ok_empty el) as He.
  split; [|split; [|split]].
  - now apply (ci_positions_loop el cfg ws 0 0 []).
  - now apply (ci_positions_loop el cfg ws 0 0 [] cache ∅).
  - intros word isFocus. now apply ci_getWordWidth.
  - intros word. now apply getWordWidth_plain.
Qed.

Lemma layout_ignores_the_cache_witness :
  let ws := ["cat"; "it"; "reading"]%string in
  let cache := snd (WordMetrics._calculateWordPositions seven_pixels CONFIG
                      ws ∅) in
  cache !! "t_false"%string = Some 7
  /\ fst (WordMetrics._calculateWordPositions seven_pixels CONFIG ws cache)
     = fst (WordMetrics._calculateWordPositions seven_pixels CONFIG ws ∅)
  /\ cache_ok seven_pixels
       (snd (WordMetrics._calculateWordPositions seven_pixels CONFIG ws cache))
  /\ (forall word isFocus,
        fst (WordMetrics.getWordWidth seven_pixels word isFocus cache)
        = fst (WordMetrics.getWordWidth seven_pixels word isFocus ∅)
        /\ cache_ok seven_pixels
             (snd (WordMetrics.getWordWidth seven_pixels word isFocus cache)))
  /\ (forall word,
        fst (WordMetrics.getWordWidth seven_pixels word false cache)
        = inr (measured seven_pixels word false)).
Proof.
  cbv zeta. split; [vm_compute; reflexivity|].
  apply (layout_ignores_the_cache seven_pixels CONFIG
           ["cat"; "it"; "reading"]%string).
  now apply (ci_positions_loop seven_pixels CONFIG
               ["cat"; "it"; "reading"]%string 0 0 [] ∅ ∅);
    apply cache_ok_empty.
Defined.

Lemma positions_loop_described el cfg :
  forall ws idx cum acc cache ps cache',
  WordMetrics.positions_loop el cfg ws idx cum acc cache = (inr ps, cache') ->
  exists new, ps = acc ++ new /\ described (wordSpacing cfg) idx cum ws new.
Proof.
  induction ws as [|w ws IH]; intros idx cum acc cache ps cache' H;
    cbn [WordMetrics.positions_loop] in H.
  - unfold WordMetrics.ret in H. injection H as <- <-.
    exists []. now rewrite app_nil_r.
  - apply bind_inr in H. destruct H as (v & c1 & Hv & H).
    apply bind_inr in H. destruct H as (q & c2 & Hq & H).
    apply IH in H. destruct H as (new & -> & Hd).
    eexists (_ :: new). split; [now rewrite <- app_assoc|].
    cbn. repeat split. exact Hd.
Qed.

Lemma described_length sp : forall ws ps idx cum,
  described sp idx cum ws ps -> length ps = length ws.
Proof.
  induction ws as [|w ws IH]; intros [|p ps] idx cum H; cbn in *;
    try easy.
  destruct H as (_ & _ & _ & _ & H). f_equal. now apply (IH _ _ _ H).
Qed.

Lemma described_lookup sp : forall ws ps idx cum (i : nat) p,
  described sp idx cum ws ps -> ps !! i = Some p ->
  index p = idx + Z.of_nat i
  /\ ws !! i = Some (word p)
  /\ centerPosition p = (inject_Z (startPosition p) + middleLetterOffset p)%Q
  /\ (i = 0%nat -> startPosition p = cum)
  /\ (forall q, ps !! S i = Some q ->
        startPosition q = startPosition p + (width p + sp)).
Proof.
  induction ws as [|w ws IH]; intros [|p0 ps] idx cum i p H Hp;
    cbn in H; try easy.
  destruct H as (Hw & Hi & Hs & Hc & H).
  destruct i as [|i]; cbn in Hp.
  - injection Hp as <-. rewrite Hs. repeat split; try easy; [lia| |].
    + cbn. now rewrite Hw.
    + intros q Hq. cbn in Hq. destruct ps as [|p1 ps]; [discriminate|].
      cbn in Hq. injection Hq as <-.
      destruct ws as [|w1 ws]; [easy|]. cbn in H. tauto.
  - destruct (IH ps (idx + 1) _ i p H Hp) as (Hi' & Hw' & Hc' & _ & Hn').
    repeat split; try easy; lia.
Qed.

(** X16: the positional index describes the words in their order. For
    the metrics that the constructor returns, there are as many records
    as words; [getWordPositionData] is [null] exactly outside
    [0, wordCount - 1]; the record of index [i] carries the index [i] and
    the word [i]; the first word starts at 0, each next word starts where
    the previous one started plus its width and the spacing; and the
    centre is the start plus the offset of the middle letter. *)
Theorem positions_describe_the_words (dom : Dom) (ws : list string)
    (cfg : Config) (m : WordMetrics.t) :
  WordMetrics.constructor dom (JSArray ws) cfg = inr m ->
  WordMetrics.words m = ws
  /\ WordMetrics.getWordCount m = Z.of_nat (length ws)
  /\ length (WordMetrics.wordPositions m) = length ws
  /\ (forall i, WordMetrics.getWordPositionData m i = None
                <-> (i < 0 \/ Z.of_nat (length ws) <= i))
  /\ (forall (i : nat) p,
        WordMetrics.wordPositions m !! i = Some p ->
        WordMetrics.getWordPositionData m (Z.of_nat i) = Some p
        /\ index p = Z.of_nat i
        /\ ws !! i = Some (word p)
        /\ centerPosition p
           = (inject_Z (startPosition p) + middleLetterOffset p)%Q
        /\ (i = 0%nat -> startPosition p = 0)
        /\ (forall q, WordMetrics.wordPositions m !! S i = Some q ->
              startPosition q
              = startPosition p + (width p + wordSpacing cfg))).
Proof.
  unfold WordMetrics.constructor. intros H.
  destruct ws as [|w0 ws0] eqn:Ews; [discriminate|]. rewrite <- Ews in *.
  assert (H' : match measure_el dom with
               | Some el =>
                   match WordMetrics._calculateWordPositions el cfg ws ∅ with
                   | (inr positions, cache) =>
                       inr (WordMetrics.mk ws cfg cache el positions)
                   | (inl e, _) => inl e
                   end
               | None => inl (Error "WordMetrics: measure element not found")
               end = inr m) by (now rewrite Ews in *).
  clear H. destruct (measure_el dom) as [el|]; [|discriminate].
  destruct (WordMetrics._calculateWordPositions el cfg ws ∅)
    as [[err|ps] cache] eqn:Hps; [discriminate|].
  injection H' as <-.
  apply positions_loop_described in Hps. destruct Hps as (new & -> & Hd).
  cbn [app] in *. pose proof (described_length _ _ _ _ _ Hd) as Hlen.
  unfold WordMetrics.getWordCount. cbn [WordMetrics.words WordMetrics.wordPositions].
  split; [reflexivity|]. split; [reflexivity|]. split; [exact Hlen|].
  split.
  - intros i. unfold WordMetrics.getWordPositionData.
    cbn [WordMetrics.wordPositions]. rewrite Hlen.
    destruct (Z.ltb_spec i 0) as [Hi|Hi]; cbn [orb]; [tauto|].
    destruct (Z.leb_spec (Z.of_nat (length ws)) i) as [Hj|Hj]; [tauto|].
    split; [|lia]. intros Hnone. apply lookup_ge_None in Hnone. lia.
  - intros i p Hp.
    destruct (described_lookup _ _ _ _ _ i p Hd Hp) as (Hi & Hw & Hc & H0 & Hn).
    split; [|repeat split; try assumption; lia].
    rewrite getWordPositionData_nat. exact Hp.
Qed.

Lemma positions_describe_the_words_witness :
  let ws := ["cat"; "it"; "reading"]%string in
  WordMetrics.words three_words = ws
  /\ WordMetrics.getWordCount three_words = Z.of_nat (length ws)
  /\ length (WordMetrics.wordPositions three_words) = length ws
  /\ (forall i, WordMetrics.getWordPositionData three_words i = None
                <-> (i < 0 \/ Z.of_nat (length ws) <= i))
  /\ (forall (i : nat) p,
        WordMetrics.wordPositions three_words !! i = Some p ->
        WordMetrics.getWordPositionData three_words (Z.of_nat i) = Some p
        /\ index p = Z.of_nat i
        /\ ws !! i = Some (word p)
        /\ centerPosition p
           = (inject_Z (startPosition p) + middleLetterOffset p)%Q
        /\ (i = 0%nat -> startPosition p = 0)
        /\ (forall q, WordMetrics.wordPositions three_words !! S i = Some q ->
              startPosition q
              = startPosition p + (width p + wordSpacing CONFIG))).
Proof.
  cbv zeta.
  apply (positions_describe_the_words fallback_dom
           ["cat"; "it"; "reading"]%string CONFIG three_words).
  vm_compute. reflexivity.
Defined.

(** ** The colours *)

Lemma hex_digit_range c v : hex_digit c = Some v -> 0 <= v <= 15.
Proof.
  unfold hex_digit. cbv zeta.
  repeat match goal with
         | |- context [if ?b then _ else _] => destruct b eqn:?
         end; intros H; inversion H; subst;
    repeat match goal with
           | H : (_ && _)%bool = true |- _ =>
               apply andb_prop in H; destruct H
           | H : (_ <=? _)%N = true |- _ => apply N.leb_le in H
           end; lia.
Qed.

Lemma hex_pair_range a b v : hex_pair a b = Some v -> 0 <= v <= 255.
Proof.
  unfold hex_pair.
  destruct (hex_digit a) as [h|] eqn:Ha; [|discriminate].
  destruct (hex_digit b) as [l|] eqn:Hb; [|discriminate].
  intros H. injection H as <-.
  apply hex_digit_range in Ha, Hb. lia.
Qed.

Lemma channel_range v :
  0 <= v <= 255 -> (0 <= inject_Z v / 255 <= 1)%Q.
Proof.
  intros [H0 H1]. rewrite Zle_Qle in H0, H1.
  change (inject_Z 0) with 0%Q in H0. change (inject_Z 255) with 255%Q in H1.
  unfold Qdiv. change (/ 255)%Q with (1 # 255)%Q. lra.
Qed.

Lemma hex_digit_upper c : hex_digit (upper_char c) = hex_digit c.
Proof.
  destruct c as [[] [] [] [] [] [] [] []]; reflexivity.
Qed.

Lemma upper_hash c : Ascii.eqb (upper_char c) "#" = Ascii.eqb c "#".
Proof.
  destruct c as [[] [] [] [] [] [] [] []]; reflexivity.
Qed.

Lemma hex_pair_upper a b :
  hex_pair (upper_char a) (upper_char b) = hex_pair a b.
Proof. unfold hex_pair. now rewrite !hex_digit_upper. Qed.

(** X17: [hexToRgb] returns three channels between 0 and 1, each a
    number of 255ths; the leading [#] is optional; the letters may be in
    either case; and a string that is not six hexadecimal digits after
    the optional [#], the three-digit short form for one, gives black. *)
Theorem hex_colors_are_channels (hex : string) :
  let c := hexToRgb hex in
  (exists R G B,
     0 <= R <= 255 /\ 0 <= G <= 255 /\ 0 <= B <= 255
     /\ (red c == inject_Z R / 255)%Q
     /\ (green c == inject_Z G / 255)%Q
     /\ (blue c == inject_Z B / 255)%Q)
  /\ ((0 <= red c <= 1)%Q /\ (0 <= green c <= 1)%Q /\ (0 <= blue c <= 1)%Q)
  /\ (JS.at_ hex 0 <> Some "#"%char -> hexToRgb (String "#" hex) = c)
  /\ hexToRgb (JS.of_chars (List.map upper_char (JS.chars hex))) = c
  /\ (String.length hex <> 6%nat ->
      (String.length hex = 7%nat -> JS.at_ hex 0 <> Some "#"%char) ->
      c = mkRgb 0 0 0).
Proof.
  cbv zeta. unfold hexToRgb.
  assert (Hch : forall l, exists R G B,
            0 <= R <= 255 /\ 0 <= G <= 255 /\ 0 <= B <= 255
            /\ (red (channels l) == inject_Z R / 255)%Q
            /\ (green (channels l) == inject_Z G / 255)%Q
            /\ (blue (channels l) == inject_Z B / 255)%Q).
  { intros l.
    assert (Hblack : exists R G B,
              0 <= R <= 255 /\ 0 <= G <= 255 /\ 0 <= B <= 255
              /\ (red (mkRgb 0 0 0) == inject_Z R / 255)%Q
              /\ (green (mkRgb 0 0 0) == inject_Z G / 255)%Q
              /\ (blue (mkRgb 0 0 0) == inject_Z B / 255)%Q)
      by (exists 0, 0, 0; repeat split; try lia; reflexivity).
    unfold channels.
    destruct l as [|r1 [|r2 [|g1 [|g2 [|b1 [|b2 [|x rest]]]]]]];
      try exact Hblack.
    destruct (hex_pair r1 r2) as [R|] eqn:HR; [|exact Hblack].
    destruct (hex_pair g1 g2) as [G|] eqn:HG; [|exact Hblack].
    destruct (hex_pair b1 b2) as [B|] eqn:HB; [|exact Hblack].
    exists R, G, B. apply hex_pair_range in HR, HG, HB.
    repeat split; try lia; reflexivity. }
  split; [apply Hch|]. split; [|split; [|split]].
  - destruct (Hch (strip_hash (JS.chars hex)))
      as (R & G & B & HR & HG & HB & -> & -> & ->).
    repeat split; now apply channel_range.
  - intros Hne.
    change (JS.chars (String "#" hex)) with ("#"%char :: JS.chars hex).
    change (strip_hash ("#"%char :: JS.chars hex)) with (JS.chars hex).
    f_equal. unfold JS.at_ in Hne. rewrite get_chars in Hne.
    destruct (JS.chars hex) as [|c rest]; [reflexivity|]. cbn in *.
    destruct (Ascii.eqb c "#") eqn:E; [|reflexivity].
    apply Ascii.eqb_eq in E. now subst.
  - rewrite chars_of_chars.
    assert (Hs : forall l, strip_hash (List.map upper_char l)
                           = List.map upper_char (strip_hash l)).
    { intros [|c l]; [reflexivity|]. cbn [List.map strip_hash].
      rewrite upper_hash. now destruct (Ascii.eqb c "#"). }
    assert (Hc : forall l, channels (List.map upper_char l) = channels l).
    { intros l.
      destruct l as [|r1 [|r2 [|g1 [|g2 [|b1 [|b2 [|x rest]]]]]]];
        try reflexivity.
      cbn [List.map channels]. now rewrite !hex_pair_upper. }
    now rewrite Hs, Hc.
  - intros H6 H7.
    rewrite <- chars_length in H6, H7. unfold JS.at_ in H7.
    rewrite get_chars in H7. fold (JS.chars hex) in H6, H7.
    destruct (JS.chars hex) as [|c cs]; [reflexivity|]. cbn [strip_hash].
    destruct (Ascii.eqb c "#") eqn:E.
    + apply Ascii.eqb_eq in E. subst c.
      destruct cs as [|r1 [|r2 [|g1 [|g2 [|b1 [|b2 [|x rest]]]]]]];
        try reflexivity.
      exfalso. now apply H7.
    + destruct cs as [|r2 [|g1 [|g2 [|b1 [|b2 [|x rest]]]]]];
        try reflexivity.
      exfalso. now apply H6.
Qed.

(** ** The words that the renderer shows *)

Lemma consecutive_app a l1 : forall l2,
  consecutive a (l1 ++ l2)
  <-> consecutive a l1 /\ consecutive (a + Z.of_nat (length l1)) l2.
Proof.
  revert a. induction l1 as [|x l1 IH]; intros a l2; cbn [app length consecutive].
  - rewrite Z.add_0_r. tauto.
  - rewrite IH. replace (a + 1 + Z.of_nat (length l1))
      with (a + Z.of_nat (S (length l1))) by lia. tauto.
Qed.

Lemma consecutive_snoc a l i :
  consecutive a l -> a + Z.of_nat (length l) = i -> consecutive a (l ++ [i]).
Proof.
  intros H E. apply consecutive_app. split; [exact H|]. cbn. split; [lia|exact I].
Qed.

Lemma window_getWordWidth_total m word cache :
  exists v cache', Window.getWordWidth m word cache = (inr v, cache').
Proof. apply measureText_total. Qed.

(** *** The focus line *)

Lemma past_on_line_spec m g : forall fuel i ws,
  -1 <= i ->
  consecutive (i + 1) (List.map lw_index ws) ->
  Forall (line_ok m g) ws ->
  exists a,
    0 <= a
    /\ consecutive a (List.map lw_index (Window.past_on_line m fuel i g ws))
    /\ a + Z.of_nat (length (Window.past_on_line m fuel i g ws))
       = i + 1 + Z.of_nat (length ws)
    /\ Forall (line_ok m g) (Window.past_on_line m fuel i g ws).
Proof.
  induction fuel as [|fuel IH]; intros i ws Hi Hc Hok;
    cbn [Window.past_on_line].
  - exists (i + 1). repeat split; try assumption; lia.
  - destruct (Z.ltb_spec i 0) as [Hneg|Hpos];
      [exists (i + 1); repeat split; try assumption; lia|].
    destruct (WordMetrics.getWordPositionData m i) as [wd|] eqn:Hwd;
      [|exists (i + 1); repeat split; try assumption; lia].
    cbv zeta. destruct (Qlt_le_dec _ 0);
      [exists (i + 1); repeat split; try assumption; lia|].
    destruct (IH (i - 1)
                (mkLineWord (word wd) i
                   (g + inject_Z (startPosition wd))%Q :: ws))
      as (a & Ha & Hca & Hla & Hoka).
    + lia.
    + cbn. split; [lia|]. now replace (i - 1 + 1 + 1) with (i + 1) by lia.
    + constructor; [|exact Hok]. exists wd. now cbn.
    + exists a. repeat split; try assumption. cbn [length] in Hla. lia.
Qed.

Lemma future_on_line_spec m cw g : forall fuel i ws s,
  consecutive s (List.map lw_index ws) ->
  s + Z.of_nat (length ws) = i ->
  i <= WordMetrics.getWordCount m ->
  Forall (line_ok m g) ws ->
  consecutive s (List.map lw_index (Window.future_on_line m cw fuel i g ws))
  /\ s + Z.of_nat (length (Window.future_on_line m cw fuel i g ws))
     <= WordMetrics.getWordCount m
  /\ Forall (line_ok m g) (Window.future_on_line m cw fuel i g ws).
Proof.
  induction fuel as [|fuel IH]; intros i ws s Hc Hs Hi Hok;
    cbn [Window.future_on_line].
  - repeat split; try assumption; lia.
  - destruct (Z.leb_spec (WordMetrics.getWordCount m) i) as [Hge|Hlt];
      [repeat split; try assumption; lia|].
    destruct (WordMetrics.getWordPositionData m i) as [wd|] eqn:Hwd;
      [|repeat split; try assumption; lia].
    cbv zeta. destruct (Qlt_le_dec _ _);
      [repeat split; try assumption; lia|].
    apply IH.
    + rewrite List.map_app. apply consecutive_snoc; [exact Hc|].
      now rewrite length_map.
    + rewrite length_app. cbn. lia.
    + lia.
    + apply Forall_app. split; [exact Hok|].
      constructor; [|constructor]. exists wd. now cbn.
Qed.

(** *** The other lines *)

Lemma past_lines_loop_spec m cw la : forall fuel i lines cur lw cache,
  -1 <= i ->
  consecutive (i + 1) (List.map rw_index (cur ++ List.concat lines)) ->
  Forall (fun l => l <> []) lines ->
  Forall (row_ok m) (cur ++ List.concat lines) ->
  (lines = [] \/ Z.of_nat (length lines) < la) ->
  exists lines' cur' cache',
    Window.past_lines_loop m cw la fuel i lines cur lw cache
      = (inr (lines', cur'), cache')
    /\ exists a,
         0 <= a
         /\ consecutive a (List.map rw_index (cur' ++ List.concat lines'))
         /\ a + Z.of_nat (length (cur' ++ List.concat lines'))
            = i + 1 + Z.of_nat (length (cur ++ List.concat lines))
         /\ Forall (fun l => l <> []) lines'
         /\ Forall (row_ok m) (cur' ++ List.concat lines')
         /\ ((cur' = [] /\ Z.of_nat (length lines') <= Z.max la 1)
             \/ lines' = [] \/ Z.of_nat (length lines') < la).
Proof.
  induction fuel as [|fuel IH]; intros i lines cur lw cache Hi Hc Hne Hok Hb;
    cbn [Window.past_lines_loop].
  - exists lines, cur, cache. split; [reflexivity|].
    exists (i + 1). repeat split; try assumption; try lia. now right.
  - destruct (Z.ltb_spec i 0) as [Hneg|Hpos].
    { exists lines, cur, cache. split; [reflexivity|].
      exists (i + 1). repeat split; try assumption; try lia. now right. }
    destruct (WordMetrics.getWordPositionData m i) as [wd|] eqn:Hwd.
    2:{ exists lines, cur, cache. split; [reflexivity|].
        exists (i + 1). repeat split; try assumption; try lia. now right. }
    cbv zeta.
    destruct (window_getWordWidth_total m (word wd) cache) as (v & c1 & Hv).
    rewrite (bind_ok _ _ _ _ _ Hv).
    assert (Hrw : row_ok m (mkRowWord (word wd) i)) by (exists wd; now cbn).
    destruct ((cw - Window.spacing m <? lw + (v + Window.spacing m))
              && (0 <? length cur)%nat) eqn:Hcond.
    + apply andb_prop in Hcond. destruct Hcond as [_ Hcur].
      apply Nat.ltb_lt in Hcur.
      assert (Hcne : cur <> []) by (destruct cur; [cbn in Hcur; lia | easy]).
      destruct (Z.leb_spec la (Z.of_nat (length (cur :: lines)))) as [Hfull|Hroom].
      * exists (cur :: lines), [], c1. split; [reflexivity|].
        exists (i + 1). cbn [app List.concat].
        repeat split; try assumption; try lia.
        -- now constructor.
        -- left. split; [reflexivity|]. cbn [length] in *.
           destruct Hb as [->|Hb]; cbn [length]; lia.
      * destruct (IH (i - 1) (cur :: lines) [mkRowWord (word wd) i]
                    (0 + (v + Window.spacing m)) c1)
          as (lines' & cur' & cache' & Hr & a & Ha & Hca & Hla & Hne' & Hok' & Hb').
        -- lia.
        -- cbn [app List.concat List.map consecutive rw_index].
           split; [lia|]. now replace (i - 1 + 1 + 1) with (i + 1) by lia.
        -- now constructor.
        -- cbn [app List.concat]. now constructor.
        -- right. lia.
        -- exists lines', cur', cache'. split; [exact Hr|].
           exists a. repeat split; try assumption.
           cbn [app List.concat length] in Hla. lia.
    + destruct (IH (i - 1) lines (mkRowWord (word wd) i :: cur)
                  (lw + (v + Window.spacing m)) c1)
        as (lines' & cur' & cache' & Hr & a & Ha & Hca & Hla & Hne' & Hok' & Hb').
      * lia.
      * cbn [app List.map consecutive rw_index].
        split; [lia|]. now replace (i - 1 + 1 + 1) with (i + 1) by lia.
      * exact Hne.
      * cbn [app]. now constructor.
      * exact Hb.
      * exists lines', cur', cache'. split; [exact Hr|].
        exists a. repeat split; try assumption.
        cbn [app length] in Hla. lia.
Qed.

Lemma calculatePastLines_spec m cw la startIndex cache :
  -1 <= startIndex ->
  exists lines cache',
    Window._calculatePastLines m cw la startIndex cache = (inr lines, cache')
    /\ consecutive
         (startIndex + 1 - Z.of_nat (length (List.concat lines)))
         (List.map rw_index (List.concat lines))
    /\ 0 <= startIndex + 1 - Z.of_nat (length (List.concat lines))
    /\ Forall (fun l => l <> []) lines
    /\ Forall (row_ok m) (List.concat lines)
    /\ Z.of_nat (length lines) <= Z.max la 1.
Proof.
  intros Hs. unfold Window._calculatePastLines.
  destruct (past_lines_loop_spec m cw la (Z.to_nat (startIndex + 1))
              startIndex [] [] 0 cache Hs I ltac:(constructor)
              ltac:(constructor) ltac:(now left))
    as (lines & cur & cache' & Hr & a & Ha & Hca & Hla & Hne & Hok & Hb).
  rewrite (bind_ok _ _ _ _ _ Hr). cbn [app List.concat length] in Hla.
  unfold WordMetrics.ret.
  destruct ((0 <? length cur)%nat && (Z.of_nat (length lines) <? la)) eqn:Hpush.
  - apply andb_prop in Hpush. destruct Hpush as [Hcur Hlt].
    apply Nat.ltb_lt in Hcur. apply Z.ltb_lt in Hlt.
    exists (cur :: lines), cache'. split; [reflexivity|].
    cbn [List.concat].
    replace (startIndex + 1 - Z.of_nat (length (cur ++ List.concat lines)))
      with a by lia.
    repeat split; try assumption.
    + constructor; [|exact Hne]. destruct cur; [cbn in Hcur; lia | easy].
    + cbn [length]. lia.
  - exists lines, cache'. split; [reflexivity|].
    apply andb_false_iff in Hpush.
    assert (Hcase : cur = [] \/ lines = []).
    { destruct Hpush as [Hcur|Hlt].
      - left. apply Nat.ltb_ge in Hcur. destruct cur; [easy | cbn in Hcur; lia].
      - apply Z.ltb_ge in Hlt. destruct Hb as [[-> _]|[->|Hb]]; [now left|now right|lia]. }
    destruct Hcase as [->| ->].
    + cbn [app] in *.
      replace (startIndex + 1 - Z.of_nat (length (List.concat lines)))
        with a by lia.
      repeat split; try assumption.
      destruct Hb as [[_ Hb]|[->|Hb]]; cbn [length]; lia.
    + cbn. repeat split; try constructor; lia.
Qed.

Lemma future_lines_loop_spec m cw lb : forall fuel i lines cur lw cache s,
  consecutive s (List.map rw_index (List.concat lines ++ cur)) ->
  s + Z.of_nat (length (List.concat lines ++ cur)) = i ->
  i <= WordMetrics.getWordCount m ->
  Forall (fun l => l <> []) lines ->
  Forall (row_ok m) (List.concat lines ++ cur) ->
  (lines = [] \/ Z.of_nat (length lines) < lb) ->
  exists lines' cur' cache',
    Window.future_lines_loop m cw lb fuel i lines cur lw cache
      = (inr (lines', cur'), cache')
    /\ consecutive s (List.map rw_index (List.concat lines' ++ cur'))
    /\ s + Z.of_nat (length (List.concat lines' ++ cur'))
       <= WordMetrics.getWordCount m
    /\ Forall (fun l => l <> []) lines'
    /\ Forall (row_ok m) (List.concat lines' ++ cur')
    /\ ((cur' = [] /\ Z.of_nat (length lines') <= Z.max lb 1)
        \/ lines' = [] \/ Z.of_nat (length lines') < lb).
Proof.
  induction fuel as [|fuel IH];
    intros i lines cur lw cache s Hc Hs Hi Hne Hok Hb;
    cbn [Window.future_lines_loop].
  - exists lines, cur, cache. repeat split; try assumption; try lia. now right.
  - destruct (Z.leb_spec (WordMetrics.getWordCount m) i) as [Hge|Hlt].
    { exists lines, cur, cache.
      repeat split; try assumption; try lia. now right. }
    destruct (WordMetrics.getWordPositionData m i) as [wd|] eqn:Hwd.
    2:{ exists lines, cur, cache.
        repeat split; try assumption; try lia. now right. }
    cbv zeta.
    destruct (window_getWordWidth_total m (word wd) cache) as (v & c1 & Hv).
    rewrite (bind_ok _ _ _ _ _ Hv).
    assert (Hrw : row_ok m (mkRowWord (word wd) i)) by (exists wd; now cbn).
    destruct ((cw - Window.spacing m <? lw + (v + Window.spacing m))
              && (0 <? length cur)%nat) eqn:Hcond.
    + apply andb_prop in Hcond. destruct Hcond as [_ Hcur].
      apply Nat.ltb_lt in Hcur.
      assert (Hcne : cur <> []) by (destruct cur; [cbn in Hcur; lia | easy]).
      assert (Hcat : List.concat (lines ++ [cur]) = List.concat lines ++ cur)
        by (rewrite List.concat_app; cbn; now rewrite app_nil_r).
      assert (Hne1 : Forall (fun l => l <> []) (lines ++ [cur]))
        by (apply Forall_app; split; [exact Hne | now constructor]).
      destruct (Z.leb_spec lb (Z.of_nat (length (lines ++ [cur]))))
        as [Hfull|Hroom].
      * exists (lines ++ [cur]), [], c1. rewrite app_nil_r, Hcat.
        repeat split; try assumption; try lia.
        left. split; [reflexivity|]. rewrite length_app in *. cbn [length] in *.
        destruct Hb as [->|Hb]; cbn [length]; lia.
      * destruct (IH (i + 1) (lines ++ [cur]) [mkRowWord (word wd) i]
                    (0 + (v + Window.spacing m)) c1 s)
          as (lines' & cur' & cache' & Hr & Hca & Hla & Hne' & Hok' & Hb').
        -- rewrite Hcat, List.map_app. apply consecutive_snoc.
           ++ exact Hc.
           ++ now rewrite length_map.
        -- rewrite Hcat, length_app. cbn [length]. lia.
        -- lia.
        -- exact Hne1.
        -- rewrite Hcat. apply Forall_app. split; [exact Hok|].
           now constructor.
        -- right. lia.
        -- exists lines', cur', cache'. now repeat split.
    + destruct (IH (i + 1) lines (cur ++ [mkRowWord (word wd) i])
                  (lw + (v + Window.spacing m)) c1 s)
        as (lines' & cur' & cache' & Hr & Hca & Hla & Hne' & Hok' & Hb').
      * rewrite app_assoc, List.map_app. apply consecutive_snoc.
        -- exact Hc.
        -- now rewrite length_map.
      * rewrite app_assoc, length_app. cbn [length]. lia.
      * lia.
      * exact Hne.
      * rewrite app_assoc. apply Forall_app. split; [exact Hok|].
        now constructor.
      * exact Hb.
      * exists lines', cur', cache'. now repeat split.
Qed.

Lemma calculateFutureLines_spec m cw lb startIndex cache :
  startIndex <= WordMetrics.getWordCount m ->
  exists lines cache',
    Window._calculateFutureLines m cw lb startIndex cache
      = (inr lines, cache')
    /\ consecutive startIndex (List.map rw_index (List.concat lines))
    /\ startIndex + Z.of_nat (length (List.concat lines))
       <= WordMetrics.getWordCount m
    /\ Forall (fun l => l <> []) lines
    /\ Forall (row_ok m) (List.concat lines)
    /\ Z.of_nat (length lines) <= Z.max lb 1.
Proof.
  intros Hs. unfold Window._calculateFutureLines.
  destruct (future_lines_loop_spec m cw lb
              (Z.to_nat (WordMetrics.getWordCount m - startIndex))
              startIndex [] [] 0 cache startIndex I ltac:(cbn; lia) Hs
              ltac:(constructor) ltac:(constructor) ltac:(now left))
    as (lines & cur & cache' & Hr & Hca & Hla & Hne & Hok & Hb).
  rewrite (bind_ok _ _ _ _ _ Hr). unfold WordMetrics.ret.
  destruct ((0 <? length cur)%nat && (Z.of_nat (length lines) <? lb)) eqn:Hpush.
  - apply andb_prop in Hpush. destruct Hpush as [Hcur Hlt].
    apply Nat.ltb_lt in Hcur. apply Z.ltb_lt in Hlt.
    exists (lines ++ [cur]), cache'. split; [reflexivity|].
    assert (Hcat : List.concat (lines ++ [cur]) = List.concat lines ++ cur)
      by (rewrite List.concat_app; cbn; now rewrite app_nil_r).
    rewrite Hcat. repeat split; try assumption.
    + apply Forall_app. split; [exact Hne|]. constructor; [|constructor].
      destruct cur; [cbn in Hcur; lia | easy].
    + rewrite length_app. cbn [length]. lia.
  - exists lines, cache'. split; [reflexivity|].
    apply andb_false_iff in Hpush.
    assert (Hcase : cur = [] \/ lines = []).
    { destruct Hpush as [Hcur|Hlt].
      - left. apply Nat.ltb_ge in Hcur. destruct cur; [easy | cbn in Hcur; lia].
      - apply Z.ltb_ge in Hlt.
        destruct Hb as [[-> _]|[->|Hb]]; [now left|now right|lia]. }
    destruct Hcase as [->| ->].
    + rewrite app_nil_r in *. repeat split; try assumption.
      destruct Hb as [[_ Hb]|[->|Hb]]; cbn [length]; lia.
    + cbn. repeat split; try constructor; lia.
Qed.

(** X18: for a focus index inside the document, [_getVisibleWords]
    returns a window whose words, read from the first line above to the
    last line below with the focus word in its place, are the words of
    the document at consecutive indices: no word is skipped or shown
    twice, and none lies outside the document. Every entry carries the
    word of its index, those of the focus line at their start position
    moved by the offset; no line above or below is empty, and there are
    at most [max(linesAbove, 1)] lines above and [max(linesBelow, 1)]
    below. *)
Theorem visible_words_are_consecutive
    (m : WordMetrics.t) (cw la lb f : Z) (g : Q) (cache : gmap string Z) :
  0 <= f < WordMetrics.getWordCount m ->
  exists v cache',
    Window._getVisibleWords m cw la lb f g cache = (inr v, cache')
    /\ exists a,
         0 <= a <= f
         /\ consecutive a (window_indices f v)
         /\ a + Z.of_nat (length (window_indices f v))
            <= WordMetrics.getWordCount m
         /\ Forall (line_ok m g) (pastOnLine v ++ futureOnLine v)
         /\ Forall (row_ok m)
              (List.concat (pastLines v) ++ List.concat (futureLines v))
         /\ Forall (fun l => l <> []) (pastLines v ++ futureLines v)
         /\ Z.of_nat (length (pastLines v)) <= Z.max la 1
         /\ Z.of_nat (length (futureLines v)) <= Z.max lb 1.
Proof.
  intros Hf. unfold Window._getVisibleWords. cbv zeta.
  unfold Window._getPastWordsOnFocusLine, Window._getFutureWordsOnFocusLine.
  destruct (past_on_line_spec m g (Z.to_nat f) (f - 1) []
              ltac:(lia) I ltac:(constructor))
    as (a & Ha & HcO & HlO & HokO).
  set (O := Window.past_on_line m (Z.to_nat f) (f - 1) g []) in *.
  destruct (future_on_line_spec m cw g
              (Z.to_nat (WordMetrics.getWordCount m - (f + 1))) (f + 1) []
              (f + 1) I ltac:(cbn; lia) ltac:(lia) ltac:(constructor))
    as (HcF & HlF & HokF).
  set (F := Window.future_on_line m cw
              (Z.to_nat (WordMetrics.getWordCount m - (f + 1))) (f + 1) g [])
    in *.
  cbn [length] in HlO.
  destruct (calculatePastLines_spec m cw la (f - Z.of_nat (length O) - 1)
              cache ltac:(lia))
    as (P & c1 & HP & HcP & HaP & HneP & HokP & HbP).
  rewrite (bind_ok _ _ _ _ _ HP).
  destruct (calculateFutureLines_spec m cw lb (f + Z.of_nat (length F) + 1)
              c1 ltac:(lia))
    as (G & c2 & HG & HcG & HlG & HneG & HokG & HbG).
  rewrite (bind_ok _ _ _ _ _ HG).
  exists (mkVisible O F P G), c2. split; [reflexivity|].
  exists (a - Z.of_nat (length (List.concat P))).
  unfold window_indices. cbn [pastOnLine futureOnLine pastLines futureLines].
  replace (f - Z.of_nat (length O) - 1 + 1
           - Z.of_nat (length (List.concat P)))
    with (a - Z.of_nat (length (List.concat P))) in * by lia.
  split; [lia|]. split.
  { apply consecutive_app. split; [exact HcP|].
    rewrite length_map.
    replace (a - Z.of_nat (length (List.concat P))
             + Z.of_nat (length (List.concat P))) with a by lia.
    apply consecutive_app. split; [exact HcO|]. rewrite length_map.
    cbn [app consecutive]. split; [lia|].
    replace (a + Z.of_nat (length O) + 1) with (f + 1) by lia.
    apply consecutive_app. split; [exact HcF|]. rewrite length_map.
    now replace (f + 1 + Z.of_nat (length F))
      with (f + Z.of_nat (length F) + 1) by lia. }
  split.
  { repeat (rewrite ?length_app, ?length_map; cbn [length]). lia. }
  split; [apply Forall_app; now split|].
  split; [apply Forall_app; now split|].
  split; [apply Forall_app; now split|].
  split; assumption.
Qed.

Lemma visible_words_are_consecutive_witness :
  0 <= 4 < WordMetrics.getWordCount nine_words
  /\ exists v cache',
       Window._getVisibleWords nine_words 120 2 2 4 (-197 # 1) ∅
         = (inr v, cache')
       /\ exists a,
            0 <= a <= 4
            /\ consecutive a (window_indices 4 v)
            /\ a + Z.of_nat (length (window_indices 4 v))
               <= WordMetrics.getWordCount nine_words
            /\ Forall (line_ok nine_words (-197 # 1))
                 (pastOnLine v ++ futureOnLine v)
            /\ Forall (row_ok nine_words)
                 (List.concat (pastLines v) ++ List.concat (futureLines v))
            /\ Forall (fun l => l <> []) (pastLines v ++ futureLines v)
            /\ Z.of_nat (length (pastLines v)) <= Z.max 2 1
            /\ Z.of_nat (length (futureLines v)) <= Z.max 2 1.
Proof.
  assert (H : 0 <= 4 < WordMetrics.getWordCount nine_words)
    by (vm_compute; split; [discriminate | reflexivity]).
  split; [exact H|].
  exact (visible_words_are_consecutive nine_words 120 2 2 4 (-197 # 1) ∅ H).
Defined.
